(** * Browser automation framework: task scheduler, proxy pool and retry helper

    A shallow embedding of the algorithmic parts of the repository,
    - [automation/task_runner.py]   (class [TaskRunner]),
    - [automation/proxy_rotation.py] (class [ProxyRotation]),
    - [automation/wait_strategies.py] ([WaitStrategies.retry_until] and
      [WaitStrategies.wait_for_dom_stable]),
    - [automation/browser.py] (where [Browser] draws on the proxy pool),
    followed by the properties established about them.

    Conventions of the embedding.
    - Python [int] is [Z]; counters that the code only ever resets to 0 or
      increments are [nat].
    - Wall-clock readings ([time.time()], [time.perf_counter()]) are inputs
      of the operations (an integer number of ticks); only their order and
      the places they are stored in matter here.
    - A coroutine supplied by the caller (a task action, the action given to
      [retry_until], a health probe) is an opaque effectful function.  It is
      modelled as a state transformer over a caller-chosen world [W], and
      every call the code makes is appended to an event trace, so that
      "is invoked n times" and "is never invoked" are statements about that
      trace.
    - Only exceptions derived from [Exception] are modelled ([except
      Exception] does not catch the others). *)

From stdpp Require Import gmap strings list relations sorting.
From Stdlib Require Import ZArith Lia.

(** ** Python values, exceptions and insertion-ordered dictionaries *)

Module Py.

(** The fragment of Python values needed to talk about [None] and about
    truthiness ([if x:]). *)
#[local] Set Warnings "-register-all".
Inductive pyval :=
| PyNone
| PyBool (b : bool)
| PyInt (z : Z)
| PyStr (s : string)
| PyList (l : list pyval).

(** [bool(v)] *)
Definition truthy (v : pyval) : bool :=
  match v with
  | PyNone => false
  | PyBool b => b
  | PyInt z => negb (z =? 0)%Z
  | PyStr s => negb (String.eqb s "")
  | PyList l => match l with [] => false | _ :: _ => true end
  end.

Definition is_none (v : pyval) : bool :=
  match v with PyNone => true | _ => false end.

(** Exceptions (all of them subclasses of [Exception]). [ActionError] stands
    for whatever a caller-supplied coroutine raises. *)
Inductive pyexn :=
| ActionError (msg : string)
| TimeoutError
| UnboundLocalError (var : string)
| KeyError (key : string)
| RecursionError
| TypeError (msg : string).

(** [str(e)] *)
Definition str (e : pyexn) : string :=
  match e with
  | ActionError msg => msg
  | TimeoutError => EmptyString
  | UnboundLocalError var =>
      String.append "cannot access local variable '"
        (String.append var "' where it is not associated with a value")
  | KeyError key => key
  | RecursionError => "maximum recursion depth exceeded"
  | TypeError msg => msg
  end.

(** What awaiting a coroutine gives back. *)
Inductive outcome :=
| Returned (v : pyval)
| Raised (e : pyexn).

(** [range(n)] *)
Definition range (n : Z) : list Z := Z.of_nat <$> seq 0 (Z.to_nat n).

(** A [dict] with string keys: iteration follows insertion order, and
    assigning to an existing key keeps the key's position. *)
Definition odict (V : Type) := list (string * V).

Fixpoint od_get {V} (d : odict V) (k : string) : option V :=
  match d with
  | [] => None
  | (k', v) :: rest => if decide (k' = k) then Some v else od_get rest k
  end.

Fixpoint od_set {V} (d : odict V) (k : string) (v : V) : odict V :=
  match d with
  | [] => [(k, v)]
  | (k', v') :: rest =>
      if decide (k' = k) then (k, v) :: rest else (k', v') :: od_set rest k v
  end.

Definition od_keys {V} (d : odict V) : list string := d.*1.
Definition od_values {V} (d : odict V) : list V := d.*2.

End Py.

(** ** automation/task_runner.py *)

Module Task.
Import Py.

Inductive TaskStatus :=
| PENDING | RUNNING | COMPLETED | FAILED | SKIPPED | CANCELLED.

Definition status_eqb (a b : TaskStatus) : bool :=
  match a, b with
  | PENDING, PENDING | RUNNING, RUNNING | COMPLETED, COMPLETED
  | FAILED, FAILED | SKIPPED, SKIPPED | CANCELLED, CANCELLED => true
  | _, _ => false
  end.

(** [TaskResult]; [duration_ms] and [timestamp] are wall-clock readings and
    are left out. *)
Record TaskResult := {
  task_name : string;
  status : TaskStatus;
  result_data : pyval;
  error : option string;
}.

(** [WorkflowResult], without its three wall-clock fields. *)
Record WorkflowResult := {
  workflow_name : string;
  total_tasks : nat;
  completed : nat;
  failed : nat;
  skipped : nat;
  task_results : list TaskResult;
}.

(** What the scheduler does that an observer can see. *)
Inductive event :=
| EvInvoke (task : string)   (* [task.action(context, **task.kwargs)] is awaited *)
| EvSleep (seconds : Z).     (* [asyncio.sleep(seconds)] *)

Section Runner.
Context {W : Type}.

(** A task action.  It receives the shared context dictionary (which it may
    mutate, the dictionary being passed by reference) and the task's keyword
    arguments (fixed per task, hence part of the function), runs under
    [asyncio.wait_for], and either returns a value or raises; running out of
    time is the outcome [Raised TimeoutError]. *)
Definition action_fn : Type :=
  gmap string pyval → W → outcome * gmap string pyval * W.

Record AutomationTask := {
  name : string;
  action : action_fn;
  depends_on : list string;
  retry_count : Z;
  timeout : Z;
  skip_on_failure : bool;
}.

Record TaskRunner := {
  runner_name : string;
  _tasks : odict AutomationTask;
  _results : odict TaskResult;
}.

(** [TaskRunner(name)] *)
Definition new_runner (nm : string) : TaskRunner :=
  {| runner_name := nm; _tasks := []; _results := [] |}.

(** [add_task]: [self._tasks[task.name] = task] *)
Definition add_task (r : TaskRunner) (task : AutomationTask) : TaskRunner :=
  {| runner_name := runner_name r;
     _tasks := od_set (_tasks r) (name task) task;
     _results := _results r |}.

(** A runner on which [add_task] was called for each element of [ts], in
    that order. *)
Definition runner_of (nm : string) (ts : list AutomationTask) : TaskRunner :=
  foldl add_task (new_runner nm) ts.

(** *** [_resolve_order] *)

(** A [for] loop whose body may fail, threading the loop state. *)
Fixpoint for_each {A S : Type} (body : A → S → option S) (l : list A) (s : S)
  : option S :=
  match l with
  | [] => Some s
  | x :: rest =>
      match body x s with
      | None => None
      | Some s' => for_each body rest s'
      end
  end.

(** The inner function [visit].  The two captured variables [visited] and
    [order] are the threaded state; [fuel] bounds the depth of the recursion
    and [None] means that the bound was hit.  (The interpreter's own limit
    on the depth of recursion is not modelled.) *)
Fixpoint visit (tasks : odict AutomationTask) (fuel : nat) (nm : string)
  (st : gset string * list string) : option (gset string * list string) :=
  match fuel with
  | O => None
  | S fuel' =>
      let '(visited, order) := st in
      if decide (nm ∈ visited) then Some st
      else
        let visited := {[nm]} ∪ visited in
        match od_get tasks nm with
        | None => Some (visited, order)
        | Some task =>
            match for_each (visit tasks fuel') (depends_on task) (visited, order) with
            | None => None
            | Some (visited', order') => Some (visited', order' ++ [nm])
            end
        end
  end.

(** [_resolve_order].  The recursion of [visit] never goes deeper than one
    more than the number of registered tasks (lemma [resolve_order_total]
    below), which is the fuel given here. *)
Definition _resolve_order (tasks : odict AutomationTask) : option (list string) :=
  snd <$> for_each (visit tasks (S (length tasks))) (od_keys tasks) (∅, []).

(** The same traversal without the bound, as the specification words it:
    the names of a list are visited in order; a name that was visited
    already is skipped; a name that is not present in the graph is marked
    and otherwise ignored; for a task, its dependencies are visited,
    recursively, before the task itself is appended.
    [post_order tasks visited names visited' appended]: visiting [names]
    with the marks [visited] ends with the marks [visited'] and has appended
    [appended] to the order. *)
Inductive post_order (tasks : odict AutomationTask)
  : gset string → list string → gset string → list string → Prop :=
| post_done visited :
    post_order tasks visited [] visited []
| post_skip visited nm names visited' l :
    nm ∈ visited →
    post_order tasks visited names visited' l →
    post_order tasks visited (nm :: names) visited' l
| post_missing visited nm names visited' l :
    nm ∉ visited → od_get tasks nm = None →
    post_order tasks ({[nm]} ∪ visited) names visited' l →
    post_order tasks visited (nm :: names) visited' l
| post_task visited nm task names visited1 l1 visited2 l2 :
    nm ∉ visited → od_get tasks nm = Some task →
    post_order tasks ({[nm]} ∪ visited) (depends_on task) visited1 l1 →
    post_order tasks visited1 names visited2 l2 →
    post_order tasks visited (nm :: names) visited2 (l1 ++ [nm] ++ l2).

(** *** [_dependencies_met] *)

Fixpoint deps_loop (results : odict TaskResult) (deps : list string) : bool :=
  match deps with
  | [] => true
  | dep :: rest =>
      match od_get results dep with
      | None => false
      | Some result =>
          if negb (status_eqb (status result) COMPLETED) then false
          else deps_loop results rest
      end
  end.

Definition _dependencies_met (results : odict TaskResult) (task : AutomationTask)
  : bool :=
  deps_loop results (depends_on task).

(** *** [_execute_task] *)

(** The part of the run that [_execute_task] reads and writes. *)
Record env := {
  context : gmap string pyval;
  world : W;
  trace : list event;
}.

Inductive task_exit :=
| TaskReturn (r : TaskResult)
| TaskRaise (e : pyexn).

Definition sleep (seconds : Z) (s : env) : env :=
  {| context := context s; world := world s;
     trace := trace s ++ [EvSleep seconds] |}.

(** The [for attempt in range(task.retry_count + 1)] loop and the code after
    it.  [e] is the local variable bound by [except Exception as e]: Python 3
    unbinds that name when the [except] clause is left (language reference,
    "The try statement": the clause behaves as if it ended with [del e]), so
    it is unbound again on every path that reaches the next iteration or the
    code after the loop. *)
Fixpoint attempt_loop (task : AutomationTask) (attempts : list Z)
  (e : option pyexn) (s : env) : task_exit * env :=
  match attempts with
  | [] =>
      (* after the loop: [TaskResult(..., status=FAILED, error=str(e))] *)
      match e with
      | Some err =>
          (TaskReturn {| task_name := name task; status := FAILED;
                         result_data := PyNone; error := Some (str err) |}, s)
      | None => (TaskRaise (UnboundLocalError "e"), s)
      end
  | attempt :: rest =>
      let '(out, ctx', w') := action task (context s) (world s) in
      let s1 := {| context := ctx'; world := w';
                   trace := trace s ++ [EvInvoke (name task)] |} in
      match out with
      | Returned result =>
          (TaskReturn {| task_name := name task; status := COMPLETED;
                         result_data := result; error := None |}, s1)
      | Raised err =>
          let e := Some err in                      (* except Exception as e: *)
          let s2 := if (attempt <? retry_count task)%Z
                    then sleep 1 s1 else s1 in
          let e := @None pyexn in                   (* leaving the clause: del e *)
          attempt_loop task rest e s2
      end
  end.

Definition _execute_task (task : AutomationTask) (s : env) : task_exit * env :=
  attempt_loop task (range (retry_count task + 1)) None s.

(** *** [execute] *)

Definition skipped_result (task_name : string) : TaskResult :=
  {| task_name := task_name; status := SKIPPED; result_data := PyNone;
     error := Some "Dependencies not met" |}.

(** The body of the [for task_name in execution_order] loop, for the task
    found under [task_name].  [Some e]: the exception [e] leaves the loop. *)
Definition loop_body (task_name : string) (task : AutomationTask)
  (results : odict TaskResult) (s : env)
  : option pyexn * odict TaskResult * env :=
  if negb (_dependencies_met results task) then
    (None, od_set results task_name (skipped_result task_name), s)
  else
    match _execute_task task s with
    | (TaskRaise e, s') => (Some e, results, s')
    | (TaskReturn result, s') =>
        let results := od_set results task_name result in
        if status_eqb (status result) COMPLETED && truthy (result_data result)
        then (None, results,
              {| context := <[task_name := result_data result]> (context s');
                 world := world s'; trace := trace s' |})
        else (None, results, s')
    end.

(** The loop itself; [self._tasks[task_name]] raises [KeyError] for a
    missing key. *)
Fixpoint execute_loop (tasks : odict AutomationTask) (order : list string)
  (results : odict TaskResult) (s : env)
  : option pyexn * odict TaskResult * env :=
  match order with
  | [] => (None, results, s)
  | task_name :: rest =>
      match od_get tasks task_name with
      | None => (Some (KeyError task_name), results, s)
      | Some task =>
          match loop_body task_name task results s with
          | (Some e, results', s') => (Some e, results', s')
          | (None, results', s') => execute_loop tasks rest results' s'
          end
      end
  end.

Definition count_status (st : TaskStatus) (results : list TaskResult) : nat :=
  length (filter (λ r, status_eqb (status r) st = true) results).

Inductive exec_exit :=
| Finished (wr : WorkflowResult)
| Aborted (e : pyexn).

(** What [execute] leaves behind: how it ended, the runner's [_results], and
    the context, world and trace. *)
Record exec_run := {
  run_exit : exec_exit;
  run_results : odict TaskResult;
  run_env : env;
}.

(** [execute(context)].  [ctx0 = None] is the default argument;
    [context or {}] also replaces an empty dictionary by a new empty one. *)
Definition execute (r : TaskRunner) (ctx0 : option (gmap string pyval)) (w : W)
  : exec_run :=
  let s0 := {| context := default ∅ ctx0; world := w; trace := [] |} in
  match _resolve_order (_tasks r) with
  | None => {| run_exit := Aborted RecursionError;
               run_results := _results r; run_env := s0 |}
  | Some execution_order =>
      match execute_loop (_tasks r) execution_order (_results r) s0 with
      | (Some e, results, s) =>
          {| run_exit := Aborted e; run_results := results; run_env := s |}
      | (None, results, s) =>
          let rl := od_values results in
          {| run_exit := Finished
               {| workflow_name := runner_name r;
                  total_tasks := length rl;
                  completed := count_status COMPLETED rl;
                  failed := count_status FAILED rl;
                  skipped := count_status SKIPPED rl;
                  task_results := rl |};
             run_results := results; run_env := s |}
      end
  end.

(** *** Vocabulary for the properties *)

Definition registered (tasks : odict AutomationTask) (nm : string) : Prop :=
  is_Some (od_get tasks nm).

(** [dep] is one of the names the task registered as [nm] depends on. *)
Definition dep_edge (tasks : odict AutomationTask) (nm dep : string) : Prop :=
  ∃ task, od_get tasks nm = Some task ∧ dep ∈ depends_on task.

(** No task reaches itself along one or more dependency edges. *)
Definition acyclic (tasks : odict AutomationTask) : Prop :=
  ∀ nm, ¬ tc (dep_edge tasks) nm nm.

(** [a] stands at an earlier position of [order] than [b]. *)
Definition before (order : list string) (a b : string) : Prop :=
  ∃ i j, i < j ∧ order !! i = Some a ∧ order !! j = Some b.

(** [nm] has a result with status [completed]. *)
Definition completed_in (results : odict TaskResult) (nm : string) : Prop :=
  ∃ r, od_get results nm = Some r ∧ status r = COMPLETED.

(** The action raises whenever it is invoked. *)
Definition always_raises (a : action_fn) : Prop :=
  ∀ c w, ∃ e c' w', a c w = (Raised e, c', w').

(** The result [_execute_task] builds when the action returned [v]. *)
Definition completed_result (task : AutomationTask) (v : pyval) : TaskResult :=
  {| task_name := name task; status := COMPLETED; result_data := v;
     error := None |}.

(** The events one run of [_execute_task] can add to the trace. *)
Definition task_events (task : AutomationTask) (tr : list event) : Prop :=
  ∀ ev, ev ∈ tr → ev = EvInvoke (name task) ∨ ev = EvSleep 1.

(** *** Invariants of [_resolve_order] *)

(** The registered names that [visit] has not marked yet: the measure that
    bounds the depth of the recursion. *)
Definition unvisited (tasks : odict AutomationTask) (visited : gset string)
  : nat :=
  size (list_to_set (od_keys tasks) ∖ visited : gset string).

(** What holds of [(visited, order)] between two calls of [visit], [anc]
    being the names whose call is in progress.  The last clause is the
    ordering property, available on acyclic graphs. *)
Definition order_inv (tasks : odict AutomationTask) (anc : gset string)
  (st : gset string * list string) : Prop :=
  NoDup st.2
  ∧ (∀ n, n ∈ st.2 → n ∈ st.1 ∧ registered tasks n)
  ∧ (∀ n, n ∈ st.1 → registered tasks n → n ∈ st.2 ∨ n ∈ anc)
  ∧ (acyclic tasks →
     ∀ j n d, st.2 !! j = Some n → dep_edge tasks n d → registered tasks d →
       ∃ i, i < j ∧ st.2 !! i = Some d).

(** What a call leaves behind ([st] before, [st'] after): marks are kept,
    and a name added to the order was not marked before. *)
Definition grows (st st' : gset string * list string) : Prop :=
  st.1 ⊆ st'.1 ∧ (∀ x, x ∈ st'.2 → x ∈ st.2 ∨ x ∉ st.1).

Definition visit_ok (tasks : odict AutomationTask) (fuel : nat) : Prop :=
  ∀ nm st st' anc,
    visit tasks fuel nm st = Some st' →
    order_inv tasks anc st →
    (∀ a, a ∈ anc → tc (dep_edge tasks) a nm) →
    order_inv tasks anc st' ∧ grows st st' ∧ nm ∈ st'.1.

Definition loop_ok (tasks : odict AutomationTask) (fuel : nat) : Prop :=
  ∀ deps st st' anc,
    for_each (visit tasks fuel) deps st = Some st' →
    order_inv tasks anc st →
    (∀ d a, d ∈ deps → a ∈ anc → tc (dep_edge tasks) a d) →
    order_inv tasks anc st' ∧ grows st st' ∧ (∀ d, d ∈ deps → d ∈ st'.1).

(** *** Invariants of the loop of [execute] *)

(** Every task recorded as completed has all its dependencies recorded as
    completed. *)
Definition closed (tasks : odict AutomationTask) (results : odict TaskResult)
  : Prop :=
  ∀ m r t d, od_get results m = Some r → status r = COMPLETED →
    od_get tasks m = Some t → d ∈ depends_on t → completed_in results d.

Definition keys_registered (tasks : odict AutomationTask)
  (results : odict TaskResult) : Prop :=
  ∀ m, is_Some (od_get results m) → registered tasks m.

(** All the dependencies of the task registered as [nm] are recorded as
    completed. *)
Definition deps_completed (tasks : odict AutomationTask)
  (results : odict TaskResult) (nm : string) : Prop :=
  ∀ t d, od_get tasks nm = Some t → d ∈ depends_on t → completed_in results d.

(** [nm] can pass the dependency check in some state a run started on a
    new runner can be in. *)
Definition runnable (tasks : odict AutomationTask) (nm : string) : Prop :=
  ∃ results t, closed tasks results ∧ keys_registered tasks results
    ∧ od_get results nm = None ∧ od_get tasks nm = Some t
    ∧ _dependencies_met results t = true.

(** What holds before each turn of the loop, [rest] being the names still
    to be processed. *)
Definition loop_inv (tasks : odict AutomationTask) (rest : list string)
  (results : odict TaskResult) (s : env) : Prop :=
  NoDup rest
  ∧ (∀ k, k ∈ rest → od_get results k = None ∧ registered tasks k)
  ∧ closed tasks results
  ∧ keys_registered tasks results
  ∧ (∀ n r, od_get results n = Some r →
       status r = COMPLETED ∨ r = skipped_result n)
  ∧ (∀ n, EvInvoke n ∈ trace s → completed_in results n).

End Runner.

(** The trace of a task whose attempts all fail: [k] attempts, each followed
    by a sleep of one second, then the last attempt. *)
Definition retry_trace (nm : string) (k : nat) : list event :=
  concat (replicate k [EvInvoke nm; EvSleep 1]) ++ [EvInvoke nm].

Arguments AutomationTask : clear implicits.
Arguments TaskRunner : clear implicits.
Arguments env : clear implicits.
Arguments exec_run : clear implicits.
Arguments action_fn : clear implicits.

(** *** Vocabulary for whole runs *)

Section Behaviour.
Context {W : Type}.

(** The action returns whenever it is invoked. *)
Definition always_returns (a : action_fn W) : Prop :=
  ∀ c w, ∃ v c' w', a c w = (Returned v, c', w').

(** The action raises on each of its next [k] invocations, the first of
    them with context [c] in world [w]; the result is the context and the
    world these invocations leave. *)
Fixpoint raises_for (a : action_fn W) (k : nat) (c : gmap string pyval) (w : W)
  : option (gmap string pyval * W) :=
  match k with
  | O => Some (c, w)
  | S k' =>
      match a c w with
      | (Raised _, c', w') => raises_for a k' c' w'
      | (Returned _, _, _) => None
      end
  end.

(** Every name some task depends on is registered. *)
Definition deps_registered (tasks : odict (AutomationTask W)) : Prop :=
  ∀ n d, dep_edge tasks n d → registered tasks d.

End Behaviour.

(** How often the action of the task [nm] was awaited, and how often the
    scheduler slept, in a trace. *)
Definition is_invoke (nm : string) (ev : event) : bool :=
  match ev with
  | EvInvoke n => bool_decide (n = nm)
  | EvSleep _ => false
  end.

Definition invocations (nm : string) (tr : list event) : nat :=
  length (filter (λ ev, is_invoke nm ev = true) tr).

Definition is_sleep (ev : event) : bool :=
  match ev with EvSleep _ => true | EvInvoke _ => false end.

Definition sleeps (tr : list event) : nat :=
  length (filter (λ ev, is_sleep ev = true) tr).

(** The two kinds of result the loop of [execute] stores under the name
    [n]. *)
Definition stored_result (n : string) (r : TaskResult) : Prop :=
  r = skipped_result n
  ∨ ∃ v, r = {| task_name := n; status := COMPLETED; result_data := v;
               error := None |}.

End Task.

(** ** automation/proxy_rotation.py *)

Module Proxy.

(** [ProxyInfo].  [fail_count] starts at 0 and is only ever incremented or
    reset to 0. *)
Record ProxyInfo := {
  url : string;
  is_healthy : bool;
  latency_ms : Z;
  fail_count : nat;
  last_used : Z;
  last_checked : Z;
}.

(** [ProxyRotation]; the two entries of the [_stats] dictionary are the
    fields [rotations] and [failures]. *)
Record ProxyRotation := {
  _proxies : list ProxyInfo;
  check_url : string;
  check_interval : Z;
  max_failures : Z;
  _index : nat;
  rotations : nat;
  failures : nat;
}.

(** [ProxyInfo(url=url)] *)
Definition new_proxy (u : string) : ProxyInfo :=
  {| url := u; is_healthy := true; latency_ms := 0; fail_count := 0;
     last_used := 0; last_checked := 0 |}.

(** [ProxyRotation(proxies, check_url, check_interval, max_failures)] *)
Definition new_pool (proxies : list string) (check_url : string)
  (check_interval max_failures : Z) : ProxyRotation :=
  {| _proxies := new_proxy <$> proxies;
     check_url := check_url; check_interval := check_interval;
     max_failures := max_failures;
     _index := 0; rotations := 0; failures := 0 |}.

(** The constructor with its default arguments. *)
Definition new_pool_default (proxies : list string) : ProxyRotation :=
  new_pool proxies "https://httpbin.org/ip" 300 3.

Definition set_proxies (pool : ProxyRotation) (ps : list ProxyInfo)
  : ProxyRotation :=
  {| _proxies := ps;
     check_url := check_url pool; check_interval := check_interval pool;
     max_failures := max_failures pool;
     _index := _index pool; rotations := rotations pool;
     failures := failures pool |}.

(** *** [get_next] *)

(** [[p for p in self._proxies if p.is_healthy]].  The comprehension holds
    references to the records of the pool, so every element is paired with
    its position in [_proxies], where the later assignment to [last_used]
    lands. *)
Definition healthy (ps : list ProxyInfo) : list (nat * ProxyInfo) :=
  filter (λ ip, is_healthy ip.2 = true) (imap pair ps).

(** [min(healthy, key=lambda p: p.last_used)]: the first element is the
    candidate, and a later element replaces it only when its key is
    strictly smaller. *)
Fixpoint min_last_used (best : nat * ProxyInfo) (l : list (nat * ProxyInfo))
  : nat * ProxyInfo :=
  match l with
  | [] => best
  | p :: rest =>
      if (last_used p.2 <? last_used best.2)%Z
      then min_last_used p rest
      else min_last_used best rest
  end.

(** [proxy.last_used = time.time()] *)
Definition touch (now : Z) (p : ProxyInfo) : ProxyInfo :=
  {| url := url p; is_healthy := is_healthy p; latency_ms := latency_ms p;
     fail_count := fail_count p; last_used := now;
     last_checked := last_checked p |}.

(** [get_next(strategy)].  [rnd] is the index drawn by [random.choice] and
    [now] the reading of [time.time()]. *)
Definition get_next (strategy : string) (rnd : nat) (now : Z)
  (pool : ProxyRotation) : option string * ProxyRotation :=
  match healthy (_proxies pool) with
  | [] => (None, pool)
  | h0 :: hs =>
      let hl := h0 :: hs in
      let '(proxy, index) :=
        if decide (strategy = "random") then
          (nth (rnd `mod` length hl) hl h0, _index pool)
        else if decide (strategy = "least_used") then
          (min_last_used h0 hs, _index pool)
        else
          let i := _index pool `mod` length hl in
          (nth i hl h0, S i) in
      (Some (url proxy.2),
       {| _proxies := <[proxy.1 := touch now proxy.2]> (_proxies pool);
          check_url := check_url pool; check_interval := check_interval pool;
          max_failures := max_failures pool;
          _index := index; rotations := S (rotations pool);
          failures := failures pool |})
  end.

(** *** [report_failure] and [report_success] *)

(** The body of [report_failure] for the matching record. *)
Definition fail_once (max_failures : Z) (p : ProxyInfo) : ProxyInfo :=
  let fc := S (fail_count p) in
  {| url := url p;
     is_healthy := if (Z.of_nat fc >=? max_failures)%Z then false
                   else is_healthy p;
     latency_ms := latency_ms p; fail_count := fc;
     last_used := last_used p; last_checked := last_checked p |}.

(** The body of [report_success] for the matching record. *)
Definition succeed (p : ProxyInfo) : ProxyInfo :=
  {| url := url p; is_healthy := true; latency_ms := latency_ms p;
     fail_count := 0; last_used := last_used p;
     last_checked := last_checked p |}.

(** [for proxy in self._proxies: if proxy.url == proxy_url: ...; break]:
    the first record with that url is updated; the flag tells whether there
    was one. *)
Fixpoint update_first (f : ProxyInfo → ProxyInfo) (proxy_url : string)
  (ps : list ProxyInfo) : list ProxyInfo * bool :=
  match ps with
  | [] => ([], false)
  | proxy :: rest =>
      if decide (url proxy = proxy_url) then (f proxy :: rest, true)
      else let '(rest', found) := update_first f proxy_url rest in
           (proxy :: rest', found)
  end.

Definition report_failure (proxy_url : string) (pool : ProxyRotation)
  : ProxyRotation :=
  let '(ps, found) :=
    update_first (fail_once (max_failures pool)) proxy_url (_proxies pool) in
  {| _proxies := ps;
     check_url := check_url pool; check_interval := check_interval pool;
     max_failures := max_failures pool;
     _index := _index pool; rotations := rotations pool;
     failures := if found then S (failures pool) else failures pool |}.

Definition report_success (proxy_url : string) (pool : ProxyRotation)
  : ProxyRotation :=
  set_proxies pool (update_first succeed proxy_url (_proxies pool)).1.

(** *** [health_check] and [_check_single] *)

(** How one probe ends: a response with status 200 ([latency] is the
    measured latency and [now] the time of the check), or anything else (a
    different status, a timeout of the 10 second budget, any exception). *)
Inductive probe :=
| ProbeOk (latency now : Z)
| ProbeFailed (now : Z).

Definition probe_ok (r : probe) : bool :=
  match r with ProbeOk _ _ => true | ProbeFailed _ => false end.

(** [_check_single(proxy)], given how the probe ended.  Each of the two
    groups of assignments runs without an intervening [await]. *)
Definition _check_single (max_failures : Z) (r : probe) (p : ProxyInfo)
  : ProxyInfo :=
  match r with
  | ProbeOk latency now =>
      {| url := url p; is_healthy := true; latency_ms := latency;
         fail_count := 0; last_used := last_used p; last_checked := now |}
  | ProbeFailed now =>
      let fc := S (fail_count p) in
      {| url := url p;
         is_healthy := if (Z.of_nat fc >=? max_failures)%Z then false
                       else is_healthy p;
         latency_ms := latency_ms p; fail_count := fc;
         last_used := last_used p; last_checked := now |}
  end.

(** [sum(1 for p in self._proxies if p.is_healthy)] *)
Definition healthy_count (ps : list ProxyInfo) : nat :=
  length (filter (λ p, is_healthy p = true) ps).

(** The dictionary returned by [health_check]. *)
Record health_report := {
  hr_healthy : Z;
  hr_unhealthy : Z;
}.

(** [health_check()].  [probes i] is how the probe of the i-th record ends.
    The probes run concurrently, each touches its own record only, and the
    counts are taken after [asyncio.gather] has collected all of them. *)
Definition health_check (probes : nat → probe) (pool : ProxyRotation)
  : health_report * ProxyRotation :=
  let ps := imap (λ i p, _check_single (max_failures pool) (probes i) p)
                 (_proxies pool) in
  let h := Z.of_nat (healthy_count ps) in
  ({| hr_healthy := h; hr_unhealthy := Z.of_nat (length ps) - h |},
   set_proxies pool ps).

(** *** Histories of a pool *)

(** The operations that change a pool, as they interleave on the event
    loop.  [HealthCheck probes] is a whole sweep; [ProbeDone i r] is the
    moment the probe of record [i] alone ends with [r], for a sweep that
    other calls interleave with. *)
Inductive op :=
| GetNext (strategy : string) (rnd : nat) (now : Z)
| ReportFailure (proxy_url : string)
| ReportSuccess (proxy_url : string)
| HealthCheck (probes : nat → probe)
| ProbeDone (i : nat) (r : probe).

Definition step (pool : ProxyRotation) (o : op) : ProxyRotation :=
  match o with
  | GetNext strategy rnd now => (get_next strategy rnd now pool).2
  | ReportFailure u => report_failure u pool
  | ReportSuccess u => report_success u pool
  | HealthCheck probes => (health_check probes pool).2
  | ProbeDone i r =>
      set_proxies pool
        (alter (_check_single (max_failures pool) r) i (_proxies pool))
  end.

Definition run (pool : ProxyRotation) (ops : list op) : ProxyRotation :=
  foldl step pool ops.

(** The urls of the records, in list order. *)
Definition urls (pool : ProxyRotation) : list string := url <$> _proxies pool.

(** [o] is a [report_success(u)], or a successful probe of a record whose
    url is [u]. *)
Definition restores (pool : ProxyRotation) (u : string) (o : op) : Prop :=
  match o with
  | ReportSuccess u' => u' = u
  | HealthCheck probes =>
      ∃ i, urls pool !! i = Some u ∧ probe_ok (probes i) = true
  | ProbeDone i (ProbeOk _ _) => urls pool !! i = Some u
  | _ => False
  end.

(** [o] is a [report_failure(u)], and the number of such calls in a
    history. *)
Definition is_failure_of (u : string) (o : op) : bool :=
  match o with
  | ReportFailure u' => bool_decide (u' = u)
  | _ => false
  end.

Definition failures_of (u : string) (ops : list op) : nat :=
  length (filter (λ o, is_failure_of u o = true) ops).

(** Exactly one record of the pool has the url [u]. *)
Definition occurs_once (u : string) (pool : ProxyRotation) : Prop :=
  ∃ i, urls pool !! i = Some u ∧ ∀ j, urls pool !! j = Some u → j = i.

(** Among the first [n] probes of a sweep, the number that fail. *)
Definition failed_probes (probes : nat → probe) (n : nat) : nat :=
  length (filter (λ i, probe_ok (probes i) = false) (seq 0 n)).



(** *** The read-only properties, and what a history shows *)

(** The property [pool_size] *)
Definition pool_size (pool : ProxyRotation) : nat := length (_proxies pool).

(** The property [stats]: [{**self._stats, "pool_size": ..., "healthy": ...}],
    [_stats] holding the keys ["rotations"] and ["failures"], in that
    order. *)
Definition stats (pool : ProxyRotation) : Py.odict Z :=
  Py.od_set
    (Py.od_set [("rotations", Z.of_nat (rotations pool));
                ("failures", Z.of_nat (failures pool))]
       "pool_size" (Z.of_nat (pool_size pool)))
    "healthy" (Z.of_nat (healthy_count (_proxies pool))).

(** What the calls of [get_next] in a history return, in the order of the
    calls. *)
Fixpoint served (pool : ProxyRotation) (ops : list op) : list (option string) :=
  match ops with
  | [] => []
  | o :: rest =>
      match o with
      | GetNext strategy rnd now => [(get_next strategy rnd now pool).1]
      | _ => []
      end ++ served (step pool o) rest
  end.

(** [o] is a [report_failure] for a url the pool has. *)
Definition is_known_failure (pool : ProxyRotation) (o : op) : bool :=
  match o with
  | ReportFailure u => bool_decide (u ∈ urls pool)
  | _ => false
  end.

(** [o] is a [get_next] whose strategy falls through to round robin. *)
Definition is_round_robin (o : op) : bool :=
  match o with
  | GetNext strategy _ _ =>
      bool_decide (strategy ≠ "random" ∧ strategy ≠ "least_used")
  | _ => false
  end.

Definition is_get_next (o : op) : bool :=
  match o with GetNext _ _ _ => true | _ => false end.

(** Every record of the pool is healthy. *)
Definition all_healthy (pool : ProxyRotation) : Prop :=
  ∀ p, p ∈ _proxies pool → is_healthy p = true.

End Proxy.

(** ** automation/wait_strategies.py *)

Module Wait.
Import Py.

Section Retry.
(** [W]: the world the action acts on.  [num]: the numbers [delay] and
    [backoff] are taken from, with their multiplication ([int] or [float]
    in Python). *)
Context {W num : Type} (mul : num → num → num).

Inductive event :=
| EvCall                (* [await action()] *)
| EvSleep (delay : num). (* [await asyncio.sleep(delay)] *)

(** [for attempt in range(max_retries)] and the [raise last_error] after
    it.  [raise None] is a [TypeError]. *)
Fixpoint retry_loop (action : W → outcome * W) (max_retries : Z)
  (backoff : num) (attempts : list Z) (last_error : option pyexn)
  (current_delay : num) (w : W) (tr : list event)
  : outcome * W * list event :=
  match attempts with
  | [] =>
      match last_error with
      | Some e => (Raised e, w, tr)
      | None =>
          (Raised (TypeError "exceptions must derive from BaseException"), w, tr)
      end
  | attempt :: rest =>
      let '(out, w') := action w in
      let tr := tr ++ [EvCall] in
      match out with
      | Returned result => (Returned result, w', tr)
      | Raised e =>
          let last_error := Some e in
          if (attempt <? max_retries - 1)%Z then
            retry_loop action max_retries backoff rest last_error
              (mul current_delay backoff) w' (tr ++ [EvSleep current_delay])
          else
            retry_loop action max_retries backoff rest last_error
              current_delay w' tr
      end
  end.

(** [retry_until(action, max_retries, delay, backoff)] *)
Definition retry_until (action : W → outcome * W) (max_retries : Z)
  (delay backoff : num) (w : W) : outcome * W * list event :=
  retry_loop action max_retries backoff (range max_retries) None delay w [].

(** [delay] multiplied [i] times by [backoff]: the value of
    [current_delay] after [i] executions of [current_delay *= backoff]. *)
Fixpoint backoff_delay (delay backoff : num) (i : nat) : num :=
  match i with
  | O => delay
  | S j => mul (backoff_delay delay backoff j) backoff
  end.

(** The trace of [k] failed attempts, each followed by its wait: the i-th
    attempt (counting from 0) is followed by a wait of [delay] multiplied
    [i] times by [backoff]. *)
Fixpoint failed_attempts (delay backoff : num) (k : nat) : list event :=
  match k with
  | O => []
  | S j => failed_attempts delay backoff j
           ++ [EvCall; EvSleep (backoff_delay delay backoff j)]
  end.

(** The action raises on each of its next [k] invocations, starting in
    world [w]; the result is the error of the last of them (if [k > 0]) and
    the world after them. *)
Fixpoint fails_for (action : W → outcome * W) (k : nat) (w : W)
  (last : option pyexn) : option (option pyexn * W) :=
  match k with
  | O => Some (last, w)
  | S k' =>
      match action w with
      | (Raised e, w') => fails_for action k' w' (Some e)
      | (Returned _, _) => None
      end
  end.

(** The action fails exactly [k] times and then returns [v]. *)
Definition fails_then_succeeds (action : W → outcome * W) (k : nat) (w : W)
  (v : pyval) (w_end : W) : Prop :=
  ∃ last w', fails_for action k w None = Some (last, w')
             ∧ action w' = (Returned v, w_end).

(** The action fails however often it is invoked. *)
Definition always_fails (action : W → outcome * W) (w : W) : Prop :=
  ∀ k, is_Some (fails_for action k w None).

Definition is_call (ev : event) : bool :=
  match ev with EvCall => true | EvSleep _ => false end.

(** The number of invocations recorded in a trace, and the waits in the
    order they happened. *)
Definition calls (tr : list event) : nat :=
  length (filter (λ ev, is_call ev = true) tr).

Definition sleeps (tr : list event) : list num :=
  omap (λ ev, match ev with EvSleep d => Some d | EvCall => None end) tr.

End Retry.

Arguments event : clear implicits.

(** *** [wait_for_dom_stable] *)

Section DomStable.
(** [W]: the world, the page and the clock among it.  [num]: the numbers
    ([float] or [int]) that times and intervals are given in.  The
    operations of the world are those [wait_for_dom_stable] uses:
    - [content w]: [await page.content()], the markup or the exception
      raised;
    - [clock w]: [time.time()];
    - [pause d w]: what [await asyncio.sleep(d)] lets happen;
    and those of the numbers:
    - [polls_of d]: the value of [int(30 / d)], or the exception that
      expression raises ([ZeroDivisionError] for [d = 0], ...);
    - [zero]: the number 0; [is_zero x]: [x == 0];
    - [sub], [geb]: [x - y] and [x >= y]. *)
Context {W num : Type}.
Context (content : W → (string + pyexn) * W) (clock : W → num * W)
  (pause : num → W → W).
Context (polls_of : num → Z + pyexn) (zero : num) (is_zero : num → bool)
  (sub : num → num → num) (geb : num → num → bool).

Inductive dom_event :=
| DomContent (html : string)   (* [await page.content()] returned [html] *)
| DomClock (t : num)           (* [time.time()] returned [t] *)
| DomSleep (d : num).          (* [await asyncio.sleep(d)] *)

(** The body of [for _ in range(...)], [n] being the number of iterations
    left, and the [return False] after the loop. *)
Fixpoint dom_loop (n : nat) (poll_interval stability_time : num)
  (prev_html : string) (stable_since : num) (w : W) (tr : list dom_event)
  : outcome * W * list dom_event :=
  match n with
  | O => (Returned (PyBool false), w, tr)
  | S n' =>
      let '(res, w1) := content w in
      match res with
      | inr e => (Raised e, w1, tr)
      | inl current_html =>
          let tr := tr ++ [DomContent current_html] in
          if String.eqb current_html prev_html then
            if is_zero stable_since then
              let '(t, w2) := clock w1 in
              dom_loop n' poll_interval stability_time prev_html t
                (pause poll_interval w2)
                (tr ++ [DomClock t; DomSleep poll_interval])
            else
              let '(t, w2) := clock w1 in
              if geb (sub t stable_since) stability_time then
                (Returned (PyBool true), w2, tr ++ [DomClock t])
              else
                dom_loop n' poll_interval stability_time prev_html stable_since
                  (pause poll_interval w2)
                  (tr ++ [DomClock t; DomSleep poll_interval])
          else
            dom_loop n' poll_interval stability_time current_html zero
              (pause poll_interval w1) (tr ++ [DomSleep poll_interval])
      end
  end.

(** [wait_for_dom_stable(page, poll_interval, stability_time)] *)
Definition wait_for_dom_stable (poll_interval stability_time : num) (w : W)
  : outcome * W * list dom_event :=
  match polls_of poll_interval with
  | inr e => (Raised e, w, [])
  | inl n => dom_loop (Z.to_nat n) poll_interval stability_time "" zero w []
  end.

Definition is_content (ev : dom_event) : bool :=
  match ev with DomContent _ => true | _ => false end.

Definition is_dom_sleep (ev : dom_event) : bool :=
  match ev with DomSleep _ => true | _ => false end.

(** The number of polls, and of sleeps, recorded in a trace. *)
Definition dom_polls (tr : list dom_event) : nat :=
  length (filter (λ ev, is_content ev = true) tr).

Definition dom_sleeps (tr : list dom_event) : nat :=
  length (filter (λ ev, is_dom_sleep ev = true) tr).

End DomStable.

Arguments dom_event : clear implicits.

End Wait.

(** ** automation/browser.py: how the browser draws on the proxy pool *)

Module Browser.
Import Py Proxy.

(** The values of the option dictionaries: a flag, or the dictionary
    [{"server": proxy}]. *)
Inductive option_value :=
| OptFlag (b : bool)
| OptProxy (server : string).

(** [Browser.launch], from the first assignment to [launch_options] up to
    the call of [launcher.launch] with these options as keyword arguments:
    the options that are passed, and the rotation as it is left.
    [proxy_rotation] is the attribute of that name ([None] when the browser
    was built without one; a [ProxyRotation] object is truthy), and [now] is
    the reading of the clock inside [get_next]. *)
Definition launch (headless : bool)
  (proxy_rotation : option ProxyRotation) (now : Z)
  : odict option_value * option ProxyRotation :=
  let launch_options := [("headless", OptFlag headless)] in
  match proxy_rotation with
  | None => (launch_options, None)
  | Some rotation =>
      let '(proxy, rotation) := get_next "round_robin" 0 now rotation in
      match proxy with
      | Some server =>
          if negb (String.eqb server "")
          then (od_set launch_options "proxy" (OptProxy server), Some rotation)
          else (launch_options, Some rotation)
      | None => (launch_options, Some rotation)
      end
  end.

(** The same lines in [Browser.new_page], where they follow the settings
    taken from the arguments: the entry ["proxy"] of [context_options], if
    one is set, and the rotation as it is left. *)
Definition new_page_proxy (proxy_rotation : option ProxyRotation) (now : Z)
  : option option_value * option ProxyRotation :=
  match proxy_rotation with
  | None => (None, None)
  | Some rotation =>
      let '(proxy, rotation) := get_next "round_robin" 0 now rotation in
      match proxy with
      | Some server =>
          if negb (String.eqb server "")
          then (Some (OptProxy server), Some rotation)
          else (None, Some rotation)
      | None => (None, Some rotation)
      end
  end.

(** The rotation after [launch] and then one [new_page] at each of the
    times [nows]. *)
Definition after_pages (headless : bool) (proxy_rotation : option ProxyRotation)
  (now : Z) (nows : list Z) : option ProxyRotation :=
  foldl (λ r t, (new_page_proxy r t).2)
        (launch headless proxy_rotation now).2 nows.

End Browser.

(** ** Concrete runners, pools and actions

    The inputs at which the theorems below are exercised. *)

Module Examples.
Import Py.

(** An action that returns [v], and one that raises; neither touches the
    context. *)
Definition returns (v : pyval) : Task.action_fn unit :=
  λ c w, (Returned v, c, w).

Definition raises (msg : string) : Task.action_fn unit :=
  λ c w, (Raised (ActionError msg), c, w).

(** [AutomationTask(nm, a, retry_count=rc)] followed by [depends] on the
    names in [deps]. *)
Definition task (nm : string) (a : Task.action_fn unit) (deps : list string)
  (rc : Z) : Task.AutomationTask unit :=
  {| Task.name := nm; Task.action := a; Task.depends_on := deps;
     Task.retry_count := rc; Task.timeout := 60;
     Task.skip_on_failure := false |}.

(** [D] needs [A], [A] needs [B] and a name nobody registered. *)
Definition layered_runner : Task.TaskRunner unit :=
  Task.runner_of "workflow"
    [task "D" (returns (PyInt 4)) ["A"] 0;
     task "A" (returns (PyInt 1)) ["B"; "Z"] 0;
     task "B" (returns (PyInt 2)) [] 0].

Definition layered_rank (nm : string) : nat :=
  if decide (nm = "D") then 3
  else if decide (nm = "A") then 2
  else if decide (nm = "B") then 1
  else 0.

(** [A] and [B] need each other; [C] stands alone. *)
Definition cyclic_runner : Task.TaskRunner unit :=
  Task.runner_of "workflow"
    [task "C" (returns (PyInt 1)) [] 0;
     task "A" (returns (PyInt 2)) ["B"] 0;
     task "B" (returns (PyInt 3)) ["A"] 0].

(** [A] raises on both of its attempts; [B] needs [A]. *)
Definition failing_runner : Task.TaskRunner unit :=
  Task.runner_of "workflow"
    [task "A" (raises "boom") [] 1;
     task "B" (returns (PyInt 2)) ["A"] 0].

(** [A] returns the integer 0, [B] returns 7. *)
Definition zero_runner : Task.TaskRunner unit :=
  Task.runner_of "workflow"
    [task "A" (returns (PyInt 0)) [] 0;
     task "B" (returns (PyInt 7)) [] 0].

(** A pool in which the same endpoint was listed twice. *)
Definition duplicate_pool : Proxy.ProxyRotation :=
  Proxy.new_pool ["http://10.0.0.1:8080"; "http://10.0.0.1:8080"]
    "https://httpbin.org/ip" 300 1.

Definition five_proxies : list string :=
  ["http://10.0.0.1:8080"; "http://10.0.0.2:8080"; "http://10.0.0.3:8080";
   "http://10.0.0.4:8080"; "http://10.0.0.5:8080"].

(** The probes of the first two records fail, the others succeed. *)
Definition two_fail (i : nat) : Proxy.probe :=
  if i <? 2 then Proxy.ProbeFailed 100 else Proxy.ProbeOk 20 100.

(** Two distinct endpoints, unhealthy after two failures. *)
Definition pair_pool : Proxy.ProxyRotation :=
  Proxy.new_pool ["http://10.0.0.1:8080"; "http://10.0.0.2:8080"]
    "https://httpbin.org/ip" 300 2.

(** Three records; the last two were used at the same, earlier time. *)
Definition aged_pool : Proxy.ProxyRotation :=
  {| Proxy._proxies :=
       [Proxy.touch 50 (Proxy.new_proxy "http://10.0.0.1:8080");
        Proxy.touch 30 (Proxy.new_proxy "http://10.0.0.2:8080");
        Proxy.touch 30 (Proxy.new_proxy "http://10.0.0.3:8080")];
     Proxy.check_url := "https://httpbin.org/ip";
     Proxy.check_interval := 300; Proxy.max_failures := 3;
     Proxy._index := 0; Proxy.rotations := 0; Proxy.failures := 0 |}.

(** The action of [test_succeeds_after_retry]: the world is the number of
    calls made so far; the first two calls raise. *)
Definition flaky (calls : nat) : outcome * nat :=
  if calls <? 2 then (Raised (ActionError "not ready"), S calls)
  else (Returned (PyStr "ok"), S calls).

(** The action of [test_fails_after_max_retries]. *)
Definition hopeless (w : unit) : outcome * unit :=
  (Raised (ActionError "permanent error"), w).

(** An action that raises on its first two invocations and returns from the
    third on; the world counts the invocations. *)
Definition flaky_action : Task.action_fn nat :=
  λ c w, if w <? 2 then (Raised (ActionError "not ready"), c, S w)
         else (Returned (PyStr "ok"), c, S w).

(** [AutomationTask("fetch", flaky_action, retry_count=rc)] *)
Definition flaky_task (rc : Z) : Task.AutomationTask nat :=
  {| Task.name := "fetch"; Task.action := flaky_action; Task.depends_on := [];
     Task.retry_count := rc; Task.timeout := 60;
     Task.skip_on_failure := false |}.

(** [export] needs [scrape] and [login], [scrape] needs [login]. *)
Definition chain_runner : Task.TaskRunner unit :=
  Task.runner_of "workflow"
    [task "export" (returns (PyInt 3)) ["scrape"; "login"] 0;
     task "scrape" (returns (PyStr "rows")) ["login"] 1;
     task "login" (returns (PyBool true)) [] 0].

(** The same three tasks, registered in an order that already respects the
    dependencies. *)
Definition pipeline_runner : Task.TaskRunner unit :=
  Task.runner_of "workflow"
    [task "login" (returns (PyBool true)) [] 0;
     task "scrape" (returns (PyStr "rows")) ["login"] 1;
     task "export" (returns (PyInt 3)) ["scrape"; "login"] 0].

Definition chain_rank (nm : string) : nat :=
  if decide (nm = "export") then 3
  else if decide (nm = "scrape") then 2
  else if decide (nm = "login") then 1
  else 0.

(** The pool of [test_round_robin_rotation]. *)
Definition abc_pool : Proxy.ProxyRotation :=
  Proxy.new_pool_default ["http://a:80"; "http://b:80"; "http://c:80"].

(** A page and a clock over the integers: the world is the time in
    seconds, [page t] is the markup at time [t], and a sleep of [d] seconds
    advances the time by [d].  [int(30 / d)] is the truncated quotient; the
    division by 0 raises. *)
Definition page_content (page : Z → string) (t : Z) : (string + pyexn) * Z :=
  (inl (page t), t).

Definition page_clock (t : Z) : Z * Z := (t, t).

Definition page_pause (d t : Z) : Z := (t + d)%Z.

Definition page_polls (d : Z) : Z + pyexn :=
  if (d =? 0)%Z then inr (ActionError "division by zero")
  else inl (Z.quot 30 d).

(** A page that never changes, and one that changes every second. *)
Definition still_page (t : Z) : string := "<html></html>".

Definition busy_page (t : Z) : string :=
  if Z.even t then "<p>tick</p>" else "<p>tock</p>".

End Examples.

(** * Properties *)

#[local] Set Warnings "-clear-no-such-hyp".

Module PyFacts.
Import Py.

Section Odict.
Context {V : Type}.
Implicit Types (d : odict V) (k : string) (v : V).

Lemma od_get_set_eq d k v : od_get (od_set d k v) k = Some v.
Proof.
  induction d as [|[k' v'] d IH]; simpl.
  - by rewrite decide_True.
  - destruct (decide (k' = k)) as [->|Hne]; simpl.
    + by rewrite decide_True.
    + by rewrite decide_False.
Qed.

Lemma od_get_set_ne d k k' v : k ≠ k' → od_get (od_set d k v) k' = od_get d k'.
Proof.
  intros Hne. induction d as [|[k0 v0] d IH]; simpl.
  - by rewrite decide_False.
  - destruct (decide (k0 = k)) as [->|Hne0]; simpl.
    + by rewrite !decide_False.
    + by rewrite IH.
Qed.

Lemma od_get_None d k : od_get d k = None ↔ k ∉ od_keys d.
Proof.
  unfold od_keys. induction d as [|[k' v'] d IH]; simpl.
  - split; [intros _; apply not_elem_of_nil | done].
  - rewrite not_elem_of_cons. destruct (decide (k' = k)) as [->|Hne].
    + split; [done | intros [? _]; done].
    + rewrite IH. naive_solver.
Qed.

Lemma od_get_is_Some d k : is_Some (od_get d k) ↔ k ∈ od_keys d.
Proof.
  rewrite <- not_eq_None_Some, od_get_None.
  split; [apply dec_stable | auto].
Qed.

Lemma od_get_elem_of d k v : od_get d k = Some v → (k, v) ∈ d.
Proof.
  induction d as [|[k' v'] d IH]; simpl; [done|].
  destruct (decide (k' = k)) as [->|Hne].
  - intros [= ->]. apply list_elem_of_here.
  - intros H. apply list_elem_of_further. auto.
Qed.

End Odict.
End PyFacts.

Module TaskProofs.
Import Py PyFacts Task.

Section Order.
Context {W : Type} (tasks : odict (AutomationTask W)).

(** **** Termination *)

Lemma unvisited_mono (v v' : gset string) : v ⊆ v' → unvisited tasks v' ≤ unvisited tasks v.
Proof. intros Hs. unfold unvisited. apply subseteq_size. set_solver. Qed.

Lemma unvisited_add (v : gset string) nm :
  nm ∉ v → registered tasks nm → unvisited tasks ({[nm]} ∪ v) < unvisited tasks v.
Proof.
  intros Hn Hr. unfold unvisited. apply subset_size. apply od_get_is_Some in Hr.
  assert (nm ∈ (list_to_set (od_keys tasks) : gset string))
    by by apply elem_of_list_to_set.
  set_solver.
Qed.

Lemma unvisited_empty : unvisited tasks ∅ ≤ length tasks.
Proof.
  unfold unvisited. rewrite difference_empty_L.
  unfold od_keys. rewrite <- (length_fmap fst tasks).
  generalize (tasks.*1). intros l.
  induction l as [|x l IH].
  - by rewrite list_to_set_nil, size_empty.
  - rewrite list_to_set_cons, size_union_alt, size_singleton. simpl.
    etrans; [|apply le_n_S, IH]. apply le_n_S, subseteq_size. set_solver.
Qed.

Lemma for_each_total (fuel : nat) :
  (∀ nm v o, unvisited tasks v < fuel →
     ∃ v' o', visit tasks fuel nm (v, o) = Some (v', o') ∧ v ⊆ v') →
  ∀ deps v o, unvisited tasks v < fuel →
     ∃ v' o', for_each (visit tasks fuel) deps (v, o) = Some (v', o') ∧ v ⊆ v'.
Proof.
  intros Hv deps. induction deps as [|d deps IH]; intros v o Hlt; simpl.
  - eauto.
  - destruct (Hv d v o Hlt) as (v1 & o1 & -> & Hs1).
    destruct (IH v1 o1) as (v2 & o2 & -> & Hs2).
    + pose proof (unvisited_mono _ _ Hs1). lia.
    + exists v2, o2. split; [done | set_solver].
Qed.

Lemma visit_total (fuel : nat) :
  ∀ nm v o, unvisited tasks v < fuel →
    ∃ v' o', visit tasks fuel nm (v, o) = Some (v', o') ∧ v ⊆ v'.
Proof.
  induction fuel as [|fuel IH]; intros nm v o Hlt; [lia|].
  simpl. destruct (decide (nm ∈ v)) as [Hin|Hnin]; [eauto|].
  destruct (od_get tasks nm) as [task|] eqn:Hget.
  - destruct (for_each_total fuel IH (depends_on task) ({[nm]} ∪ v) o)
      as (v' & o' & -> & Hs).
    + assert (unvisited tasks ({[nm]} ∪ v) < unvisited tasks v); [|lia].
      apply unvisited_add; [done|]. by exists task.
    + exists v', (o' ++ [nm]). split; [done | set_solver].
  - eexists _, _. split; [done | set_solver].
Qed.

Lemma resolve_order_total : is_Some (_resolve_order tasks).
Proof.
  unfold _resolve_order.
  destruct (for_each_total (S (length tasks)) (visit_total _)
              (od_keys tasks) ∅ []) as (v & o & -> & _).
  - pose proof unvisited_empty. lia.
  - by eexists.
Qed.

(** **** The traversal is the post-order traversal *)

Lemma for_each_post_order (fuel : nat) :
  ∀ names visited order visited' order',
    for_each (visit tasks fuel) names (visited, order) = Some (visited', order') →
    ∃ l, order' = order ++ l ∧ post_order tasks visited names visited' l.
Proof.
  induction fuel as [|fuel IH]; intros names.
  - destruct names as [|nm names]; intros visited order visited' order' H.
    + injection H as <- <-. exists []. split; [by rewrite app_nil_r | constructor].
    + done.
  - induction names as [|nm names IHn]; intros visited order visited' order' H.
    + injection H as <- <-. exists []. split; [by rewrite app_nil_r | constructor].
    + cbn [for_each visit] in H.
      destruct (decide (nm ∈ visited)) as [Hin|Hnin].
      { destruct (IHn _ _ _ _ H) as (l & -> & Hl). exists l.
        split; [done | by apply post_skip]. }
      destruct (od_get tasks nm) as [task|] eqn:Hget.
      * destruct (for_each (visit tasks fuel) (depends_on task)
                    ({[nm]} ∪ visited, order)) as [[v1 o1]|] eqn:Hdeps; [|done].
        destruct (IH _ _ _ _ _ Hdeps) as (l1 & -> & Hl1).
        destruct (IHn _ _ _ _ H) as (l2 & -> & Hl2).
        exists (l1 ++ [nm] ++ l2). split; [by rewrite <- !app_assoc|].
        by eapply post_task.
      * destruct (IHn _ _ _ _ H) as (l & -> & Hl). exists l.
        split; [done | by apply post_missing].
Qed.

Lemma resolve_order_post_order order :
  _resolve_order tasks = Some order →
  ∃ visited, post_order tasks ∅ (od_keys tasks) visited order.
Proof.
  unfold _resolve_order. intros H.
  destruct (for_each _ _ _) as [[v o]|] eqn:Hf; [|done]. injection H as <-.
  destruct (for_each_post_order _ _ _ _ _ _ Hf) as (l & -> & Hl). by exists v.
Qed.

(** The traversal has one result only. *)
Lemma post_order_unique names :
  ∀ visited v1 l1 v2 l2,
    post_order tasks visited names v1 l1 →
    post_order tasks visited names v2 l2 → v1 = v2 ∧ l1 = l2.
Proof.
  intros visited v1 l1 v2 l2 H1. revert v2 l2.
  induction H1 as [V|V nm ns V' l Hin H1 IH|V nm ns V' l Hnin Hget H1 IH
                  |V nm t ns V1 l1 V2 l2 Hnin Hget Hd IHd Hr IHr];
    intros v2 l2' H2; inversion H2; subst; try done; try congruence.
  - by apply IH.
  - by apply IH.
  - assert (t = task) as -> by congruence.
    match goal with
    | Ha : post_order _ _ (depends_on task) _ _ |- _ =>
        destruct (IHd _ _ Ha) as [<- <-]
    end.
    match goal with
    | Hb : post_order _ V1 ns _ _ |- _ => destruct (IHr _ _ Hb) as [<- <-]
    end.
    done.
Qed.

(** **** What the traversal maintains *)

Lemma grows_refl st : grows st st.
Proof. split; auto. Qed.

Lemma grows_trans st1 st2 st3 : 
  (∀ n, n ∈ st1.2 → n ∈ st1.1) →
  grows st1 st2 → grows st2 st3 → grows st1 st3.
Proof.
  intros Ho [Hs1 Hn1] [Hs2 Hn2]. split; [set_solver|].
  intros x Hx. destruct (Hn2 x Hx) as [H|H]; [auto|].
  right. set_solver.
Qed.

Lemma loop_ok_of_visit_ok fuel : visit_ok tasks fuel → loop_ok tasks fuel.
Proof.
  intros Hv deps. induction deps as [|d deps IH]; intros st st' anc Hf Hinv Hanc.
  - simpl in Hf. injection Hf as <-.
    split; [done|]. split; [apply grows_refl|]. intros d Hd. by apply elem_of_nil in Hd.
  - simpl in Hf. destruct (visit tasks fuel d st) as [st1|] eqn:Hv1; [|done].
    destruct (Hv d st st1 anc Hv1 Hinv) as (Hinv1 & Hg1 & Hd1).
    { intros a Ha. apply Hanc; [apply list_elem_of_here | done]. }
    destruct (IH st1 st' anc Hf Hinv1) as (Hinv2 & Hg2 & Hds).
    { intros d' a Hd' Ha. apply Hanc; [by apply list_elem_of_further | done]. }
    split; [done|]. split.
    + eapply grows_trans; [|done..]. intros n Hn. by apply Hinv.
    + intros d' Hd'. apply elem_of_cons in Hd' as [->|Hd']; [|auto].
      by apply Hg2.
Qed.

Lemma visit_ok_S fuel : loop_ok tasks fuel → visit_ok tasks (S fuel).
Proof.
  intros Hl nm [v o] st' anc Hv Hinv Hanc. simpl in Hv.
  destruct (decide (nm ∈ v)) as [Hin|Hnin].
  { injection Hv as <-. split; [done|]. split; [apply grows_refl | done]. }
  destruct Hinv as (Hnd & Hsub & Hdone & Htopo). simpl in *.
  destruct (od_get tasks nm) as [task|] eqn:Hget.
  - destruct (for_each (visit tasks fuel) (depends_on task) ({[nm]} ∪ v, o))
      as [[v2 o2]|] eqn:Hf; [|done].
    injection Hv as <-.
    destruct (Hl _ _ _ ({[nm]} ∪ anc) Hf) as (Hinv2 & [Hs2 Hn2] & Hds).
    { split; [done|]. simpl. split; [|split].
      - intros n Hn. destruct (Hsub n Hn). split; [set_solver | done].
      - intros n Hn Hr. apply elem_of_union in Hn as [Hn|Hn]; [set_solver|].
        destruct (Hdone n Hn Hr); [auto | set_solver].
      - done. }
    { intros d a Hd Ha. assert (dep_edge tasks nm d) by by exists task.
      apply elem_of_union in Ha as [Ha|Ha].
      - apply elem_of_singleton in Ha as ->. by apply tc_once.
      - eapply tc_r; [by apply Hanc | done]. }
    destruct Hinv2 as (Hnd2 & Hsub2 & Hdone2 & Htopo2). simpl in *.
    assert (nm ∉ o2) as Hfresh.
    { intros Hx. destruct (Hn2 nm Hx) as [Ho|Hv]; [|set_solver].
      by destruct (Hsub nm Ho). }
    split; [|split].
    + split; [|split; [|split]]; simpl.
      * apply NoDup_app. split; [done|]. split; [|apply NoDup_singleton].
        intros x Hx Hx'. by apply list_elem_of_singleton in Hx' as ->.
      * intros n Hn. apply elem_of_app in Hn as [Hn|Hn]; [by apply Hsub2|].
        apply list_elem_of_singleton in Hn as ->.
        split; [set_solver | by exists task].
      * intros n Hn Hr. rewrite elem_of_app, list_elem_of_singleton.
        destruct (Hdone2 n Hn Hr) as [?|Ha]; [auto|].
        apply elem_of_union in Ha as [Ha|Ha]; [|auto].
        apply elem_of_singleton in Ha. auto.
      * intros Hac j n d Hj He Hr.
        apply lookup_app_Some in Hj as [Hj|[Hlen Hj]].
        -- destruct (Htopo2 Hac j n d Hj He Hr) as (i & Hi & Hid).
           exists i. split; [done|]. by apply lookup_app_l_Some.
        -- apply list_lookup_singleton_Some in Hj as [Hj0 <-].
           destruct He as (task' & Hget' & Hd). rewrite Hget in Hget'.
           injection Hget' as <-.
           assert (d ∈ o2) as Hdo.
           { destruct (Hdone2 d (Hds d Hd) Hr) as [?|Ha]; [done|].
             exfalso. assert (dep_edge tasks nm d) by by exists task.
             apply elem_of_union in Ha as [Ha|Ha].
             - apply elem_of_singleton in Ha as ->.
               apply (Hac nm). by apply tc_once.
             - apply (Hac d). eapply tc_r; [by apply Hanc | done]. }
           apply list_elem_of_lookup in Hdo as [i Hi].
           exists i. split; [|by apply lookup_app_l_Some].
           apply lookup_lt_Some in Hi. lia.
    + split; simpl; [set_solver|].
      intros x Hx. apply elem_of_app in Hx as [Hx|Hx].
      * destruct (Hn2 x Hx); [auto | right; set_solver].
      * apply list_elem_of_singleton in Hx as ->. auto.
    + simpl. set_solver.
  - injection Hv as <-. split; [|split]; simpl; [|split; simpl; [set_solver | auto]|set_solver].
    split; [done|]. simpl. split; [|split; [|done]].
    + intros n Hn. destruct (Hsub n Hn). split; [set_solver | done].
    + intros n Hn Hr. apply elem_of_union in Hn as [Hn|Hn]; [|auto].
      apply elem_of_singleton in Hn as ->. destruct Hr as [t Ht]. congruence.
Qed.

Lemma visit_ok_all fuel : visit_ok tasks fuel.
Proof.
  induction fuel as [|fuel IH]; [by intros nm st st' anc Hv|].
  by apply visit_ok_S, loop_ok_of_visit_ok.
Qed.

Lemma resolve_order_inv order :
  _resolve_order tasks = Some order →
  NoDup order
  ∧ (∀ n, n ∈ order ↔ registered tasks n)
  ∧ (acyclic tasks →
     ∀ j n d, order !! j = Some n → dep_edge tasks n d → registered tasks d →
       ∃ i, i < j ∧ order !! i = Some d).
Proof.
  unfold _resolve_order. intros Hr.
  destruct (for_each _ _ _) as [[v o]|] eqn:Hf; [|done].
  injection Hr as <-.
  destruct (loop_ok_of_visit_ok _ (visit_ok_all _) _ _ _ ∅ Hf)
    as ((Hnd & Hsub & Hdone & Htopo) & _ & Hkeys); simpl in *.
  { split; [apply NoDup_nil_2|]. simpl. split; [|split].
    - intros n Hn. by apply elem_of_nil in Hn.
    - intros n Hn. set_solver.
    - intros _ j n d Hj. done. }
  { intros d a _ Ha. set_solver. }
  split; [done|]. split; [|done].
  intros n. split; [by apply Hsub|].
  intros Hr. destruct (Hdone n) as [?|?]; [|done|done|set_solver].
  apply Hkeys. by apply od_get_is_Some.
Qed.

Lemma before_trans order a b c :
  NoDup order → before order a b → before order b c → before order a c.
Proof.
  intros Hnd (i1 & j1 & H1 & Ha & Hb) (i2 & j2 & H2 & Hb' & Hc).
  assert (j1 = i2) as -> by by eapply NoDup_lookup.
  exists i1, j2. split; [lia | done].
Qed.

Lemma deps_before order :
  _resolve_order tasks = Some order → acyclic tasks →
  ∀ n d, tc (dep_edge tasks) n d → registered tasks d → before order d n.
Proof.
  intros Hr Hac. destruct (resolve_order_inv order Hr) as (Hnd & Hreg & Htopo).
  assert (∀ n d, dep_edge tasks n d → registered tasks d → before order d n)
    as Hone.
  { intros n d He Hd. assert (registered tasks n) as Hn.
    { destruct He as (t & Ht & _). by exists t. }
    apply Hreg, list_elem_of_lookup in Hn as [j Hj].
    destruct (Htopo Hac j n d Hj He Hd) as (i & Hi & Hid).
    by exists i, j. }
  intros n d Htc. induction Htc as [n d He|n x d He Htc IH]; intros Hd.
  - by apply Hone.
  - eapply before_trans; [done | by apply IH |].
    apply Hone; [done|]. 
    inversion Htc as [? ? (t & Ht & _)|? ? ? (t & Ht & _)]; by exists t.
Qed.

End Order.


Lemma status_eqb_eq a b : status_eqb a b = true ↔ a = b.
Proof. destruct a, b; simpl; split; congruence. Qed.

Section Run.
Context {W : Type}.
Implicit Types (task t : AutomationTask W) (s : env W)
  (results : odict TaskResult) (tasks : odict (AutomationTask W)).

(** **** Registration *)

Lemma runner_of_snoc nm (ts : list (AutomationTask W)) t :
  runner_of nm (ts ++ [t]) = add_task (runner_of nm ts) t.
Proof. unfold runner_of. by rewrite foldl_app. Qed.

Lemma runner_of_results nm (ts : list (AutomationTask W)) :
  _results (runner_of nm ts) = [].
Proof.
  induction ts as [|t ts IH] using rev_ind; [done|].
  by rewrite runner_of_snoc.
Qed.

Lemma runner_of_names nm (ts : list (AutomationTask W)) k t :
  od_get (_tasks (runner_of nm ts)) k = Some t → name t = k.
Proof.
  revert k t. induction ts as [|t0 ts IH] using rev_ind; intros k t; [done|].
  rewrite runner_of_snoc. simpl.
  destruct (decide (name t0 = k)) as [<-|Hne].
  - rewrite od_get_set_eq. by intros [= <-].
  - rewrite od_get_set_ne by done. apply IH.
Qed.

(** **** [_dependencies_met] *)

Lemma dependencies_met_true results task :
  _dependencies_met results task = true
  ↔ ∀ d, d ∈ depends_on task → completed_in results d.
Proof.
  unfold _dependencies_met. induction (depends_on task) as [|d ds IH]; simpl.
  - split; [|done]. intros _ d Hd. by apply elem_of_nil in Hd.
  - destruct (od_get results d) as [r|] eqn:Hr.
    + destruct (status_eqb (status r) COMPLETED) eqn:Hs; simpl.
      * rewrite IH. apply status_eqb_eq in Hs. split.
        -- intros H d' Hd'. apply elem_of_cons in Hd' as [->|Hd']; [|auto].
           by exists r.
        -- intros H d' Hd'. apply H. by apply list_elem_of_further.
      * split; [done|]. intros H.
        destruct (H d) as (r' & Hr' & Hs'); [apply list_elem_of_here|].
        rewrite Hr in Hr'. injection Hr' as <-.
        apply status_eqb_eq in Hs'. congruence.
    + split; [done|]. intros H.
      destruct (H d) as (r' & Hr' & _); [apply list_elem_of_here|]. congruence.
Qed.

(** **** [_execute_task] *)

Lemma attempt_loop_exit task (attempts : list Z) :
  ∀ s ex s', attempt_loop task attempts None s = (ex, s') →
    (ex = TaskRaise (UnboundLocalError "e")
     ∨ ∃ v, ex = TaskReturn {| task_name := name task; status := COMPLETED;
                               result_data := v; error := None |})
    ∧ ∃ tr, trace s' = trace s ++ tr ∧ task_events task tr.
Proof.
  induction attempts as [|a rest IH]; intros s ex s' H; simpl in H.
  - injection H as <- <-. split; [auto|]. exists [].
    split; [by rewrite app_nil_r|]. intros ev Hev. by apply elem_of_nil in Hev.
  - destruct (action task (context s) (world s)) as [[[v|e] c'] w'].
    + injection H as <- <-. split; [eauto|]. eexists. split; [done|].
      intros ev Hev. apply list_elem_of_singleton in Hev. auto.
    + apply IH in H as [Hex (tr & Htr & Hev)]. split; [done|].
      destruct (a <? retry_count task)%Z; simpl in Htr.
      * exists (EvInvoke (name task) :: EvSleep 1 :: tr).
        split; [by rewrite Htr, <- !app_assoc|].
        intros ev Hin. rewrite !elem_of_cons in Hin. naive_solver.
      * exists (EvInvoke (name task) :: tr).
        split; [by rewrite Htr, <- !app_assoc|].
        intros ev Hin. rewrite !elem_of_cons in Hin. naive_solver.
Qed.

Lemma execute_task_exit task s ex s' :
  _execute_task task s = (ex, s') →
  (ex = TaskRaise (UnboundLocalError "e")
   ∨ ∃ v, ex = TaskReturn {| task_name := name task; status := COMPLETED;
                             result_data := v; error := None |})
  ∧ ∃ tr, trace s' = trace s ++ tr ∧ task_events task tr.
Proof. apply attempt_loop_exit. Qed.

(** **** The body of the loop *)

(** The three ways one turn of the loop can go. *)
Lemma loop_body_cases (k : string) task results s :
  (_dependencies_met results task = false
   ∧ loop_body k task results s
     = (None, od_set results k (skipped_result k), s))
  ∨ (_dependencies_met results task = true
     ∧ ∃ s1 tr, trace s1 = trace s ++ tr ∧ task_events task tr
       ∧ ((_execute_task task s = (TaskRaise (UnboundLocalError "e"), s1)
           ∧ loop_body k task results s
             = (Some (UnboundLocalError "e"), results, s1))
          ∨ ∃ v s2,
              _execute_task task s = (TaskReturn (completed_result task v), s1)
              ∧ loop_body k task results s
                = (None, od_set results k (completed_result task v), s2)
              ∧ trace s2 = trace s1 ∧ world s2 = world s1
              ∧ context s2 = if truthy v then <[k := v]> (context s1)
                             else context s1)).
Proof.
  unfold loop_body. destruct (_dependencies_met results task); simpl; [right | by left].
  split; [done|].
  destruct (_execute_task task s) as [ex s1] eqn:Hex.
  destruct (execute_task_exit _ _ _ _ Hex) as [Hexit (tr & Htr & Hev)].
  exists s1, tr. split; [done|]. split; [done|].
  destruct Hexit as [->|[v ->]]; [by left | right].
  simpl. destruct (truthy v) eqn:Hv; eexists v, _; by rewrite ?Hv.
Qed.

(** **** The loop of [execute] *)

Section Loop.
Context (tasks : odict (AutomationTask W)).
Hypothesis tasks_names : ∀ k t, od_get tasks k = Some t → name t = k.

Lemma completed_in_set results k r d :
  od_get results k = None → completed_in results d →
  completed_in (od_set results k r) d.
Proof.
  intros Hk (r' & Hr' & Hs). exists r'. split; [|done].
  rewrite od_get_set_ne; [done|]. intros ->. congruence.
Qed.

Lemma closed_reach results a b :
  closed tasks results → completed_in results a → rtc (dep_edge tasks) a b →
  completed_in results b.
Proof.
  intros Hc Ha Hab. induction Hab as [|a x b (t & Ht & Hx) _ IH]; [done|].
  apply IH. destruct Ha as (r & Hr & Hs). by eapply Hc.
Qed.

Lemma cycle_not_runnable nm : tc (dep_edge tasks) nm nm → ¬ runnable tasks nm.
Proof.
  intros Hcyc (results & t & Hc & _ & Hnone & Ht & Hmet).
  assert (∃ d, dep_edge tasks nm d ∧ rtc (dep_edge tasks) d nm)
    as (d & (t' & Ht' & Hd) & Hreach).
  { inversion Hcyc as [? ? He|? y ? He Htc]; subst.
    - exists nm. split; [done | apply rtc_refl].
    - exists y. split; [done | by apply tc_rtc]. }
  rewrite Ht in Ht'. injection Ht' as <-.
  assert (completed_in results nm) as (r & Hr & _); [|congruence].
  eapply closed_reach; [done | | done].
  by eapply dependencies_met_true.
Qed.

Lemma missing_dep_not_runnable nm t d :
  od_get tasks nm = Some t → d ∈ depends_on t → od_get tasks d = None →
  ¬ runnable tasks nm.
Proof.
  intros Ht Hd Hnone (results & t' & _ & Hk & _ & Ht' & Hmet).
  rewrite Ht in Ht'. injection Ht' as <-.
  destruct (proj1 (dependencies_met_true _ _) Hmet d Hd) as (r & Hr & _).
  destruct (Hk d) as [x Hx]; [by exists r | congruence].
Qed.

Lemma execute_loop_inv (rest : list string) :
  ∀ results s out results' s',
    loop_inv tasks rest results s →
    execute_loop tasks rest results s = (out, results', s') →
    (∀ n, EvInvoke n ∈ trace s' →
       EvInvoke n ∈ trace s
       ∨ (runnable tasks n ∧ deps_completed tasks results' n))
    ∧ (∀ n, completed_in results' n → completed_in results n ∨ runnable tasks n)
    ∧ (∀ e, out = Some e → e = UnboundLocalError "e")
    ∧ (∀ m r, od_get results m = Some r → od_get results' m = Some r)
    ∧ (out = None →
       loop_inv tasks [] results' s'
       ∧ (∀ k, k ∈ rest → is_Some (od_get results' k))).
Proof.
  induction rest as [|k rest IH];
    intros results s out results' s' Hinv Hrun; simpl in Hrun.
  { injection Hrun as <- <- <-. split; [auto|]. split; [auto|].
    split; [done|]. split; [done|].
    intros _. split; [done|]. intros k Hk. by apply elem_of_nil in Hk. }
  destruct Hinv as (Hnd & Hrest & Hcl & Hkeys & Hst & Htr).
  apply NoDup_cons in Hnd as [Hk_rest Hnd].
  destruct (Hrest k) as [Hk_none [t Ht]]; [apply list_elem_of_here|].
  rewrite Ht in Hrun.
  assert (∀ r, (status r = COMPLETED → ∀ d, d ∈ depends_on t → completed_in results d) →
            (status r = COMPLETED ∨ r = skipped_result k) →
            ∀ s1, (∀ n, EvInvoke n ∈ trace s1 → 
                        EvInvoke n ∈ trace s ∨ (n = k ∧ status r = COMPLETED)) →
            loop_inv tasks rest (od_set results k r) s1) as Hstep.
  { intros r Hdeps Hr s1 Hs1. split; [done|]. split; [|split; [|split; [|split]]].
    - intros k' Hk'. destruct (Hrest k') as [Hn Hreg]; [by apply list_elem_of_further|].
      split; [|done]. rewrite od_get_set_ne; [done|]. by intros ->.
    - intros m r' t' d Hm Hs' Ht' Hd. apply completed_in_set; [done|].
      destruct (decide (k = m)) as [<-|Hne].
      + rewrite od_get_set_eq in Hm. injection Hm as <-.
        rewrite Ht in Ht'. injection Ht' as <-. by apply Hdeps.
      + rewrite od_get_set_ne in Hm by done. by eapply Hcl.
    - intros m Hm. destruct (decide (k = m)) as [<-|Hne]; [by exists t|].
      rewrite od_get_set_ne in Hm by done. by apply Hkeys.
    - intros n r' Hn. destruct (decide (k = n)) as [<-|Hne].
      + rewrite od_get_set_eq in Hn. by injection Hn as <-.
      + rewrite od_get_set_ne in Hn by done. by apply Hst.
    - intros n Hn. destruct (Hs1 n Hn) as [Hold|[-> Hc]].
      + apply completed_in_set; [done | by apply Htr].
      + exists r. by rewrite od_get_set_eq. }
  assert (∀ r m r', od_get results m = Some r' →
            od_get (od_set results k r) m = Some r') as Hkeep.
  { intros r m r' Hm. rewrite od_get_set_ne; [done|]. intros ->. congruence. }
  destruct (loop_body_cases k t results s)
    as [[Hmet Hbody]|(Hmet & s1 & tr & Htr1 & Hev & Hbody)].
  - rewrite Hbody in Hrun.
    destruct (IH _ _ _ _ _ (Hstep (skipped_result k) ltac:(done) ltac:(by right)
                              s ltac:(auto)) Hrun)
      as (Hev2 & Hcomp & Hout & Hmono & Hfin).
    split; [done|]. split; [|split; [done|split; [by eauto|]]].
    { intros n Hn. destruct (Hcomp n Hn) as [(r & Hr & Hs)|?]; [|auto].
      destruct (decide (k = n)) as [<-|Hne].
      - rewrite od_get_set_eq in Hr. by injection Hr as <-.
      - rewrite od_get_set_ne in Hr by done. left. by exists r. }
    intros ->. destruct (Hfin eq_refl) as [Hinv' Hall]. split; [done|].
    intros k' Hk'. apply elem_of_cons in Hk' as [->|Hk']; [|auto].
    exists (skipped_result k). apply Hmono, od_get_set_eq.
  - assert (runnable tasks k) as Hrunnable by by exists results, t.
    assert (∀ n, EvInvoke n ∈ trace s1 → EvInvoke n ∈ trace s ∨ n = k) as Hnew.
    { intros n Hn. rewrite Htr1 in Hn. apply elem_of_app in Hn as [Hn|Hn]; [auto|].
      destruct (Hev _ Hn) as [Heq|Heq]; [|done].
      injection Heq as ->. right. by apply tasks_names. }
    assert (deps_completed tasks results k) as Hdeps.
    { intros t' d Ht' Hd. rewrite Ht in Ht'. injection Ht' as <-.
      by apply (proj1 (dependencies_met_true results t) Hmet). }
    destruct Hbody as [[_ Hbody]|(v & s2 & _ & Hbody & Htr2 & _)];
      rewrite Hbody in Hrun.
    + injection Hrun as <- <- <-. split; [|split; [auto|split; [|done]]].
      * intros n Hn. destruct (Hnew n Hn) as [?| ->]; auto.
      * by intros e [= <-].
    + assert (loop_inv tasks rest (od_set results k (completed_result t v)) s2) as Hinv2.
      { apply Hstep; [|by left|].
        - intros _. by apply dependencies_met_true.
        - intros n. rewrite Htr2. intros Hn. destruct (Hnew n Hn); auto. }
      destruct (IH _ _ _ _ _ Hinv2 Hrun) as (Hev2 & Hcomp & Hout & Hmono & Hfin).
      split; [|split; [|split; [done|split; [by eauto|]]]].
      * intros n Hn. destruct (Hev2 n Hn) as [Hn2|?]; [|auto].
        rewrite Htr2 in Hn2. destruct (Hnew n Hn2) as [?| ->]; [auto|].
        right. split; [done|]. intros t' d Ht' Hd.
        destruct (Hdeps t' d Ht' Hd) as (r & Hr & Hs).
        exists r. split; [|done]. by eapply Hmono, Hkeep.
      * intros n Hn. destruct (Hcomp n Hn) as [(r & Hr & Hs)|?]; [|auto].
        destruct (decide (k = n)) as [<-|Hne]; [auto|].
        rewrite od_get_set_ne in Hr by done. left. by exists r.
      * intros ->. destruct (Hfin eq_refl) as [Hinv' Hall]. split; [done|].
        intros k' Hk'. apply elem_of_cons in Hk' as [->|Hk']; [|auto].
        eexists. apply Hmono, od_get_set_eq.
Qed.

End Loop.
End Run.


Section Main.
Context {W : Type}.
Implicit Types (task t : AutomationTask W) (s : env W)
  (results : odict TaskResult) (tasks : odict (AutomationTask W)).

(** A rank that decreases along every dependency edge rules out cycles. *)
Lemma acyclic_by_rank tasks (rank : string → nat) :
  (∀ n d, dep_edge tasks n d → rank d < rank n) → acyclic tasks.
Proof.
  intros Hrank.
  assert (∀ n d, tc (dep_edge tasks) n d → rank d < rank n) as Htc.
  { intros n d H. induction H as [n d He|n x d He _ IH].
    - by apply Hrank.
    - specialize (Hrank _ _ He). lia. }
  intros n Hn. specialize (Htc _ _ Hn). lia.
Qed.

(** What holds of every run on a runner that was just built. *)
Lemma fresh_run nm (ts : list (AutomationTask W)) ctx0 w :
  let tasks := _tasks (runner_of nm ts) in
  let run := execute (runner_of nm ts) ctx0 w in
  (∀ n, EvInvoke n ∈ trace (run_env run) →
     runnable tasks n ∧ deps_completed tasks (run_results run) n)
  ∧ (∀ n, completed_in (run_results run) n → runnable tasks n)
  ∧ (∀ e, run_exit run = Aborted e → e = UnboundLocalError "e")
  ∧ (∀ wr, run_exit run = Finished wr →
       task_results wr = od_values (run_results run)
       ∧ loop_inv tasks [] (run_results run) (run_env run)
       ∧ ∀ k, registered tasks k → is_Some (od_get (run_results run) k)).
Proof.
  intros tasks run. subst run. unfold execute. fold tasks.
  destruct (resolve_order_total tasks) as [order Horder]. rewrite Horder.
  destruct (resolve_order_inv tasks order Horder) as (Hnd & Hreg & _).
  rewrite runner_of_results.
  set (s0 := {| context := default ∅ ctx0; world := w; trace := [] |}).
  destruct (execute_loop tasks order [] s0) as [[out results] s] eqn:Hloop.
  destruct (execute_loop_inv tasks (runner_of_names nm ts) order [] s0
              out results s) as (Hev & Hcomp & Hout & _ & Hfin); [|done|].
  { split; [done|]. split; [|split; [|split; [|split]]].
    - intros k Hk. split; [done | by apply Hreg].
    - intros m r t d Hm. done.
    - intros m [r Hr]. done.
    - intros n r Hr. done.
    - intros n Hn. by apply elem_of_nil in Hn. }
  assert (∀ n, EvInvoke n ∈ trace s →
            runnable tasks n ∧ deps_completed tasks results n) as Hev'.
  { intros n Hn. destruct (Hev n Hn) as [Hn0|?]; [|done].
    by apply elem_of_nil in Hn0. }
  assert (∀ n, completed_in results n → runnable tasks n) as Hcomp'.
  { intros n Hn. destruct (Hcomp n Hn) as [(r & Hr & _)|?]; done. }
  destruct out as [e|]; simpl.
  - split; [done|]. split; [done|]. split; [|done].
    intros e' [= <-]. by apply Hout.
  - split; [done|]. split; [done|]. split; [done|].
    intros wr [= <-]. simpl. split; [done|].
    destruct (Hfin eq_refl) as [Hinv Hall]. split; [done|].
    intros k Hk. by apply Hall, Hreg.
Qed.

Lemma od_get_values {V} (d : odict V) k v : od_get d k = Some v → v ∈ od_values d.
Proof.
  intros H. apply od_get_elem_of in H. unfold od_values.
  apply list_elem_of_fmap. by exists (k, v).
Qed.

(** C1.  On an acyclic dependency graph [_resolve_order] returns an order:
    the traversal terminates.  The order is the one, and the only one, that
    the depth-first post-order traversal over the names in registration
    order appends.  It lists exactly the registered names, each of them
    once, so a name that is depended on but was never registered is left out
    without any error.  And every registered task that a task reaches along
    one or more dependency edges stands before that task. *)
Theorem resolve_order_topological tasks :
  acyclic tasks →
  ∃ order, _resolve_order tasks = Some order
    ∧ (∃ visited, post_order tasks ∅ (od_keys tasks) visited order)
    ∧ (∀ visited order', post_order tasks ∅ (od_keys tasks) visited order' →
         order' = order)
    ∧ NoDup order
    ∧ (∀ n, n ∈ order ↔ registered tasks n)
    ∧ (∀ n d, tc (dep_edge tasks) n d → registered tasks d → before order d n).
Proof.
  intros Hac. destruct (resolve_order_total tasks) as [order Horder].
  destruct (resolve_order_inv tasks order Horder) as (Hnd & Hreg & _).
  destruct (resolve_order_post_order tasks order Horder) as [visited Hpost].
  exists order. split; [done|]. split; [by exists visited|]. split.
  { intros v' o' Hpost'.
    by destruct (post_order_unique tasks _ _ _ _ _ _ Hpost' Hpost). }
  split; [done|]. split; [done|]. by apply deps_before.
Qed.



(** What [_execute_task] does when every attempt fails: it makes its
    [retry_count + 1] attempts, sleeps one second between them, and then
    raises [UnboundLocalError] where it means to build the failed result. *)
Lemma attempt_loop_exhausted task (m : nat) :
  always_raises (action task) →
  ∀ (a : nat) s,
    Z.of_nat (a + m) = (retry_count task + 1)%Z →
    ∃ s', attempt_loop task (Z.of_nat <$> seq a m) None s
          = (TaskRaise (UnboundLocalError "e"), s')
      ∧ trace s' = trace s ++ match m with
                              | O => []
                              | S k => retry_trace (name task) k
                              end.
Proof.
  intros Hr. induction m as [|m IH]; intros a s Ha.
  - exists s. split; [done|]. by rewrite app_nil_r.
  - cbn [seq fmap list_fmap attempt_loop].
    destruct (Hr (context s) (world s)) as (e & c' & w' & ->).
    destruct (Z.ltb_spec (Z.of_nat a) (retry_count task)) as [Hlt|Hge].
    + destruct m as [|m]; [lia|].
      destruct (IH (S a) (sleep 1 {| context := c'; world := w';
                          trace := trace s ++ [EvInvoke (name task)] |}))
        as (s' & -> & Htr); [lia|].
      exists s'. split; [done|]. rewrite Htr. simpl.
      unfold retry_trace. simpl. by rewrite <- !app_assoc.
    + destruct m as [|m]; [|lia].
      eexists. split; [done|]. done.
Qed.

Lemma execute_task_exhausted task s :
  always_raises (action task) →
  (0 ≤ retry_count task)%Z →
  ∃ s', _execute_task task s = (TaskRaise (UnboundLocalError "e"), s')
    ∧ trace s' = trace s ++ retry_trace (name task) (Z.to_nat (retry_count task)).
Proof.
  intros Hr Hrc. unfold _execute_task, range.
  destruct (attempt_loop_exhausted task (Z.to_nat (retry_count task + 1)) Hr 0 s)
    as (s' & Hs' & Htr); [lia|].
  exists s'. split; [done|]. rewrite Htr.
  replace (Z.to_nat (retry_count task + 1)) with (S (Z.to_nat (retry_count task)))
    by lia. done.
Qed.

Lemma execute_task_never_failed task s r s' :
  _execute_task task s = (TaskReturn r, s') → status r = COMPLETED.
Proof.
  intros H. destruct (execute_task_exit _ _ _ _ H) as [[Hex|[v Hex]] _]; [done|].
  by injection Hex as ->.
Qed.

(** C4.  A task that fails all its attempts, as the code runs it.  When the
    loop of [execute] reaches a task whose dependencies are met and whose
    action raises (or runs out of time) on every invocation, the action is
    invoked [retry_count + 1] times with a sleep of one second between the
    attempts.  Then [_execute_task] reads the variable [e], which leaving
    the [except] clause has unbound: it raises [UnboundLocalError] where it
    means to build the failed result.  The exception leaves the loop with
    the result set unchanged, so no failed result is recorded, no later
    task is processed and [execute] returns no [WorkflowResult]. *)
Theorem exhausted_retries_raise (task_name : string) task results s :
  _dependencies_met results task = true →
  always_raises (action task) →
  (0 ≤ retry_count task)%Z →
  ∃ s', _execute_task task s = (TaskRaise (UnboundLocalError "e"), s')
    ∧ trace s' = trace s
                 ++ retry_trace (name task) (Z.to_nat (retry_count task))
    ∧ loop_body task_name task results s
      = (Some (UnboundLocalError "e"), results, s')
    ∧ ∀ tasks rest, od_get tasks task_name = Some task →
        execute_loop tasks (task_name :: rest) results s
        = (Some (UnboundLocalError "e"), results, s').
Proof.
  intros Hmet Hr Hrc.
  destruct (execute_task_exhausted task s Hr Hrc) as (s' & Hex & Htr).
  exists s'. split; [done|]. split; [done|].
  assert (loop_body task_name task results s
          = (Some (UnboundLocalError "e"), results, s')) as Hbody.
  { unfold loop_body. by rewrite Hmet, Hex. }
  split; [done|]. intros tasks rest Ht. simpl. by rewrite Ht, Hbody.
Qed.

(** C10, as the code has it.  One turn of the loop of [execute]: when the
    dependencies are met and [_execute_task] returns a result (its status is
    then completed), the result is recorded, and the context is the one the
    action left with the task's name mapped to the value if the value is
    truthy, and exactly the one the action left if the value is falsy
    ([None], [False], 0, an empty string or list).  When the dependencies
    are not met the turn changes neither context nor trace. *)
Theorem context_gets_truthy_results (task_name : string) task results s :
  (_dependencies_met results task = true →
   ∀ r s1, _execute_task task s = (TaskReturn r, s1) →
     status r = COMPLETED
     ∧ ∃ s2, loop_body task_name task results s
             = (None, od_set results task_name r, s2)
         ∧ trace s2 = trace s1 ∧ world s2 = world s1
         ∧ (truthy (result_data r) = true →
              context s2 = <[task_name := result_data r]> (context s1)
              ∧ context s2 !! task_name = Some (result_data r))
         ∧ (truthy (result_data r) = false → context s2 = context s1))
  ∧ (_dependencies_met results task = false →
     ∃ results', loop_body task_name task results s = (None, results', s)).
Proof.
  split.
  - intros Hmet r s1 Hex. pose proof (execute_task_never_failed _ _ _ _ Hex) as Hst.
    split; [done|]. unfold loop_body. rewrite Hmet, Hex, Hst. simpl.
    destruct (truthy (result_data r)) eqn:Hv; eexists; (split; [done|]); simpl.
    + split; [done|]. split; [done|]. split; [|done].
      intros _. split; [done|]. by rewrite lookup_insert_eq.
    + by repeat split.
  - intros Hmet. unfold loop_body. rewrite Hmet. by eexists.
Qed.

End Main.

(** **** The theorems at work on concrete runners *)

Import Examples.

Lemma layered_acyclic : acyclic (_tasks layered_runner).
Proof.
  apply (acyclic_by_rank _ layered_rank).
  intros n d (t & Ht & Hd).
  change (_tasks layered_runner)
    with [("D", task "D" (returns (PyInt 4)) ["A"] 0);
          ("A", task "A" (returns (PyInt 1)) ["B"; "Z"] 0);
          ("B", task "B" (returns (PyInt 2)) [] 0)] in Ht.
  simpl in Ht. repeat case_decide; simplify_eq; simpl in Hd;
    set_unfold; intuition subst; vm_compute; lia.
Qed.

Lemma resolve_order_topological_witness :
  acyclic (_tasks layered_runner)
  ∧ _resolve_order (_tasks layered_runner) = Some ["B"; "A"; "D"]
  ∧ before ["B"; "A"; "D"] "B" "D".
Proof.
  split; [exact layered_acyclic|].
  destruct (resolve_order_topological (_tasks layered_runner) layered_acyclic)
    as (order & Ho & _ & _ & _ & _ & Hb).
  assert (order = ["B"; "A"; "D"]) as -> by (vm_compute in Ho; congruence).
  split; [exact Ho|]. apply Hb.
  - apply (tc_l _ _ "A"); [|apply tc_once]; eexists; (split; [reflexivity|]);
      apply list_elem_of_here.
  - eexists. reflexivity.
Defined.





Lemma raises_always_raises msg : always_raises (raises msg).
Proof. intros c w. by eexists _, _, _. Qed.

Lemma exhausted_retries_raise_witness :
  let run := execute failing_runner None tt in
  let a := task "A" (raises "boom") [] 1 in
  let s0 := {| context := ∅; world := tt; trace := [] |} in
  let s1 := {| context := ∅; world := tt;
               trace := [EvInvoke "A"; EvSleep 1; EvInvoke "A"] |} in
  always_raises (action a)
  ∧ loop_body "A" a [] s0 = (Some (UnboundLocalError "e"), [], s1)
  ∧ run_exit run = Aborted (UnboundLocalError "e")
  ∧ run_results run = []
  ∧ run_env run = s1.
Proof.
  intros run a s0 s1.
  split; [apply raises_always_raises|].
  destruct (exhausted_retries_raise "A" a [] s0 eq_refl
              (raises_always_raises "boom") ltac:(done))
    as (s' & Hex & _ & Hbody & _).
  vm_compute in Hex. injection Hex as <-.
  split; [exact Hbody|]. repeat split.
Defined.

Lemma zero_result_not_in_context :
  let run := execute zero_runner None tt in
  od_get (run_results run) "A"
  = Some (completed_result (task "A" (returns (PyInt 0)) [] 0) (PyInt 0))
  ∧ is_none (PyInt 0) = false
  ∧ context (run_env run) !! "A" = None
  ∧ context (run_env run) !! "B" = Some (PyInt 7).
Proof. repeat split. Qed.

Lemma context_gets_truthy_results_witness :
  let t := task "B" (returns (PyInt 7)) [] 0 in
  let d := task "D" (returns (PyInt 4)) ["A"] 0 in
  let s0 := {| context := ∅; world := tt; trace := [] |} in
  _dependencies_met [] t = true
  ∧ (∃ s2, loop_body "B" t [] s0
           = (None, [("B", completed_result t (PyInt 7))], s2)
       ∧ context s2 !! "B" = Some (PyInt 7))
  ∧ _dependencies_met [] d = false
  ∧ ∃ results', loop_body "D" d [] s0 = (None, results', s0).
Proof.
  intros t d s0. split; [reflexivity|].
  destruct (context_gets_truthy_results "B" t [] s0) as [H _].
  destruct (H eq_refl (completed_result t (PyInt 7))
              {| context := ∅; world := tt; trace := [EvInvoke "B"] |} eq_refl)
    as (_ & s2 & Hbody & _ & _ & Htruthy & _).
  split; [exists s2; split; [exact Hbody | by apply Htruthy]|].
  split; [reflexivity|].
  destruct (context_gets_truthy_results "D" d [] s0) as [_ H'].
  exact (H' eq_refl).
Defined.

End TaskProofs.

Module ProxyProofs.
Import Proxy.

Implicit Types (p q : ProxyInfo) (ps : list ProxyInfo) (pool : ProxyRotation)
  (u : string) (o : op).


(** **** The healthy records *)



Lemma elem_of_healthy ps i p :
  (i, p) ∈ healthy ps ↔ ps !! i = Some p ∧ is_healthy p = true.
Proof.
  unfold healthy. rewrite list_elem_of_filter, elem_of_lookup_imap. simpl.
  split.
  - intros [Hh (j & q & [= -> ->] & Hq)]. done.
  - intros [Hp Hh]. split; [done|]. by exists i, p.
Qed.

Lemma healthy_nil ps : healthy ps = [] ↔ ∀ p, p ∈ ps → is_healthy p = false.
Proof.
  split.
  - intros Hnil p Hp. apply list_elem_of_lookup in Hp as [i Hi].
    destruct (is_healthy p) eqn:Hh; [|done].
    assert ((i, p) ∈ healthy ps) as Hin by by apply elem_of_healthy.
    rewrite Hnil in Hin. by apply elem_of_nil in Hin.
  - intros Hall. destruct (healthy ps) as [|[i p] l] eqn:Hl; [done|].
    assert ((i, p) ∈ healthy ps) as Hin by (rewrite Hl; apply list_elem_of_here).
    apply elem_of_healthy in Hin as [Hi Hh].
    rewrite (Hall p) in Hh; [done|]. by eapply list_elem_of_lookup_2.
Qed.

(** **** [min] with a key *)

Lemma min_last_used_split (l : list (nat * ProxyInfo)) : ∀ best,
  ∃ l1 l2, best :: l = l1 ++ min_last_used best l :: l2
    ∧ (∀ x, x ∈ l1 → (last_used (min_last_used best l).2 < last_used x.2)%Z)
    ∧ (∀ x, x ∈ l2 → (last_used (min_last_used best l).2 ≤ last_used x.2)%Z).
Proof.
  induction l as [|x l IH]; intros best; simpl.
  - exists [], []. split; [done|]. split; intros y Hy; by apply elem_of_nil in Hy.
  - destruct (Z.ltb_spec (last_used x.2) (last_used best.2)) as [Hlt|Hge].
    + destruct (IH x) as (l1 & l2 & Heq & H1 & H2).
      remember (min_last_used x l) as m eqn:Hm_def.
      assert (last_used m.2 ≤ last_used x.2)%Z as Hmx.
      { destruct l1 as [|y l1]; simpl in Heq.
        - injection Heq as Hxm _. rewrite Hxm. lia.
        - injection Heq as Hxy _. rewrite Hxy.
          apply Z.lt_le_incl, H1, list_elem_of_here. }
      exists (best :: l1), l2. split; [by rewrite Heq|]. split; [|done].
      intros y Hy. apply elem_of_cons in Hy as [->|Hy]; [lia | auto].
    + destruct (IH best) as (l1 & l2 & Heq & H1 & H2).
      remember (min_last_used best l) as m eqn:Hm_def.
      destruct l1 as [|y l1]; simpl in Heq.
      * injection Heq as Hm Hl. exists [], (x :: l). rewrite <- Hm.
        split; [done|]. split; [intros y Hy; by apply elem_of_nil in Hy|].
        intros y Hy. apply elem_of_cons in Hy as [->|Hy]; [lia|].
        rewrite Hm. apply H2. by rewrite <- Hl.
      * injection Heq as <- ->. exists (best :: x :: l1), l2.
        split; [done|]. split; [|done].
        assert (last_used m.2 < last_used best.2)%Z
          by apply H1, list_elem_of_here.
        intros y Hy. rewrite !elem_of_cons in Hy.
        destruct Hy as [->|[->|Hy]]; [done | lia |].
        apply H1. by apply list_elem_of_further.
Qed.

(** **** [get_next] *)

(** [get_next] either finds no healthy record and changes nothing, or
    picks an element of the healthy list and stamps it. *)
Lemma get_next_cases strategy rnd now pool :
  (healthy (_proxies pool) = [] ∧ get_next strategy rnd now pool = (None, pool))
  ∨ ∃ i p, (i, p) ∈ healthy (_proxies pool)
      ∧ (get_next strategy rnd now pool).1 = Some (url p)
      ∧ _proxies (get_next strategy rnd now pool).2
        = <[i := touch now p]> (_proxies pool)
      ∧ max_failures (get_next strategy rnd now pool).2 = max_failures pool.
Proof.
  unfold get_next. destruct (healthy (_proxies pool)) as [|h0 hs] eqn:Hh; [by left|].
  right.
  assert (∀ n, n < length (h0 :: hs) → nth n (h0 :: hs) h0 ∈ h0 :: hs) as Hnth.
  { intros n Hn. apply list_elem_of_lookup. exists n.
    destruct (nth_lookup_or_length (h0 :: hs) n h0); [done | lia]. }
  assert (∀ n, n `mod` length (h0 :: hs) < length (h0 :: hs)) as Hmod.
  { intros n. apply Nat.mod_upper_bound. done. }
  repeat case_decide.
  - destruct (nth _ _ _) as [i p] eqn:Hn. exists i, p.
    split; [|done]. rewrite <- Hn. apply Hnth, Hmod.
  - destruct (min_last_used h0 hs) as [i p] eqn:Hm. exists i, p.
    split; [|done].
    destruct (min_last_used_split hs h0) as (l1 & l2 & -> & _).
    rewrite Hm. apply elem_of_app. right. apply list_elem_of_here.
  - destruct (nth _ _ _) as [i p] eqn:Hn. exists i, p.
    split; [|done]. rewrite <- Hn. apply Hnth, Hmod.
Qed.



(** **** [report_failure] / [report_success]: the first match *)

Lemma update_first_cases (f : ProxyInfo → ProxyInfo) u ps :
  ((u ∉ url <$> ps) ∧ update_first f u ps = (ps, false))
  ∨ ∃ i p, ps !! i = Some p ∧ url p = u
      ∧ (∀ j q, j < i → ps !! j = Some q → url q ≠ u)
      ∧ update_first f u ps = (alter f i ps, true).
Proof.
  induction ps as [|p ps IH]; simpl.
  - left. split; [apply not_elem_of_nil | done].
  - destruct (decide (url p = u)) as [Hu|Hu].
    + right. exists 0, p. split; [done|]. split; [done|]. split; [|done].
      intros j q Hj. lia.
    + destruct IH as [[Hnin ->]|(i & p' & Hi & Hp' & Hfirst & ->)].
      * left. split; [|done]. rewrite not_elem_of_cons. auto.
      * right. exists (S i), p'. split; [done|]. split; [done|]. split; [|done].
        intros [|j] q Hj Hq; simpl in Hq.
        -- by injection Hq as <-.
        -- apply (Hfirst j); [lia | done].
Qed.

(** **** One operation, seen from one record *)

Lemma step_record o pool i p :
  _proxies pool !! i = Some p →
  ∃ p', _proxies (step pool o) !! i = Some p'
    ∧ (p' = p
       ∨ (∃ strategy rnd now, o = GetNext strategy rnd now
            ∧ p' = touch now p ∧ is_healthy p = true)
       ∨ (o = ReportFailure (url p) ∧ p' = fail_once (max_failures pool) p
          ∧ ∀ j q, j < i → _proxies pool !! j = Some q → url q ≠ url p)
       ∨ (o = ReportSuccess (url p) ∧ p' = succeed p
          ∧ ∀ j q, j < i → _proxies pool !! j = Some q → url q ≠ url p)
       ∨ (∃ r, (o = ProbeDone i r
                ∨ ∃ probes, o = HealthCheck probes ∧ probes i = r)
            ∧ p' = _check_single (max_failures pool) r p)).
Proof.
  intros Hp. destruct o as [strategy rnd now|u|u|probes|j r]; simpl.
  - destruct (get_next_cases strategy rnd now pool)
      as [[_ ->]|(j & q & Hq & _ & -> & _)]; [eauto|].
    apply elem_of_healthy in Hq as [Hq Hh].
    destruct (decide (j = i)) as [->|Hne].
    + rewrite Hp in Hq. injection Hq as <-. exists (touch now p).
      split; [apply list_lookup_insert_eq; by eapply lookup_lt_Some|].
      right. left. by exists strategy, rnd, now.
    + exists p. split; [by rewrite list_lookup_insert_ne | by left].
  - unfold report_failure.
    destruct (update_first_cases (fail_once (max_failures pool)) u (_proxies pool))
      as [[_ ->]|(j & q & Hq & Hu & Hfirst & ->)]; simpl; [eauto|].
    destruct (decide (j = i)) as [->|Hne].
    + rewrite Hp in Hq. injection Hq as <-. eexists.
      split; [by rewrite list_lookup_alter_eq, Hp|].
      right. right. left. by rewrite Hu.
    + exists p. split; [by rewrite list_lookup_alter_ne | by left].
  - unfold report_success.
    destruct (update_first_cases succeed u (_proxies pool))
      as [[_ ->]|(j & q & Hq & Hu & Hfirst & ->)]; simpl; [eauto|].
    destruct (decide (j = i)) as [->|Hne].
    + rewrite Hp in Hq. injection Hq as <-. eexists.
      split; [by rewrite list_lookup_alter_eq, Hp|].
      right. right. right. left. by rewrite Hu.
    + exists p. split; [by rewrite list_lookup_alter_ne | by left].
  - eexists. split; [by rewrite list_lookup_imap, Hp|].
    right. right. right. right. exists (probes i). split; [|done].
    right. by exists probes.
  - destruct (decide (j = i)) as [->|Hne].
    + eexists. split; [by rewrite list_lookup_alter_eq, Hp|].
      right. right. right. right. eauto.
    + exists p. split; [by rewrite list_lookup_alter_ne | by left].
Qed.

Lemma update_first_urls (f : ProxyInfo → ProxyInfo) u ps :
  (∀ p, url (f p) = url p) →
  url <$> (update_first f u ps).1 = url <$> ps.
Proof.
  intros Hf. induction ps as [|p ps IH]; simpl; [done|].
  destruct (decide (url p = u)); simpl; [by rewrite Hf|].
  destruct (update_first f u ps) as [ps' found]. simpl in *. by f_equal.
Qed.

Lemma step_urls o pool : urls (step pool o) = urls pool.
Proof.
  unfold urls. destruct o as [strategy rnd now|u|u|probes|j r]; simpl.
  - destruct (get_next_cases strategy rnd now pool)
      as [[_ ->]|(j & q & Hq & _ & -> & _)]; [done|].
    apply elem_of_healthy in Hq as [Hq _].
    rewrite list_fmap_insert. simpl. apply list_insert_id.
    by rewrite list_lookup_fmap, Hq.
  - unfold report_failure.
    pose proof (update_first_urls (fail_once (max_failures pool)) u (_proxies pool)
                  ltac:(done)) as H.
    by destruct (update_first _ _ _).
  - unfold report_success. simpl. by apply update_first_urls.
  - rewrite fmap_imap. rewrite <- (imap_const url).
    apply imap_ext. intros i p _. simpl. by destruct (probes i).
  - rewrite (list_fmap_alter url _ id).
    + apply list_alter_id. done.
    + apply Forall_forall. intros p _. by destruct r.
Qed.

Lemma step_max_failures o pool : max_failures (step pool o) = max_failures pool.
Proof.
  destruct o as [strategy rnd now|u|u|probes|j r]; simpl; [| |done|done|done].
  - by destruct (get_next_cases strategy rnd now pool)
      as [[_ ->]|(j & q & _ & _ & _ & ->)].
  - unfold report_failure. by destruct (update_first _ _ _).
Qed.

Lemma run_snoc pool ops o : run pool (ops ++ [o]) = step (run pool ops) o.
Proof. unfold run. by rewrite foldl_app. Qed.

Lemma run_urls ops pool : urls (run pool ops) = urls pool.
Proof.
  induction ops as [|o ops IH] using rev_ind; [done|].
  by rewrite run_snoc, step_urls.
Qed.

Lemma run_max_failures ops pool :
  max_failures (run pool ops) = max_failures pool.
Proof.
  induction ops as [|o ops IH] using rev_ind; [done|].
  by rewrite run_snoc, step_max_failures.
Qed.

Lemma failures_of_snoc u ops o :
  failures_of u (ops ++ [o])
  = failures_of u ops + (if is_failure_of u o then 1 else 0).
Proof.
  unfold failures_of. rewrite filter_app, length_app. f_equal.
  rewrite filter_cons. destruct (is_failure_of u o); by case_decide.
Qed.

Lemma failures_of_app u ops1 ops2 :
  failures_of u (ops1 ++ ops2) = failures_of u ops1 + failures_of u ops2.
Proof. unfold failures_of. by rewrite filter_app, length_app. Qed.

(** **** Failures accumulate until the record is restored *)

Lemma report_failure_hits pool u i p :
  _proxies pool !! i = Some p → url p = u →
  (∀ j, urls pool !! j = Some u → j = i) →
  _proxies (report_failure u pool) !! i
  = Some (fail_once (max_failures pool) p).
Proof.
  intros Hp Hu Honce. unfold report_failure.
  destruct (update_first_cases (fail_once (max_failures pool)) u (_proxies pool))
    as [[Hnin _]|(j & q & Hq & Huq & _ & ->)].
  - exfalso. apply Hnin, list_elem_of_lookup. exists i.
    by rewrite list_lookup_fmap, Hp, <- Hu.
  - assert (j = i) as ->.
    { apply Honce. unfold urls. by rewrite list_lookup_fmap, Hq, <- Huq. }
    simpl. by rewrite list_lookup_alter_eq, Hp.
Qed.

Lemma failures_accumulate pool u i p ops :
  _proxies pool !! i = Some p → url p = u →
  (∀ j, urls pool !! j = Some u → j = i) →
  (∀ o, o ∈ ops → ¬ restores pool u o) →
  ∃ p', _proxies (run pool ops) !! i = Some p' ∧ url p' = u
    ∧ fail_count p + failures_of u ops ≤ fail_count p'
    ∧ (is_healthy p' = true →
       is_healthy p = true
       ∧ (failures_of u ops = 0
          ∨ (Z.of_nat (fail_count p + failures_of u ops) < max_failures pool)%Z)).
Proof.
  intros Hp Hu Honce. induction ops as [|o ops IH] using rev_ind; intros Hno.
  { exists p. split; [done|]. split; [done|].
    change (failures_of u []) with 0. split; [lia | auto]. }
  destruct IH as (p1 & Hp1 & Hu1 & Hfc & Hh).
  { intros o' Ho'. apply Hno, elem_of_app. auto. }
  assert (¬ restores pool u o) as Hno_o.
  { apply Hno, elem_of_app. right. apply list_elem_of_here. }
  rewrite run_snoc, failures_of_snoc.
  destruct (is_failure_of u o) eqn:Hfail.
  - (* [report_failure(u)] *)
    destruct o as [| u' | | |]; try done. simpl in Hfail.
    apply bool_decide_eq_true in Hfail as ->.
    eexists. split.
    { apply report_failure_hits; [done..|].
      intros j. rewrite run_urls. apply Honce. }
    simpl. split; [done|]. split; [lia|]. rewrite run_max_failures.
    destruct (Z.geb_spec (Z.of_nat (S (fail_count p1))) (max_failures pool))
      as [Hge|Hlt]; [done|].
    intros Hh1. split; [by apply Hh|]. right. lia.
  - (* anything else that does not restore [u] *)
    rewrite Nat.add_0_r.
    assert (urls pool !! i = Some u) as Hiu.
    { rewrite <- Hu1, <- (run_urls ops). unfold urls.
      by rewrite list_lookup_fmap, Hp1. }
    destruct (step_record o _ _ _ Hp1)
      as (p2 & Hp2 & [->|[(st & rnd & now & -> & -> & _)
                         |[(-> & -> & _)|[(-> & -> & _)|(r & Ho & ->)]]]]);
      exists p2 || eexists; (split; [exact Hp2|]); simpl.
    + done.
    + done.
    + split; [done|]. split; [lia|].
      destruct (Z.of_nat (S (fail_count p1)) >=? max_failures (run pool ops))%Z;
        [done | auto].
    + exfalso. by apply Hno_o.
    + destruct r as [lat now|now]; simpl.
      * exfalso. apply Hno_o.
        destruct Ho as [->|(probes & -> & Hr)]; simpl; [done|].
        exists i. by rewrite Hr.
      * split; [done|]. split; [lia|].
        destruct (Z.of_nat (S (fail_count p1)) >=? max_failures (run pool ops))%Z;
          [done | auto].
Qed.





(** C6, as the code has it.  Take a pool in which exactly one record has
    the url [u], and a history [ops1 ++ ops2] without [report_success(u)]
    and without a successful probe of that record, in which [ops1] contains
    at least one and at least [max_failures] calls of [report_failure(u)]:
    after it, [get_next] does not return [u], whatever the strategy.  In
    every pool that has the url [u], [report_success(u)] leaves the first
    record with that url healthy with [fail_count] 0, and [get_next] can
    return [u] right away.  In every pool [get_next] returns the url of a
    record that is healthy at the time of the call, and returns [None],
    changing nothing, when no record is healthy. *)
Theorem unhealthy_until_restored :
  (∀ pool u ops1 ops2 strategy rnd now,
      occurs_once u pool →
      0 < failures_of u ops1 →
      (max_failures pool ≤ Z.of_nat (failures_of u ops1))%Z →
      (∀ o, o ∈ ops1 ++ ops2 → ¬ restores pool u o) →
      (get_next strategy rnd now (run pool (ops1 ++ ops2))).1 ≠ Some u)
  ∧ (∀ pool u, u ∈ urls pool →
      ∃ i p, _proxies (report_success u pool) !! i = Some p
        ∧ url p = u ∧ is_healthy p = true ∧ fail_count p = 0
        ∧ ∃ rnd, ∀ now,
            (get_next "random" rnd now (report_success u pool)).1 = Some u)
  ∧ (∀ pool strategy rnd now,
      (∀ u, (get_next strategy rnd now pool).1 = Some u →
         ∃ i p, _proxies pool !! i = Some p ∧ is_healthy p = true ∧ url p = u)
      ∧ ((∀ p, p ∈ _proxies pool → is_healthy p = false) →
         get_next strategy rnd now pool = (None, pool))).
Proof.
  split; [|split].
  - intros pool u ops1 ops2 strategy rnd now (i & Hi & Honce) Hone Hmany Hno Hget.
    unfold urls in Hi. apply list_lookup_fmap_Some in Hi as (p & Hu & Hp).
    destruct (failures_accumulate pool u i p (ops1 ++ ops2) Hp ltac:(done) Honce Hno)
      as (p' & Hp' & Hu' & _ & Hh).
    rewrite failures_of_app in Hh.
    destruct (get_next_cases strategy rnd now (run pool (ops1 ++ ops2)))
      as [[_ Hnone]|(j & q & Hq & Hsome & _)].
    { by rewrite Hnone in Hget. }
    rewrite Hsome in Hget. injection Hget as Huq.
    apply elem_of_healthy in Hq as [Hq Hhq].
    assert (j = i) as ->.
    { apply Honce. rewrite <- (run_urls (ops1 ++ ops2)). unfold urls.
      by rewrite list_lookup_fmap, Hq, <- Huq. }
    rewrite Hp' in Hq. injection Hq as <-.
    destruct (Hh Hhq) as [_ [Hzero|Hlt]]; lia.
  - intros pool u Hu. unfold report_success.
    destruct (update_first_cases succeed u (_proxies pool))
      as [[Hnin _]|(i & p & Hp & Hup & _ & ->)]; [done|]. simpl.
    exists i, (succeed p). split; [by rewrite list_lookup_alter_eq, Hp|].
    split; [done|]. split; [done|]. split; [done|].
    assert ((i, succeed p) ∈ healthy (alter succeed i (_proxies pool))) as Hin.
    { apply elem_of_healthy. by rewrite list_lookup_alter_eq, Hp. }
    apply list_elem_of_lookup in Hin as [a Ha].
    exists a. intros now. unfold get_next.
    change (_proxies (set_proxies pool (alter succeed i (_proxies pool), true).1))
      with (alter succeed i (_proxies pool)).
    destruct (healthy _) as [|h0 hs] eqn:Hh; [done|].
    rewrite decide_True by done.
    rewrite Nat.mod_small by by eapply lookup_lt_Some.
    rewrite (nth_lookup_Some _ _ _ _ Ha). simpl. by rewrite Hup.
  - intros pool strategy rnd now. split.
    + intros u Hget.
      destruct (get_next_cases strategy rnd now pool)
        as [[_ Hnone]|(j & q & Hq & Hsome & _)].
      { by rewrite Hnone in Hget. }
      rewrite Hsome in Hget. injection Hget as Huq.
      apply elem_of_healthy in Hq as [Hq Hhq]. by exists j, q.
    + intros Hall. unfold get_next. by rewrite (proj2 (healthy_nil _) Hall).
Qed.

(** **** The health flag and the failure count *)





(** **** Counting after a sweep *)

Lemma healthy_count_app ps1 ps2 :
  healthy_count (ps1 ++ ps2) = healthy_count ps1 + healthy_count ps2.
Proof. unfold healthy_count. by rewrite filter_app, length_app. Qed.

Lemma failed_probes_S probes n :
  failed_probes probes (S n)
  = failed_probes probes n + (if probe_ok (probes n) then 0 else 1).
Proof.
  unfold failed_probes. rewrite seq_S, filter_app, length_app. f_equal.
  cbn [Nat.add]. rewrite filter_cons. destruct (probe_ok (probes n)); by case_decide.
Qed.

Lemma failed_probes_le probes n : failed_probes probes n ≤ n.
Proof.
  unfold failed_probes. etrans; [apply length_filter|]. by rewrite length_seq.
Qed.

Lemma fresh_sweep_count maxf probes (proxies : list string) :
  healthy_count (imap (λ i p, _check_single maxf (probes i) p)
                      (new_proxy <$> proxies))
  = if (maxf <=? 1)%Z
    then length proxies - failed_probes probes (length proxies)
    else length proxies.
Proof.
  induction proxies as [|u proxies IH] using rev_ind.
  { by destruct (maxf <=? 1)%Z. }
  rewrite fmap_app, imap_app, healthy_count_app, IH, length_app, length_fmap.
  simpl. rewrite Nat.add_0_r, Nat.add_1_r, failed_probes_S.
  pose proof (failed_probes_le probes (length proxies)).
  unfold healthy_count. rewrite filter_cons, filter_nil.
  destruct (probes (length proxies)) as [lat now|now]; cbn [_check_single probe_ok].
  - rewrite decide_True by done. simpl. destruct (maxf <=? 1)%Z; lia.
  - cbn [is_healthy fail_count new_proxy].
    destruct (Z.leb_spec maxf 1), (Z.geb_spec (Z.of_nat 1) maxf); try lia.
    + rewrite decide_False by done. simpl. lia.
    + rewrite decide_True by done. simpl. lia.
Qed.

(** C8, as the code has it.  [health_check] on a newly built pool of 5
    proxies, 2 of whose probes fail: the counts are those of the health
    flags, and one failed probe makes a new record unhealthy only when
    [max_failures] is at most 1.  So the result is 3 healthy and 2
    unhealthy for [max_failures <= 1], and 5 healthy and 0 unhealthy for
    every larger [max_failures], the default 3 among them. *)
Theorem health_check_fresh_pool proxies cu ci maxf probes :
  length proxies = 5 →
  failed_probes probes 5 = 2 →
  (health_check probes (new_pool proxies cu ci maxf)).1
  = if (maxf <=? 1)%Z
    then {| hr_healthy := 3; hr_unhealthy := 2 |}
    else {| hr_healthy := 5; hr_unhealthy := 0 |}.
Proof.
  intros Hlen Hfail. unfold health_check. simpl.
  rewrite fresh_sweep_count, length_imap, length_fmap, Hlen, Hfail.
  by destruct (maxf <=? 1)%Z.
Qed.

(** **** The theorems at work on concrete pools *)

Import Examples.


Lemma duplicate_url_still_offered :
  let u := "http://10.0.0.1:8080" in
  u ∈ urls duplicate_pool
  ∧ max_failures duplicate_pool = 1%Z
  ∧ failures_of u [ReportFailure u] = 1
  ∧ (get_next "round_robin" 0 1000 (run duplicate_pool [ReportFailure u])).1
    = Some u.
Proof. split; [apply list_elem_of_here|]. repeat split. Qed.

Lemma unhealthy_until_restored_witness :
  let u := "http://10.0.0.1:8080" in
  let v := "http://10.0.0.2:8080" in
  let ops1 := [ReportFailure u; GetNext "round_robin" 0 10; ReportFailure u] in
  let ops2 := [ReportSuccess v; ProbeDone 0 (ProbeFailed 20);
               HealthCheck (λ _, ProbeFailed 25)] in
  let down := run pair_pool (ops1 ++ ops2) in
  let dark := run pair_pool [HealthCheck (λ _, ProbeFailed 25);
                             HealthCheck (λ _, ProbeFailed 26)] in
  occurs_once u pair_pool
  ∧ (get_next "random" 0 30 down).1 ≠ Some u
  ∧ get_next "round_robin" 0 30 dark = (None, dark)
  ∧ (∃ i p, _proxies (report_success u down) !! i = Some p
       ∧ url p = u ∧ is_healthy p = true ∧ fail_count p = 0)
  ∧ (∃ rnd, (get_next "random" rnd 40 (report_success u down)).1 = Some u).
Proof.
  intros u v ops1 ops2 down dark.
  assert (occurs_once u pair_pool) as Honce.
  { exists 0. split; [reflexivity|].
    intros [|[|j]] Hj; [done | discriminate Hj | discriminate Hj]. }
  split; [exact Honce|].
  destruct unhealthy_until_restored as (Hdown & Hup & Hnext).
  split.
  { apply Hdown; [exact Honce | vm_compute; lia | by vm_compute |].
    intros o Ho Hr. unfold ops1, ops2, u, v in Ho, Hr. simpl in Ho.
    rewrite !elem_of_cons in Ho.
    destruct Ho as [->|[->|[->|[->|[->|[->|Ho]]]]]]; simpl in Hr;
      [done | done | done | discriminate Hr | done
      | by destruct Hr as (i & _ & Hr) | by apply elem_of_nil in Ho]. }
  split.
  { apply Hnext. intros p Hp. apply list_elem_of_lookup in Hp as [i Hi].
    destruct i as [|[|i]]; [| |discriminate Hi];
      vm_compute in Hi; by injection Hi as <-. }
  destruct (Hup down u) as (i & p & Hp & Hu & Hh & Hfc & rnd & Hrnd).
  { unfold down. rewrite run_urls. apply list_elem_of_here. }
  split; [by exists i, p|]. exists rnd. apply Hrnd.
Defined.


Lemma default_pool_sweep_reports_all_healthy :
  length five_proxies = 5
  ∧ failed_probes two_fail 5 = 2
  ∧ (health_check two_fail (new_pool_default five_proxies)).1
    = {| hr_healthy := 5; hr_unhealthy := 0 |}.
Proof. repeat split. Qed.

Lemma health_check_fresh_pool_witness :
  length five_proxies = 5
  ∧ failed_probes two_fail 5 = 2
  ∧ (health_check two_fail
       (new_pool five_proxies "https://httpbin.org/ip" 300 1)).1
    = {| hr_healthy := 3; hr_unhealthy := 2 |}
  ∧ (health_check two_fail
       (new_pool five_proxies "https://httpbin.org/ip" 300 3)).1
    = {| hr_healthy := 5; hr_unhealthy := 0 |}.
Proof.
  split; [reflexivity|]. split; [reflexivity|]. split.
  - exact (health_check_fresh_pool five_proxies "https://httpbin.org/ip"
             300 1 two_fail eq_refl eq_refl).
  - exact (health_check_fresh_pool five_proxies "https://httpbin.org/ip"
             300 3 two_fail eq_refl eq_refl).
Defined.

End ProxyProofs.

Module WaitProofs.
Import Py Wait.

Section Retry.
Context {W num : Type} (mul : num → num → num).
Implicit Types (action : W → outcome * W) (w : W) (tr : list (event num)).

Lemma backoff_delay_shift (delay backoff : num) (k : nat) :
  backoff_delay mul (mul delay backoff) backoff k
  = backoff_delay mul delay backoff (S k).
Proof. induction k as [|k IH]; simpl; [done|]. by rewrite IH. Qed.

Lemma failed_attempts_shift (delay backoff : num) (k : nat) :
  [EvCall; EvSleep delay] ++ failed_attempts mul (mul delay backoff) backoff k
  = failed_attempts mul delay backoff (S k).
Proof.
  induction k as [|k IH]; [done|].
  change (failed_attempts mul (mul delay backoff) backoff (S k))
    with (failed_attempts mul (mul delay backoff) backoff k
          ++ [EvCall; EvSleep (backoff_delay mul (mul delay backoff) backoff k)]).
  rewrite app_assoc, IH, backoff_delay_shift. done.
Qed.

(** [k] failing attempts that are not the last one of the range: each is
    followed by its wait, and the loop goes on with the remaining range. *)
Lemma retry_loop_failures action (max_retries : Z) (backoff : num) (k : nat) :
  ∀ (a m : nat) (le : option pyexn) (d : num) w tr last w',
    fails_for action k w le = Some (last, w') →
    (Z.of_nat (a + k) ≤ max_retries - 1)%Z →
    retry_loop mul action max_retries backoff
      (Z.of_nat <$> seq a (k + m)) le d w tr
    = retry_loop mul action max_retries backoff
        (Z.of_nat <$> seq (a + k) m) last (backoff_delay mul d backoff k) w'
        (tr ++ failed_attempts mul d backoff k).
Proof.
  induction k as [|k IH]; intros a m le d w tr last w' Hf Hb.
  - simpl in Hf. injection Hf as <- <-. simpl.
    by rewrite Nat.add_0_r, app_nil_r.
  - simpl in Hf. rewrite <- failed_attempts_shift.
    change (S k + m) with (S (k + m)). cbn [seq fmap list_fmap retry_loop].
    destruct (action w) as [[v|e] w1] eqn:Ha; [done|].
    destruct (Z.ltb_spec (Z.of_nat a) (max_retries - 1)) as [_|Hge]; [|lia].
    rewrite (IH (S a) m (Some e) (mul d backoff) w1 _ last w' Hf) by lia.
    rewrite backoff_delay_shift, <- !app_assoc.
    by replace (S a + k) with (a + S k) by lia.
Qed.

Lemma calls_app tr1 tr2 : calls (tr1 ++ tr2) = calls tr1 + calls tr2.
Proof. unfold calls. by rewrite filter_app, length_app. Qed.

Lemma calls_failed_attempts (delay backoff : num) (k : nat) :
  calls (failed_attempts mul delay backoff k ++ [EvCall]) = S k.
Proof.
  rewrite calls_app. change (calls [EvCall]) with 1.
  induction k as [|k IH]; [done|].
  cbn [failed_attempts]. rewrite calls_app.
  change (calls [EvCall; EvSleep _]) with 1. lia.
Qed.

Lemma sleeps_failed_attempts (delay backoff : num) (k : nat) :
  sleeps (failed_attempts mul delay backoff k ++ [EvCall])
  = backoff_delay mul delay backoff <$> seq 0 k.
Proof.
  unfold sleeps. rewrite omap_app. simpl. rewrite app_nil_r.
  induction k as [|k IH]; [done|].
  cbn [failed_attempts]. by rewrite omap_app, IH, seq_S, fmap_app.
Qed.

Lemma fails_for_split action (k : nat) :
  ∀ w le last w', fails_for action (S k) w le = Some (last, w') →
    ∃ l1 w1 e, fails_for action k w le = Some (l1, w1)
               ∧ action w1 = (Raised e, w') ∧ last = Some e.
Proof.
  induction k as [|k IH]; intros w le last w' Hf.
  - simpl in Hf. destruct (action w) as [[v|e] w1] eqn:Ha; [done|].
    injection Hf as <- <-. exists le, w, e. done.
  - cbn [fails_for] in Hf. destruct (action w) as [[v|e] w1] eqn:Ha; [done|].
    destruct (IH w1 (Some e) last w' Hf) as (l1 & w2 & e' & H1 & H2 & H3).
    exists l1, w2, e'. cbn [fails_for]. rewrite Ha. done.
Qed.

(** C5.  [retry_until(action, max_retries, delay, backoff)].  If the action
    fails [k < max_retries] times and then returns [v], the call returns
    [v], the action was invoked [k + 1] times, and the wait after the i-th
    failed attempt (counting from 0) was [delay] multiplied [i] times by
    [backoff].  If the action fails on every invocation (and
    [max_retries >= 1], so that there is an attempt), it is invoked
    [max_retries] times, with the same waits between the attempts and none
    after the last, and the call raises the error of the last attempt. *)
Theorem retry_until_spec action (max_retries : Z) (delay backoff : num) w :
  (∀ (k : nat) (v : pyval) (w_end : W),
      (Z.of_nat k < max_retries)%Z →
      fails_then_succeeds action k w v w_end →
      ∃ tr, retry_until mul action max_retries delay backoff w
              = (Returned v, w_end, tr)
            ∧ tr = failed_attempts mul delay backoff k ++ [EvCall]
            ∧ calls tr = S k
            ∧ sleeps tr = backoff_delay mul delay backoff <$> seq 0 k)
  ∧ (always_fails action w →
     (0 < max_retries)%Z →
     ∃ e w_end tr,
       fails_for action (Z.to_nat max_retries) w None = Some (Some e, w_end)
       ∧ retry_until mul action max_retries delay backoff w
           = (Raised e, w_end, tr)
       ∧ tr = failed_attempts mul delay backoff (Z.to_nat max_retries - 1)
              ++ [EvCall]
       ∧ calls tr = Z.to_nat max_retries
       ∧ sleeps tr = backoff_delay mul delay backoff
                       <$> seq 0 (Z.to_nat max_retries - 1)).
Proof.
  split.
  - intros k v w_end Hk (last & w' & Hf & Hv).
    eexists. split; [|split; [reflexivity|]].
    + unfold retry_until, range.
      replace (Z.to_nat max_retries) with (k + S (Z.to_nat max_retries - S k))
        by lia.
      rewrite (retry_loop_failures action max_retries backoff k 0 _ None
                 delay w [] last w' Hf) by lia.
      simpl. by rewrite Hv.
    + split; [apply calls_failed_attempts | apply sleeps_failed_attempts].
  - intros Hall Hpos.
    destruct (Hall (Z.to_nat max_retries)) as [[last w_end] Hf].
    destruct (Z.to_nat max_retries) as [|n] eqn:Hn; [lia|].
    destruct (fails_for_split action n w None last w_end Hf)
      as (l1 & w1 & e & Hf1 & Ha & ->).
    exists e, w_end. eexists. split; [done|]. split; [|split; [reflexivity|]].
    + unfold retry_until, range. rewrite Hn.
      replace (S n) with (n + 1) at 1 by lia.
      rewrite (retry_loop_failures action max_retries backoff n 0 _ None
                 delay w [] l1 w1 Hf1) by lia.
      simpl. rewrite Ha.
      destruct (Z.ltb_spec (Z.of_nat n) (max_retries - 1)) as [Hlt|_]; [lia|].
      by rewrite Nat.sub_0_r.
    + replace (S n - 1) with n by lia.
      split; [apply calls_failed_attempts | apply sleeps_failed_attempts].
Qed.

(** With [max_retries <= 0] there is no attempt, and [raise last_error]
    finds [None]. *)
Lemma retry_until_no_attempt action (max_retries : Z) (delay backoff : num) w :
  (max_retries ≤ 0)%Z →
  retry_until mul action max_retries delay backoff w
  = (Raised (TypeError "exceptions must derive from BaseException"), w, []).
Proof.
  intros H. unfold retry_until, range.
  by replace (Z.to_nat max_retries) with 0 by lia.
Qed.

End Retry.

(** Over the integers the waits are [delay * backoff ^ i]. *)
Lemma backoff_delay_Z (delay backoff : Z) (i : nat) :
  backoff_delay Z.mul delay backoff i = (delay * backoff ^ Z.of_nat i)%Z.
Proof.
  induction i as [|i IH]; simpl backoff_delay.
  - simpl. lia.
  - rewrite IH, Nat2Z.inj_succ, Z.pow_succ_r by lia. lia.
Qed.

(** **** The theorem at work on the actions of the test suite *)

Import Examples.

Lemma hopeless_always_fails : always_fails hopeless tt.
Proof.
  intros k. generalize (@None pyexn).
  induction k as [|k IH]; intros last; simpl; eauto.
Qed.

Lemma retry_until_spec_witness :
  fails_then_succeeds flaky 2 0 (PyStr "ok") 3
  ∧ retry_until Z.mul flaky 3 1%Z 2%Z 0
    = (Returned (PyStr "ok"), 3, [EvCall; EvSleep 1%Z; EvCall; EvSleep 2%Z; EvCall])
  ∧ always_fails hopeless tt
  ∧ retry_until Z.mul hopeless 2 1%Z 2%Z tt
    = (Raised (ActionError "permanent error"), tt, [EvCall; EvSleep 1%Z; EvCall]).
Proof.
  assert (fails_then_succeeds flaky 2 0 (PyStr "ok") 3) as Hflaky.
  { eexists _, _. split; reflexivity. }
  split; [exact Hflaky|].
  destruct (retry_until_spec Z.mul flaky 3 1%Z 2%Z 0) as [H1 _].
  destruct (H1 2 (PyStr "ok") 3 ltac:(lia) Hflaky) as (tr & Heq & -> & _).
  split; [exact Heq|]. split; [exact hopeless_always_fails|].
  destruct (retry_until_spec Z.mul hopeless 2 1%Z 2%Z tt) as [_ H2].
  destruct (H2 hopeless_always_fails ltac:(lia)) as (e & w & tr & Hf & Heq2 & -> & _).
  vm_compute in Hf. injection Hf as <- <-. exact Heq2.
Defined.

End WaitProofs.

(** * Further properties

    What the same code shows beyond the statements above: runs in which
    nothing fails, the bookkeeping of [execute], the rotation strategies and
    the counters of the proxy pool, and the two polling loops of
    [wait_strategies.py]. *)

Module TaskExtra.
Import Py PyFacts Task TaskProofs.

Section Odict.
Context {V : Type}.
Implicit Types (d : odict V) (k : string) (v : V).

Lemma od_keys_set_new d k v :
  od_get d k = None → od_keys (od_set d k v) = od_keys d ++ [k].
Proof.
  unfold od_keys. induction d as [|[k' v'] d IH]; simpl; [done|].
  destruct (decide (k' = k)) as [->|Hne]; [done|].
  intros H. simpl. f_equal. by apply IH.
Qed.

Lemma od_keys_set_old d k v :
  is_Some (od_get d k) → od_keys (od_set d k v) = od_keys d.
Proof.
  unfold od_keys. induction d as [|[k' v'] d IH]; simpl.
  - by intros [? ?].
  - destruct (decide (k' = k)) as [->|Hne]; [done|].
    intros H. simpl. f_equal. by apply IH.
Qed.

Lemma od_keys_NoDup_set d k v : NoDup (od_keys d) → NoDup (od_keys (od_set d k v)).
Proof.
  intros Hnd. destruct (od_get d k) as [x|] eqn:Hk.
  - by rewrite od_keys_set_old.
  - rewrite od_keys_set_new by done. apply NoDup_app. split; [done|].
    split; [|apply NoDup_singleton].
    intros x Hx Hx'. apply list_elem_of_singleton in Hx' as ->.
    by apply od_get_None in Hk.
Qed.

Lemma od_values_length d : length (od_values d) = length (od_keys d).
Proof. unfold od_values, od_keys. by rewrite !length_fmap. Qed.

Lemma od_values_elem_of d v : v ∈ od_values d → ∃ k, (k, v) ∈ d.
Proof.
  unfold od_values. intros H. apply list_elem_of_fmap in H as ([k v'] & -> & H).
  by exists k.
Qed.

Lemma od_elem_of_get d k v :
  NoDup (od_keys d) → (k, v) ∈ d → od_get d k = Some v.
Proof.
  unfold od_keys. induction d as [|[k' v'] d IH]; simpl; intros Hnd Hin.
  - by apply elem_of_nil in Hin.
  - apply NoDup_cons in Hnd as [Hk' Hnd].
    apply elem_of_cons in Hin as [[= -> ->]|Hin].
    + by rewrite decide_True.
    + rewrite decide_False; [by apply IH|].
      intros ->. apply Hk', list_elem_of_fmap. by exists (k, v).
Qed.

Lemma od_values_keys (f : V → string) d :
  NoDup (od_keys d) → (∀ k v, od_get d k = Some v → f v = k) →
  f <$> od_values d = od_keys d.
Proof.
  intros Hnd Hf. unfold od_values, od_keys. rewrite <- list_fmap_compose.
  apply list_fmap_ext. intros i [k v] Hi. simpl. apply Hf.
  apply od_elem_of_get; [done|]. by eapply list_elem_of_lookup_2.
Qed.

End Odict.

Lemma sleeps_invokes (order : list string) : sleeps (EvInvoke <$> order) = 0.
Proof. unfold sleeps. induction order as [|k order IH]; [done|]. by rewrite fmap_cons, filter_cons. Qed.

Lemma invocations_app nm tr1 tr2 :
  invocations nm (tr1 ++ tr2) = invocations nm tr1 + invocations nm tr2.
Proof. unfold invocations. by rewrite filter_app, length_app. Qed.

Lemma sleeps_app tr1 tr2 : sleeps (tr1 ++ tr2) = sleeps tr1 + sleeps tr2.
Proof. unfold sleeps. by rewrite filter_app, length_app. Qed.

Lemma invocations_retry_trace nm k : invocations nm (retry_trace nm k) = S k.
Proof.
  unfold retry_trace. rewrite invocations_app.
  assert (invocations nm [EvInvoke nm] = 1) as ->.
  { unfold invocations. rewrite filter_cons, filter_nil. simpl.
    by rewrite bool_decide_eq_true_2. }
  induction k as [|k IH]; [done|].
  cbn [replicate concat]. rewrite invocations_app.
  assert (invocations nm [EvInvoke nm; EvSleep 1] = 1) as ->; [|lia].
  unfold invocations. rewrite !filter_cons, filter_nil. simpl.
  by rewrite bool_decide_eq_true_2.
Qed.

Lemma sleeps_retry_trace nm k : sleeps (retry_trace nm k) = k.
Proof.
  unfold retry_trace. rewrite sleeps_app.
  change (sleeps [EvInvoke nm]) with 0.
  induction k as [|k IH]; [done|].
  cbn [replicate concat]. rewrite sleeps_app.
  change (sleeps [EvInvoke nm; EvSleep 1]) with 1. lia.
Qed.

Section Run.
Context {W : Type}.
Implicit Types (task t : AutomationTask W) (s : env W)
  (results : odict TaskResult) (tasks : odict (AutomationTask W)).

(** **** Registration *)

(** X7.  [add_task] stores the task under its name.  After adding a task
    [t] to a runner built by [add_task] calls, [t] is the task found under
    its name and every other name maps to what it mapped to before.  When
    the name was registered already, the earlier task is replaced and the
    keys, with their order, stay as they were; a new name goes to the end
    of the keys.  The keys are pairwise distinct, and the registered names
    are exactly the names of the tasks added so far. *)
Theorem add_task_last_wins nm (ts : list (AutomationTask W)) t :
  let r := runner_of nm ts in
  let r' := runner_of nm (ts ++ [t]) in
  NoDup (od_keys (_tasks r'))
  ∧ od_get (_tasks r') (name t) = Some t
  ∧ (∀ k, k ≠ name t → od_get (_tasks r') k = od_get (_tasks r) k)
  ∧ od_keys (_tasks r')
    = (if decide (name t ∈ name <$> ts) then od_keys (_tasks r)
       else od_keys (_tasks r) ++ [name t])
  ∧ (∀ k, registered (_tasks r') k ↔ k ∈ name <$> (ts ++ [t])).
Proof.
  intros r r'. subst r r'.
  assert (∀ l : list (AutomationTask W),
            NoDup (od_keys (_tasks (runner_of nm l)))
            ∧ ∀ k, k ∈ od_keys (_tasks (runner_of nm l)) ↔ k ∈ name <$> l) as Hall.
  { induction l as [|x l [IH1 IH2]] using rev_ind.
    - split; [apply NoDup_nil_2|]. intros k. done.
    - rewrite runner_of_snoc. simpl. split; [by apply od_keys_NoDup_set|].
      intros k. rewrite fmap_app, elem_of_app. simpl.
      rewrite list_elem_of_singleton, <- IH2, <- !od_get_is_Some.
      destruct (decide (name x = k)) as [<-|Hne].
      + rewrite od_get_set_eq. naive_solver.
      + rewrite od_get_set_ne by done. naive_solver. }
  destruct (Hall (ts ++ [t])) as [Hnd Hkeys]. destruct (Hall ts) as [_ Hkeys0].
  split; [done|].
  split; [rewrite runner_of_snoc; apply od_get_set_eq|].
  split; [intros k Hk; rewrite runner_of_snoc; by apply od_get_set_ne|].
  split.
  - rewrite runner_of_snoc. simpl. case_decide as Hin.
    + apply od_keys_set_old, od_get_is_Some, Hkeys0, Hin.
    + apply od_keys_set_new, od_get_None. by rewrite Hkeys0.
  - intros k. unfold registered. by rewrite od_get_is_Some.
Qed.


(** **** Registration order *)

Lemma post_order_sorted tasks (names : list string) :
  ∀ (visited : gset string),
    NoDup names →
    (∀ k, k ∈ names → (k ∉ visited) ∧ registered tasks k) →
    (∀ i k t d, names !! i = Some k → od_get tasks k = Some t →
       d ∈ depends_on t → d ∈ visited ∨ ∃ j, j < i ∧ names !! j = Some d) →
    post_order tasks visited names (list_to_set names ∪ visited) names.
Proof.
  induction names as [|k names IH]; intros visited Hnd Hnames Hdeps.
  { rewrite list_to_set_nil, union_empty_l_L. constructor. }
  apply NoDup_cons in Hnd as [Hk Hnd].
  destruct (Hnames k) as [Hkv [t Ht]]; [apply list_elem_of_here|].
  assert (post_order tasks ({[k]} ∪ visited) (depends_on t) ({[k]} ∪ visited) [])
    as Hskip.
  { assert (∀ d, d ∈ depends_on t → d ∈ visited) as Hall.
    { intros d Hd. destruct (Hdeps 0 k t d eq_refl Ht Hd) as [?|(j & Hj & _)];
        [done | lia]. }
    induction (depends_on t) as [|d ds IHd]; [constructor|].
    apply post_skip.
    - apply elem_of_union. right. apply Hall, list_elem_of_here.
    - apply IHd. intros d' Hd'. by apply Hall, list_elem_of_further. }
  rewrite list_to_set_cons.
  replace ({[k]} ∪ list_to_set names ∪ visited)
    with (list_to_set names ∪ ({[k]} ∪ visited) : gset string) by set_solver.
  change (k :: names) with ([] ++ [k] ++ names) at 2.
  eapply post_task; [done | done | exact Hskip|].
  apply IH; [done | |].
  - intros k' Hk'. destruct (Hnames k') as [Hv Hr]; [by apply list_elem_of_further|].
    split; [|done]. apply not_elem_of_union. split; [|done].
    apply not_elem_of_singleton. by intros ->.
  - intros i k' t' d Hi Ht' Hd.
    destruct (Hdeps (S i) k' t' d Hi Ht' Hd) as [?|(j & Hj & Hjd)].
    + left. set_solver.
    + destruct j as [|j]; simpl in Hjd.
      * injection Hjd as ->. left. set_solver.
      * right. exists j. split; [lia | done].
Qed.

(** X6.  When the tasks were registered in an order that already respects
    the dependencies (every name a task depends on is the name of a task
    registered before it), [_resolve_order] returns the registration
    order. *)
Theorem sorted_registration_is_kept tasks :
  NoDup (od_keys tasks) →
  (∀ i k t d, od_keys tasks !! i = Some k → od_get tasks k = Some t →
     d ∈ depends_on t → ∃ j, j < i ∧ od_keys tasks !! j = Some d) →
  _resolve_order tasks = Some (od_keys tasks).
Proof.
  intros Hnd Hsorted.
  destruct (resolve_order_total tasks) as [order Horder].
  destruct (resolve_order_post_order tasks order Horder) as [visited Hpost].
  rewrite Horder. f_equal.
  eapply (post_order_unique tasks); [exact Hpost|].
  apply post_order_sorted; [done | |].
  - intros k Hk. split; [set_solver|]. by apply od_get_is_Some.
  - intros i k t d Hi Ht Hd. right. by eapply Hsorted.
Qed.

(** **** [_dependencies_met] *)

(** X8.  [_dependencies_met] returns [True] exactly when every name in
    [depends_on] has a result with status completed, and [False] exactly
    when some name in [depends_on] has no result at all or a result with
    another status (skipped, failed, ...). *)
Theorem dependencies_met_iff results task :
  (_dependencies_met results task = true
   ↔ ∀ d, d ∈ depends_on task →
       ∃ r, od_get results d = Some r ∧ status r = COMPLETED)
  ∧ (_dependencies_met results task = false
     ↔ ∃ d, d ∈ depends_on task
         ∧ (od_get results d = None
            ∨ ∃ r, od_get results d = Some r ∧ status r ≠ COMPLETED)).
Proof.
  split; [apply dependencies_met_true|].
  unfold _dependencies_met. induction (depends_on task) as [|d ds IH]; simpl.
  - split; [done|]. intros (d & Hd & _). by apply elem_of_nil in Hd.
  - destruct (od_get results d) as [r|] eqn:Hr.
    + destruct (status_eqb (status r) COMPLETED) eqn:Hs; simpl.
      * apply status_eqb_eq in Hs. rewrite IH. split.
        -- intros (d' & Hd' & Hbad). exists d'. split; [by apply list_elem_of_further | done].
        -- intros (d' & Hd' & Hbad). apply elem_of_cons in Hd' as [->|Hd'].
           ++ destruct Hbad as [?|(r' & Hr' & Hs')]; congruence.
           ++ by exists d'.
      * split; [|done]. intros _. exists d. split; [apply list_elem_of_here|].
        right. exists r. split; [done|]. intros Hc.
        apply status_eqb_eq in Hc. congruence.
    + split; [|done]. intros _. exists d. split; [apply list_elem_of_here | by left].
Qed.


(** **** [_execute_task]: an attempt that succeeds *)

Lemma attempt_loop_succeeds task (k : nat) :
  ∀ (a m : nat) e s c1 w1 v c2 w2,
    raises_for (action task) k (context s) (world s) = Some (c1, w1) →
    action task c1 w1 = (Returned v, c2, w2) →
    (Z.of_nat (a + k) ≤ retry_count task)%Z →
    attempt_loop task (Z.of_nat <$> seq a (k + S m)) e s
    = (TaskReturn (completed_result task v),
       {| context := c2; world := w2;
          trace := trace s ++ retry_trace (name task) k |}).
Proof.
  induction k as [|k IH]; intros a m e s c1 w1 v c2 w2 Hf Hv Hb.
  - simpl in Hf. injection Hf as <- <-.
    cbn [Nat.add seq fmap list_fmap attempt_loop]. by rewrite Hv.
  - simpl in Hf. change (S k + S m) with (S (k + S m)).
    cbn [seq fmap list_fmap attempt_loop].
    destruct (action task (context s) (world s)) as [[[v'|e'] c'] w'] eqn:Ha; [done|].
    destruct (Z.ltb_spec (Z.of_nat a) (retry_count task)) as [_|Hge]; [|lia].
    rewrite (IH (S a) m None _ c1 w1 v c2 w2); [|done|done|lia].
    unfold retry_trace. simpl. by rewrite <- !app_assoc.
Qed.

Lemma execute_task_succeeds task (k : nat) s c1 w1 v c2 w2 :
  raises_for (action task) k (context s) (world s) = Some (c1, w1) →
  action task c1 w1 = (Returned v, c2, w2) →
  (Z.of_nat k ≤ retry_count task)%Z →
  _execute_task task s
  = (TaskReturn (completed_result task v),
     {| context := c2; world := w2;
        trace := trace s ++ retry_trace (name task) k |}).
Proof.
  intros Hf Hv Hk. unfold _execute_task, range.
  replace (Z.to_nat (retry_count task + 1))
    with (k + S (Z.to_nat (retry_count task) - k)) by lia.
  by apply (attempt_loop_succeeds task k 0 _ None s c1 w1).
Qed.

(** X4.  A task whose action raises [k] times and then returns [v], with
    [k <= retry_count]: [_execute_task] returns a completed result that
    carries [v] and no error; the action was invoked [k + 1] times with a
    sleep of one second after each of the [k] failures; the context and the
    world are those the last invocation left.  In the loop of [execute]
    (dependencies met) the result is recorded under the task's name and the
    context gets the entry for [v] when [v] is truthy. *)
Theorem retried_task_completes (task_name : string) task results (k : nat)
    s c1 w1 v c2 w2 :
  raises_for (action task) k (context s) (world s) = Some (c1, w1) →
  action task c1 w1 = (Returned v, c2, w2) →
  (Z.of_nat k ≤ retry_count task)%Z →
  _execute_task task s
  = (TaskReturn {| task_name := name task; status := COMPLETED;
                   result_data := v; error := None |},
     {| context := c2; world := w2;
        trace := trace s ++ retry_trace (name task) k |})
  ∧ invocations (name task) (retry_trace (name task) k) = S k
  ∧ sleeps (retry_trace (name task) k) = k
  ∧ (_dependencies_met results task = true →
     ∃ s', loop_body task_name task results s
           = (None, od_set results task_name (completed_result task v), s')
       ∧ trace s' = trace s ++ retry_trace (name task) k
       ∧ world s' = w2
       ∧ context s' = if truthy v then <[task_name := v]> c2 else c2).
Proof.
  intros Hf Hv Hk.
  pose proof (execute_task_succeeds task k s c1 w1 v c2 w2 Hf Hv Hk) as Hex.
  split; [exact Hex|].
  split; [apply invocations_retry_trace|]. split; [apply sleeps_retry_trace|].
  intros Hmet. unfold loop_body. rewrite Hmet, Hex. simpl.
  destruct (truthy v); by eexists.
Qed.

(** X5.  With a negative [retry_count] the range of attempts is empty:
    [_execute_task] never invokes the action, touches neither context nor
    trace, and raises [UnboundLocalError] at [str(e)].  In the loop of
    [execute] the exception leaves the loop with the result set as it
    was. *)
Theorem negative_retry_count_never_runs (task_name : string) task results s :
  (retry_count task < 0)%Z →
  _execute_task task s = (TaskRaise (UnboundLocalError "e"), s)
  ∧ (_dependencies_met results task = true →
     loop_body task_name task results s
     = (Some (UnboundLocalError "e"), results, s)
     ∧ ∀ tasks rest, od_get tasks task_name = Some task →
         execute_loop tasks (task_name :: rest) results s
         = (Some (UnboundLocalError "e"), results, s)).
Proof.
  intros Hneg.
  assert (_execute_task task s = (TaskRaise (UnboundLocalError "e"), s)) as Hex.
  { unfold _execute_task, range.
    by replace (Z.to_nat (retry_count task + 1)) with 0 by lia. }
  split; [done|]. intros Hmet.
  assert (loop_body task_name task results s
          = (Some (UnboundLocalError "e"), results, s)) as Hbody.
  { unfold loop_body. by rewrite Hmet, Hex. }
  split; [done|]. intros tasks rest Ht. simpl. by rewrite Ht, Hbody.
Qed.


(** **** The loop of [execute], once more *)

Lemma runner_of_keys_NoDup nm (ts : list (AutomationTask W)) :
  NoDup (od_keys (_tasks (runner_of nm ts))).
Proof.
  induction ts as [|x l IH] using rev_ind; [apply NoDup_nil_2|].
  rewrite runner_of_snoc. by apply od_keys_NoDup_set.
Qed.

Lemma runner_of_name nm (ts : list (AutomationTask W)) :
  runner_name (runner_of nm ts) = nm.
Proof.
  induction ts as [|x l IH] using rev_ind; [done|].
  by rewrite runner_of_snoc.
Qed.

Lemma resolve_order_length tasks order :
  NoDup (od_keys tasks) → _resolve_order tasks = Some order →
  length order = length tasks.
Proof.
  intros Hnd Hr. destruct (resolve_order_inv tasks order Hr) as (Hnd' & Hreg & _).
  rewrite <- (length_fmap fst tasks). apply Permutation_length.
  apply NoDup_Permutation; [done..|].
  intros n. rewrite Hreg. unfold registered. by rewrite od_get_is_Some.
Qed.

Lemma invocations_order nm (order : list string) :
  NoDup order → nm ∈ order → invocations nm (EvInvoke <$> order) = 1.
Proof.
  unfold invocations. induction order as [|k order IH]; intros Hnd Hin.
  - by apply elem_of_nil in Hin.
  - apply NoDup_cons in Hnd as [Hk Hnd]. rewrite fmap_cons, filter_cons. simpl.
    destruct (decide (k = nm)) as [->|Hne].
    + rewrite bool_decide_eq_true_2 by done. simpl. f_equal.
      clear IH Hin Hnd. induction order as [|k order IH]; [done|].
      apply not_elem_of_cons in Hk as [Hne Hk].
      rewrite fmap_cons, filter_cons. simpl.
      rewrite bool_decide_eq_false_2 by done. simpl. by apply IH.
    + rewrite bool_decide_eq_false_2 by done. simpl. apply IH; [done|].
      apply elem_of_cons in Hin as [->|Hin]; done.
Qed.

Lemma count_status_all st (l : list TaskResult) :
  (∀ r, r ∈ l → status r = st) → count_status st l = length l.
Proof.
  unfold count_status. induction l as [|r l IH]; intros Hall; [done|].
  rewrite filter_cons. rewrite decide_True.
  - simpl. f_equal. apply IH. intros r' Hr'. apply Hall. by apply list_elem_of_further.
  - apply status_eqb_eq, Hall, list_elem_of_here.
Qed.

Lemma count_status_none st (l : list TaskResult) :
  (∀ r, r ∈ l → status r ≠ st) → count_status st l = 0.
Proof.
  unfold count_status. induction l as [|r l IH]; intros Hall; [done|].
  rewrite filter_cons. rewrite decide_False.
  - apply IH. intros r' Hr'. apply Hall. by apply list_elem_of_further.
  - rewrite status_eqb_eq. apply Hall, list_elem_of_here.
Qed.

Lemma count_status_two (l : list TaskResult) :
  (∀ r, r ∈ l → status r = COMPLETED ∨ status r = SKIPPED) →
  count_status COMPLETED l + count_status SKIPPED l = length l.
Proof.
  unfold count_status. induction l as [|r l IH]; intros Hall; [done|].
  rewrite !filter_cons. 
  assert (∀ r', r' ∈ l → status r' = COMPLETED ∨ status r' = SKIPPED) as Hl.
  { intros r' Hr'. apply Hall. by apply list_elem_of_further. }
  specialize (IH Hl).
  destruct (Hall r) as [Hs|Hs]; [apply list_elem_of_here|..]; rewrite Hs; simpl; lia.
Qed.

Section Loop.
Context (tasks : odict (AutomationTask W)).
Hypothesis tasks_names : ∀ k t, od_get tasks k = Some t → name t = k.

(** One turn of the loop that does not end in an exception keeps the
    invariant. *)
Lemma loop_body_keeps_inv k rest t results s results1 s1 :
  loop_inv tasks (k :: rest) results s → od_get tasks k = Some t →
  loop_body k t results s = (None, results1, s1) →
  loop_inv tasks rest results1 s1
  ∧ ∃ r, results1 = od_set results k r ∧ stored_result k r.
Proof.
  intros (Hnd & Hrest & Hcl & Hkeys & Hst & Htr) Ht Hbody.
  apply NoDup_cons in Hnd as [Hk_rest Hnd].
  destruct (Hrest k) as [Hk_none _]; [apply list_elem_of_here|].
  assert (∀ r, (status r = COMPLETED → ∀ d, d ∈ depends_on t → completed_in results d) →
            (status r = COMPLETED ∨ r = skipped_result k) →
            ∀ s2, (∀ n, EvInvoke n ∈ trace s2 →
                        EvInvoke n ∈ trace s ∨ (n = k ∧ status r = COMPLETED)) →
            loop_inv tasks rest (od_set results k r) s2) as Hstep.
  { intros r Hdeps Hr s2 Hs2. split; [done|]. split; [|split; [|split; [|split]]].
    - intros k' Hk'. destruct (Hrest k') as [Hn Hreg]; [by apply list_elem_of_further|].
      split; [|done]. rewrite od_get_set_ne; [done|]. by intros ->.
    - intros m r' t' d Hm Hs' Ht' Hd. apply completed_in_set; [done|].
      destruct (decide (k = m)) as [<-|Hne].
      + rewrite od_get_set_eq in Hm. injection Hm as <-.
        rewrite Ht in Ht'. injection Ht' as <-. by apply Hdeps.
      + rewrite od_get_set_ne in Hm by done. by eapply Hcl.
    - intros m Hm. destruct (decide (k = m)) as [<-|Hne]; [by exists t|].
      rewrite od_get_set_ne in Hm by done. by apply Hkeys.
    - intros n r' Hn. destruct (decide (k = n)) as [<-|Hne].
      + rewrite od_get_set_eq in Hn. by injection Hn as <-.
      + rewrite od_get_set_ne in Hn by done. by apply Hst.
    - intros n Hn. destruct (Hs2 n Hn) as [Hold|[-> Hc]].
      + apply completed_in_set; [done | by apply Htr].
      + exists r. by rewrite od_get_set_eq. }
  destruct (loop_body_cases k t results s)
    as [[Hmet Hb]|(Hmet & s2 & tr & Htr1 & Hev & Hb)].
  - rewrite Hb in Hbody. injection Hbody as <- <-.
    split; [|exists (skipped_result k); split; [done | by left]].
    apply Hstep; [done | by right | auto].
  - destruct Hb as [[_ Hb]|(v & s3 & _ & Hb & Htr2 & _)]; rewrite Hb in Hbody; [done|].
    injection Hbody as <- <-. split.
    + apply Hstep; [|by left|].
      * intros _. by apply dependencies_met_true.
      * intros n. rewrite Htr2, Htr1. intros Hn.
        apply elem_of_app in Hn as [Hn|Hn]; [auto|].
        destruct (Hev _ Hn) as [Heq|Heq]; [|done].
        injection Heq as ->. right. split; [by apply tasks_names | done].
    + exists (completed_result t v). split; [done|]. right. exists v.
      unfold completed_result. by rewrite (tasks_names k t Ht).
Qed.

(** However the loop ends, the result set is closed under dependencies;
    when it ends without an exception the keys that were added are the names
    that were processed, in that order, and every result carries the name
    it is stored under. *)
Lemma execute_loop_results (rest : list string) :
  ∀ results s out results' s',
    loop_inv tasks rest results s →
    execute_loop tasks rest results s = (out, results', s') →
    closed tasks results'
    ∧ (out = None →
       od_keys results' = od_keys results ++ rest
       ∧ ((∀ n r, od_get results n = Some r → stored_result n r) →
          ∀ n r, od_get results' n = Some r → stored_result n r)).
Proof.
  induction rest as [|k rest IH];
    intros results s out results' s' Hinv Hrun; simpl in Hrun.
  { injection Hrun as <- <- <-. split; [apply Hinv|].
    intros _. by rewrite app_nil_r. }
  destruct (proj1 (proj2 Hinv) k) as [Hk_none [t Ht]]; [apply list_elem_of_here|].
  rewrite Ht in Hrun.
  destruct (loop_body k t results s) as [[[e|] results1] s1] eqn:Hbody.
  - injection Hrun as <- <- <-.
    destruct (loop_body_cases k t results s)
      as [[_ Hb]|(_ & s2 & tr & _ & _ & [[_ Hb]|(v & s3 & _ & Hb & _)])];
      rewrite Hb in Hbody; try done.
    injection Hbody as _ <- _. split; [apply Hinv | done].
  - destruct (loop_body_keeps_inv _ _ _ _ _ _ _ Hinv Ht Hbody)
      as [Hinv1 (r & -> & Hname)].
    destruct (IH _ _ _ _ _ Hinv1 Hrun) as [Hcl Hfin]. split; [done|].
    intros ->. destruct (Hfin eq_refl) as [Hkeys Hnames]. split.
    + rewrite Hkeys, od_keys_set_new by done. by rewrite <- app_assoc.
    + intros Hn. apply Hnames. intros n r' Hr'.
      destruct (decide (k = n)) as [<-|Hne].
      * rewrite od_get_set_eq in Hr'. by injection Hr' as <-.
      * rewrite od_get_set_ne in Hr' by done. by apply Hn.
Qed.

(** When the order lists every dependency before its dependent and every
    action returns, the loop runs every task once, in that order. *)
Lemma execute_loop_all_complete (order : list string) :
  NoDup order →
  (∀ j n d, order !! j = Some n → dep_edge tasks n d →
     ∃ i, i < j ∧ order !! i = Some d) →
  (∀ k, k ∈ order → ∃ t, od_get tasks k = Some t ∧ always_returns (action t)
                         ∧ (0 ≤ retry_count t)%Z) →
  ∀ rest done results s,
    order = done ++ rest →
    (∀ k, k ∈ done → completed_in results k) →
    (∀ k, k ∈ rest → od_get results k = None) →
    ∃ results' s', execute_loop tasks rest results s = (None, results', s')
      ∧ trace s' = trace s ++ (EvInvoke <$> rest)
      ∧ (∀ k, k ∈ order → completed_in results' k).
Proof.
  intros Hnd Htopo Hgood.
  induction rest as [|k rest IH]; intros done results s Horder Hdone Hrest.
  { exists results, s. split; [done|]. split; [by rewrite app_nil_r|].
    intros k Hk. apply Hdone. by rewrite Horder, app_nil_r in Hk. }
  assert (order !! length done = Some k) as Hk.
  { rewrite Horder. by rewrite list_lookup_middle. }
  destruct (Hgood k) as (t & Ht & Hret & Hrc).
  { by eapply list_elem_of_lookup_2. }
  assert (_dependencies_met results t = true) as Hmet.
  { apply dependencies_met_true. intros d Hd.
    destruct (Htopo (length done) k d Hk) as (i & Hi & Hid); [by exists t|].
    apply Hdone. rewrite Horder, lookup_app_l in Hid by done.
    by eapply list_elem_of_lookup_2. }
  destruct (Hret (context s) (world s)) as (v & c' & w' & Hv).
  pose proof (execute_task_succeeds t 0 s _ _ v c' w' eq_refl Hv Hrc) as Hex.
  assert (∃ s1, loop_body k t results s
                = (None, od_set results k (completed_result t v), s1)
                ∧ trace s1 = trace s ++ [EvInvoke k]) as (s1 & Hbody & Htr1).
  { unfold loop_body. rewrite Hmet, Hex. simpl.
    rewrite <- (tasks_names k t Ht).
    destruct (truthy v); by eexists. }
  destruct (IH (done ++ [k]) (od_set results k (completed_result t v)) s1)
    as (results' & s' & Hloop & Htr & Hall).
  - by rewrite <- app_assoc.
  - intros k' Hk'. apply elem_of_app in Hk' as [Hk'|Hk'].
    + apply completed_in_set; [|by apply Hdone].
      apply Hrest, list_elem_of_here.
    + apply list_elem_of_singleton in Hk' as ->.
      eexists. by rewrite od_get_set_eq.
  - intros k' Hk'. rewrite od_get_set_ne; [by apply Hrest, list_elem_of_further|].
    intros ->. rewrite Horder in Hnd. apply NoDup_app in Hnd as (_ & _ & Hnd).
    by apply NoDup_cons in Hnd as [? _].
  - exists results', s'. split; [|split; [|done]].
    + simpl. by rewrite Ht, Hbody.
    + rewrite Htr, Htr1, <- app_assoc. done.
Qed.

End Loop.

(** What every run on a newly built runner leaves in [_results]. *)
Lemma fresh_run_results nm (ts : list (AutomationTask W)) ctx0 w :
  let tasks := _tasks (runner_of nm ts) in
  let run := execute (runner_of nm ts) ctx0 w in
  closed tasks (run_results run)
  ∧ ∀ wr, run_exit run = Finished wr →
      _resolve_order tasks = Some (od_keys (run_results run))
      ∧ ∀ n r, od_get (run_results run) n = Some r → stored_result n r.
Proof.
  intros tasks run. subst run. unfold execute. fold tasks.
  destruct (resolve_order_total tasks) as [order Horder]. rewrite Horder.
  destruct (resolve_order_inv tasks order Horder) as (Hnd & Hreg & _).
  rewrite runner_of_results.
  set (s0 := {| context := default ∅ ctx0; world := w; trace := [] |}).
  destruct (execute_loop tasks order [] s0) as [[out results] s] eqn:Hloop.
  destruct (execute_loop_results tasks (runner_of_names nm ts) order [] s0
              out results s) as (Hcl & Hfin); [|done|].
  { split; [done|]. split; [|split; [|split; [|split]]].
    - intros k Hk. split; [done | by apply Hreg].
    - intros m r t d Hm. done.
    - intros m [r Hr]. done.
    - intros n r Hr. done.
    - intros n Hn. by apply elem_of_nil in Hn. }
  destruct out as [e|]; simpl; (split; [done|]); intros wr Hwr; [done|].
  destruct (Hfin eq_refl) as [-> Hnames]. split; [done|]. by apply Hnames.
Qed.


(** X1.  A run in which nothing fails.  Take a newly built runner whose
    dependency graph has no cycle, in which every dependency is registered,
    and whose actions return whenever they are invoked (retry counts not
    negative).  Then [execute] returns a [WorkflowResult]; every task was
    invoked exactly once, in the order [_resolve_order] gives, and the
    scheduler never slept; the results are listed in that order and all of
    them are completed; [total_tasks] and [completed] are the number of
    registered tasks, [failed] and [skipped] are 0. *)
Theorem all_tasks_complete nm (ts : list (AutomationTask W)) ctx0 w :
  let tasks := _tasks (runner_of nm ts) in
  let run := execute (runner_of nm ts) ctx0 w in
  acyclic tasks →
  deps_registered tasks →
  (∀ k t, od_get tasks k = Some t →
     always_returns (action t) ∧ (0 ≤ retry_count t)%Z) →
  ∃ order wr,
    _resolve_order tasks = Some order
    ∧ run_exit run = Finished wr
    ∧ trace (run_env run) = EvInvoke <$> order
    ∧ (∀ n, registered tasks n → invocations n (trace (run_env run)) = 1)
    ∧ sleeps (trace (run_env run)) = 0
    ∧ task_name <$> task_results wr = order
    ∧ (∀ r, r ∈ task_results wr → status r = COMPLETED)
    ∧ total_tasks wr = length tasks
    ∧ completed wr = length tasks
    ∧ failed wr = 0
    ∧ skipped wr = 0.
Proof.
  intros tasks run Hac Hdeps Hgood.
  destruct (fresh_run_results nm ts ctx0 w) as [_ Hfin].
  fold tasks in Hfin. fold run in Hfin.
  destruct (resolve_order_total tasks) as [order Horder].
  destruct (resolve_order_inv tasks order Horder) as (Hnd & Hreg & Htopo).
  pose proof (resolve_order_length tasks order (runner_of_keys_NoDup nm ts) Horder)
    as Hlen.
  set (s0 := {| context := default ∅ ctx0; world := w; trace := [] |}).
  destruct (execute_loop_all_complete tasks (runner_of_names nm ts) order Hnd)
    with (rest := order) (done := @nil string) (results := @nil (string * TaskResult))
         (s := s0)
    as (results' & s' & Hloop & Htr & Hall).
  { intros j n d Hj He. apply (Htopo Hac j n d Hj He). by eapply Hdeps. }
  { intros k Hk. apply Hreg in Hk as [t Ht]. exists t. split; [done|]. apply (Hgood k t Ht). }
  { done. }
  { intros k Hk. by apply elem_of_nil in Hk. }
  { done. }
  assert (run = {| run_exit := Finished
                     {| workflow_name := runner_name (runner_of nm ts);
                        total_tasks := length (od_values results');
                        completed := count_status COMPLETED (od_values results');
                        failed := count_status FAILED (od_values results');
                        skipped := count_status SKIPPED (od_values results');
                        task_results := od_values results' |};
                   run_results := results'; run_env := s' |}) as Hrun.
  { subst run. unfold execute. fold tasks. rewrite Horder, runner_of_results.
    fold s0. by rewrite Hloop. }
  destruct (Hfin _ ltac:(by rewrite Hrun)) as [Hkeys Hnames].
  rewrite Hrun in Hkeys, Hnames. simpl in Hkeys, Hnames.
  rewrite Horder in Hkeys. injection Hkeys as Hkeys.
  assert (∀ r, r ∈ od_values results' → status r = COMPLETED) as Hst.
  { intros r Hr. apply od_values_elem_of in Hr as [k Hk].
    assert (k ∈ order) as Hin.
    { rewrite Hkeys. unfold od_keys. apply list_elem_of_fmap. by exists (k, r). }
    destruct (Hall k Hin) as (r' & Hr' & Hs).
    assert (r' = r) as <-; [|done].
    assert (od_get results' k = Some r) as Hr; [|congruence].
    apply od_elem_of_get; [by rewrite <- Hkeys | done]. }
  exists order. eexists. split; [done|]. rewrite Hrun. simpl.
  split; [done|]. split; [by rewrite Htr|].
  split; [intros n Hn; rewrite Htr; simpl; apply invocations_order; [done | by apply Hreg]|].
  split; [rewrite Htr; apply sleeps_invokes|].
  split; [rewrite Hkeys; apply od_values_keys; [by rewrite <- Hkeys|];
          intros k r Hr; by destruct (Hnames k r Hr) as [->|[v ->]]|].
  split; [done|].
  split; [by rewrite od_values_length, <- Hkeys|].
  split; [by rewrite count_status_all, od_values_length, <- Hkeys|].
  split; apply count_status_none; intros r Hr; by rewrite (Hst r Hr).
Qed.


(** X3.  The [WorkflowResult] of a run on a newly built runner, whatever
    the tasks do.  It carries the runner's name; its results are listed in
    the order [_resolve_order] gives, one for each registered task, each
    stored in [_results] under its task's name; every result is either
    completed without an error text or the skipped result; so [failed] is
    0 and [completed + skipped = total_tasks], the number of registered
    tasks.  Every task that was invoked during such a run is recorded as
    completed. *)
Theorem workflow_result_counts nm (ts : list (AutomationTask W)) ctx0 w wr :
  let tasks := _tasks (runner_of nm ts) in
  let run := execute (runner_of nm ts) ctx0 w in
  run_exit run = Finished wr →
  workflow_name wr = nm
  ∧ _resolve_order tasks = Some (task_name <$> task_results wr)
  ∧ total_tasks wr = length tasks
  ∧ failed wr = 0
  ∧ completed wr + skipped wr = total_tasks wr
  ∧ (∀ r, r ∈ task_results wr →
       od_get (run_results run) (task_name r) = Some r
       ∧ ((status r = COMPLETED ∧ error r = None)
          ∨ r = skipped_result (task_name r)))
  ∧ (∀ n, EvInvoke n ∈ trace (run_env run) → completed_in (run_results run) n).
Proof.
  intros tasks run Hwr.
  destruct (fresh_run nm ts ctx0 w) as (_ & _ & _ & Hfin).
  destruct (fresh_run_results nm ts ctx0 w) as [_ Hfin'].
  fold tasks in Hfin, Hfin'. fold run in Hfin, Hfin'.
  destruct (Hfin wr Hwr) as (Hres & (_ & _ & _ & _ & Hst & Htr) & _).
  destruct (Hfin' wr Hwr) as [Horder Hnames].
  destruct (resolve_order_inv tasks _ Horder) as (Hnd & _ & _).
  pose proof (resolve_order_length tasks _ (runner_of_keys_NoDup nm ts) Horder)
    as Hlen.
  assert (∀ k r, od_get (run_results run) k = Some r → task_name r = k) as Hnm.
  { intros k r Hr. by destruct (Hnames k r Hr) as [->|[v ->]]. }
  assert (∀ r, r ∈ task_results wr →
            od_get (run_results run) (task_name r) = Some r) as Hget.
  { intros r Hr. rewrite Hres in Hr. apply od_values_elem_of in Hr as [k Hk].
    pose proof (od_elem_of_get _ _ _ Hnd Hk) as Hr.
    by rewrite (Hnm k r Hr). }
  assert (∀ r, r ∈ task_results wr →
            (status r = COMPLETED ∧ error r = None)
            ∨ r = skipped_result (task_name r)) as Hkind.
  { intros r Hr. specialize (Hget r Hr).
    destruct (Hnames _ _ Hget) as [Hs|[v Hv]]; [by right|].
    left. by rewrite Hv. }
  assert (wr = {| workflow_name := nm;
                  total_tasks := length (task_results wr);
                  completed := count_status COMPLETED (task_results wr);
                  failed := count_status FAILED (task_results wr);
                  skipped := count_status SKIPPED (task_results wr);
                  task_results := task_results wr |}) as Hwr_eq.
  { subst run. unfold execute in Hwr, Hres. fold tasks in Hwr, Hres.
    destruct (_resolve_order tasks) as [o|]; [|done].
    destruct (execute_loop _ _ _ _) as [[[e|] results] s]; [done|].
    simpl in Hwr, Hres. injection Hwr as <-. simpl. by rewrite runner_of_name. }
  assert (task_name <$> task_results wr = od_keys (run_results run)) as Hkeys.
  { rewrite Hres. by apply od_values_keys. }
  assert (∀ r, r ∈ task_results wr → status r = COMPLETED ∨ status r = SKIPPED)
    as Htwo.
  { intros r Hr. destruct (Hkind r Hr) as [[? _]| ->]; auto. }
  rewrite Hwr_eq. cbn [workflow_name total_tasks failed completed skipped task_results].
  split; [done|]. split; [by rewrite Hkeys|].
  split; [by rewrite <- Hlen, <- Hkeys, length_fmap|].
  split; [apply count_status_none; intros r Hr; destruct (Htwo r Hr) as [-> | ->]; done|].
  split; [by apply count_status_two|].
  split; [|done]. intros r Hr. split; auto.
Qed.

(** X2.  Skipping propagates along dependencies.  In a run on a newly built
    runner, a task recorded as completed has everything it reaches along
    dependency edges recorded as completed.  Hence a task that reaches,
    over one or more dependency edges, a name that was never registered, a
    task on a dependency cycle, or anything else that is not recorded as
    completed when the run ends, was never invoked, and it is recorded as
    skipped when [execute] returns its [WorkflowResult]. *)
Theorem unmet_dependency_propagates nm (ts : list (AutomationTask W)) ctx0 w :
  let tasks := _tasks (runner_of nm ts) in
  let run := execute (runner_of nm ts) ctx0 w in
  (∀ n d, tc (dep_edge tasks) n d → completed_in (run_results run) n →
     completed_in (run_results run) d)
  ∧ (∀ n d, tc (dep_edge tasks) n d →
       ¬ registered tasks d ∨ tc (dep_edge tasks) d d
       ∨ ¬ completed_in (run_results run) d →
       (EvInvoke n ∉ trace (run_env run))
       ∧ ∀ wr, run_exit run = Finished wr →
           od_get (run_results run) n = Some (skipped_result n)
           ∧ skipped_result n ∈ task_results wr).
Proof.
  intros tasks run.
  destruct (fresh_run nm ts ctx0 w) as (Hev & Hcomp & Hab & Hfin).
  destruct (fresh_run_results nm ts ctx0 w) as [Hcl _].
  fold tasks in Hev, Hcomp, Hfin, Hcl. fold run in Hev, Hcomp, Hab, Hfin, Hcl.
  assert (∀ n d, tc (dep_edge tasks) n d → completed_in (run_results run) n →
            completed_in (run_results run) d) as Hdown.
  { intros n d Htc Hn.
    eapply (closed_reach tasks); [done | done | by apply tc_rtc]. }
  split; [done|].
  intros n d Htc Hbad.
  assert (¬ completed_in (run_results run) d) as Hnc.
  { destruct Hbad as [Hnr|[Hcyc|Hnc]]; [| |done]; intros Hc; apply Hcomp in Hc.
    - destruct Hc as (_ & t' & _ & _ & _ & Ht' & _). apply Hnr. by exists t'.
    - by apply (cycle_not_runnable tasks d Hcyc). }
  assert (dep_edge tasks n d ∨ ∃ d1, dep_edge tasks n d1 ∧ tc (dep_edge tasks) d1 d)
    as Hfirst.
  { inversion Htc; subst; eauto. }
  split.
  - intros Hn. destruct (Hev n Hn) as [_ Hdeps]. apply Hnc.
    destruct Hfirst as [(t & Ht & Hd)|(d1 & (t & Ht & Hd1) & Htc1)].
    + by apply (Hdeps t).
    + eapply Hdown; [done|]. by apply (Hdeps t).
  - intros wr Hwr. destruct (Hfin wr Hwr) as (Hres & Hinv & Hall).
    destruct (Hall n) as [r Hr].
    { destruct Hfirst as [(t & Ht & _)|(d1 & (t & Ht & _) & _)]; by exists t. }
    destruct Hinv as (_ & _ & _ & _ & Hst & _).
    destruct (Hst n r Hr) as [Hc| ->].
    { exfalso. apply Hnc. eapply Hdown; [done|]. by exists r. }
    split; [done|]. rewrite Hres. by eapply od_get_values.
Qed.

End Run.

(** **** The theorems at work on concrete runners *)

Import Examples.

Lemma retried_task_completes_witness :
  let s0 := {| context := ∅; world := 0; trace := [] |} in
  raises_for flaky_action 2 ∅ 0 = Some (∅, 2)
  ∧ _execute_task (flaky_task 3) s0
    = (TaskReturn {| task_name := "fetch"; status := COMPLETED;
                     result_data := PyStr "ok"; error := None |},
       {| context := ∅; world := 3;
          trace := [EvInvoke "fetch"; EvSleep 1; EvInvoke "fetch"; EvSleep 1;
                    EvInvoke "fetch"] |})
  ∧ invocations "fetch" (retry_trace "fetch" 2) = 3.
Proof.
  intros s0. split; [reflexivity|].
  destruct (retried_task_completes "fetch" (flaky_task 3) [] 2 s0 ∅ 2 (PyStr "ok") ∅ 3
              eq_refl eq_refl ltac:(simpl; lia)) as (Hex & Hinv & _).
  split; [exact Hex | exact Hinv].
Defined.

Lemma negative_retry_count_never_runs_witness :
  let s0 := {| context := ∅; world := 0; trace := [] |} in
  (retry_count (flaky_task (-1)) < 0)%Z
  ∧ _execute_task (flaky_task (-1)) s0 = (TaskRaise (UnboundLocalError "e"), s0)
  ∧ execute_loop [("fetch", flaky_task (-1))] ["fetch"] [] s0
    = (Some (UnboundLocalError "e"), [], s0).
Proof.
  intros s0.
  assert (retry_count (flaky_task (-1)) < 0)%Z as Hneg by (simpl; lia).
  split; [exact Hneg|].
  destruct (negative_retry_count_never_runs "fetch" (flaky_task (-1)) [] s0 Hneg)
    as [Hex Hloop].
  split; [exact Hex|].
  destruct (Hloop eq_refl) as [_ Hall].
  exact (Hall [("fetch", flaky_task (-1))] [] eq_refl).
Defined.

Lemma chain_acyclic : acyclic (_tasks chain_runner).
Proof.
  apply (acyclic_by_rank _ chain_rank).
  intros n d (t & Ht & Hd).
  change (_tasks chain_runner)
    with [("export", task "export" (returns (PyInt 3)) ["scrape"; "login"] 0);
          ("scrape", task "scrape" (returns (PyStr "rows")) ["login"] 1);
          ("login", task "login" (returns (PyBool true)) [] 0)] in Ht.
  simpl in Ht. repeat case_decide; simplify_eq; simpl in Hd;
    set_unfold; intuition subst; vm_compute; lia.
Qed.

Lemma chain_tasks k t :
  od_get (_tasks chain_runner) k = Some t →
  t = task "export" (returns (PyInt 3)) ["scrape"; "login"] 0
  ∨ t = task "scrape" (returns (PyStr "rows")) ["login"] 1
  ∨ t = task "login" (returns (PyBool true)) [] 0.
Proof.
  change (_tasks chain_runner)
    with [("export", task "export" (returns (PyInt 3)) ["scrape"; "login"] 0);
          ("scrape", task "scrape" (returns (PyStr "rows")) ["login"] 1);
          ("login", task "login" (returns (PyBool true)) [] 0)].
  simpl. intros Ht. repeat case_decide; simplify_eq; auto.
Qed.

Lemma all_tasks_complete_witness :
  let run := execute chain_runner None tt in
  acyclic (_tasks chain_runner)
  ∧ deps_registered (_tasks chain_runner)
  ∧ trace (run_env run)
    = [EvInvoke "login"; EvInvoke "scrape"; EvInvoke "export"]
  ∧ ∃ wr, run_exit run = Finished wr
      ∧ task_name <$> task_results wr = ["login"; "scrape"; "export"]
      ∧ completed wr = 3 ∧ failed wr = 0 ∧ skipped wr = 0.
Proof.
  intros run.
  assert (deps_registered (_tasks chain_runner)) as Hdeps.
  { intros n d (t & Ht & Hd).
    destruct (chain_tasks n t Ht) as [-> | [-> | ->]]; simpl in Hd;
      rewrite ?elem_of_cons in Hd;
      repeat (destruct Hd as [->|Hd]; [by eexists|]); by apply elem_of_nil in Hd. }
  split; [exact chain_acyclic|]. split; [exact Hdeps|].
  destruct (all_tasks_complete "workflow"
              [task "export" (returns (PyInt 3)) ["scrape"; "login"] 0;
               task "scrape" (returns (PyStr "rows")) ["login"] 1;
               task "login" (returns (PyBool true)) [] 0] None tt
              chain_acyclic Hdeps)
    as (order & wr & Horder & Hexit & Htr & _ & _ & Hnames & _ & _ & Hc & Hf & Hs).
  { intros k t Ht. destruct (chain_tasks k t Ht) as [-> | [-> | ->]];
      (split; [intros c w; by eexists _, _, _ | simpl; lia]). }
  vm_compute in Horder. injection Horder as <-.
  split; [exact Htr|]. exists wr. split; [exact Hexit|].
  split; [exact Hnames|]. split; [exact Hc|]. split; [exact Hf | exact Hs].
Defined.

Lemma workflow_result_counts_witness :
  ∃ wr, run_exit (execute cyclic_runner None tt) = Finished wr
    ∧ task_name <$> task_results wr = ["C"; "B"; "A"]
    ∧ total_tasks wr = 3 ∧ failed wr = 0
    ∧ completed wr + skipped wr = 3.
Proof.
  destruct (run_exit (execute cyclic_runner None tt)) as [wr|e] eqn:Hexit;
    [|vm_compute in Hexit; discriminate Hexit].
  exists wr. split; [reflexivity|].
  destruct (workflow_result_counts "workflow"
              [task "C" (returns (PyInt 1)) [] 0;
               task "A" (returns (PyInt 2)) ["B"] 0;
               task "B" (returns (PyInt 3)) ["A"] 0] None tt wr Hexit)
    as (_ & Horder & Htotal & Hfailed & Hsum & _).
  vm_compute in Horder. injection Horder as Horder.
  split; [symmetry; exact Horder|]. split; [exact Htotal|].
  split; [exact Hfailed|]. rewrite Hsum. exact Htotal.
Defined.

Lemma unmet_dependency_propagates_witness :
  let run := execute layered_runner None tt in
  tc (dep_edge (_tasks layered_runner)) "D" "Z"
  ∧ ¬ registered (_tasks layered_runner) "Z"
  ∧ (EvInvoke "D" ∉ trace (run_env run))
  ∧ od_get (run_results run) "D" = Some (skipped_result "D").
Proof.
  intros run.
  assert (tc (dep_edge (_tasks layered_runner)) "D" "Z") as Htc.
  { apply (tc_l _ _ "A").
    - eexists. split; [reflexivity|]. apply list_elem_of_here.
    - apply tc_once. eexists. split; [reflexivity|].
      apply list_elem_of_further, list_elem_of_here. }
  assert (¬ registered (_tasks layered_runner) "Z") as HZ.
  { intros [t Ht]. vm_compute in Ht. discriminate. }
  split; [exact Htc|]. split; [exact HZ|].
  destruct (unmet_dependency_propagates "workflow"
              [task "D" (returns (PyInt 4)) ["A"] 0;
               task "A" (returns (PyInt 1)) ["B"; "Z"] 0;
               task "B" (returns (PyInt 2)) [] 0] None tt) as [_ H].
  destruct (H "D" "Z" Htc (or_introl HZ)) as [Hnot Hfin].
  split; [exact Hnot|]. eapply Hfin. reflexivity.
Defined.

Lemma sorted_registration_is_kept_witness :
  _resolve_order (_tasks pipeline_runner) = Some ["login"; "scrape"; "export"]
  ∧ _resolve_order (_tasks chain_runner) = Some ["login"; "scrape"; "export"].
Proof.
  split; [|reflexivity].
  apply (sorted_registration_is_kept (_tasks pipeline_runner)).
  - vm_compute. repeat constructor; set_solver.
  - intros i k t d Hi Ht Hd.
    destruct i as [|[|[|i]]]; [| | |discriminate Hi];
      injection Hi as <-; injection Ht as <-; simpl in Hd;
      rewrite ?elem_of_cons in Hd.
    + by apply elem_of_nil in Hd.
    + destruct Hd as [->|Hd]; [|by apply elem_of_nil in Hd].
      exists 0. split; [lia | reflexivity].
    + destruct Hd as [->|[->|Hd]]; [| |by apply elem_of_nil in Hd].
      * exists 1. split; [lia | reflexivity].
      * exists 0. split; [lia | reflexivity].
Defined.

Lemma add_task_last_wins_witness :
  let twice := [task "A" (returns (PyInt 1)) [] 0;
                task "B" (returns (PyInt 2)) [] 0] in
  let again := task "A" (returns (PyInt 9)) ["B"] 0 in
  od_keys (_tasks (runner_of "workflow" (twice ++ [again]))) = ["A"; "B"]
  ∧ od_get (_tasks (runner_of "workflow" (twice ++ [again]))) "A" = Some again.
Proof.
  intros twice again.
  destruct (add_task_last_wins "workflow" twice again) as (_ & Hget & _ & Hkeys & _).
  split; [exact Hkeys | exact Hget].
Defined.

End TaskExtra.

Module ProxyExtra.
Import Proxy ProxyProofs.

Implicit Types (p q : ProxyInfo) (ps : list ProxyInfo) (pool : ProxyRotation)
  (u : string) (o : op).

Lemma pool_eta pool :
  {| _proxies := _proxies pool; check_url := check_url pool;
     check_interval := check_interval pool; max_failures := max_failures pool;
     _index := _index pool; rotations := rotations pool;
     failures := failures pool |} = pool.
Proof. by destruct pool. Qed.

Lemma run_cons pool o ops : run pool (o :: ops) = run (step pool o) ops.
Proof. done. Qed.

Lemma step_pool_size o pool : pool_size (step pool o) = pool_size pool.
Proof.
  pose proof (f_equal length (step_urls o pool)) as H.
  unfold urls in H. by rewrite !length_fmap in H.
Qed.

Lemma healthy_count_le ps : healthy_count ps ≤ length ps.
Proof. unfold healthy_count. apply length_filter. Qed.

(** X12.  [report_failure] and [report_success] for a url that no record
    of the pool has change nothing: no record, no counter, and no error. *)
Theorem report_unknown_url_is_noop u pool :
  u ∉ urls pool →
  report_failure u pool = pool ∧ report_success u pool = pool.
Proof.
  intros Hu. unfold report_failure, report_success.
  destruct (update_first_cases (fail_once (max_failures pool)) u (_proxies pool))
    as [[_ ->]|(i & p & Hp & Hup & _)].
  2:{ exfalso. apply Hu. unfold urls. apply list_elem_of_fmap. exists p.
      split; [done | by eapply list_elem_of_lookup_2]. }
  destruct (update_first_cases succeed u (_proxies pool))
    as [[_ ->]|(i & p & Hp & Hup & _)].
  2:{ exfalso. apply Hu. unfold urls. apply list_elem_of_fmap. exists p.
      split; [done | by eapply list_elem_of_lookup_2]. }
  split; apply pool_eta.
Qed.

(** X14.  The counters, over any history of operations.  [failures] has
    grown by the number of [report_failure] calls for a url of the pool
    (failed health probes are not counted there); [rotations] has grown by
    the number of [get_next] calls that returned a proxy; [pool_size] never
    changes; [stats] lists the four entries rotations, failures, pool_size
    and healthy in this order, and healthy never exceeds pool_size. *)
Theorem stats_count_calls pool ops :
  failures (run pool ops)
  = failures pool + length (filter (λ o, is_known_failure pool o = true) ops)
  ∧ rotations (run pool ops)
    = rotations pool + length (filter is_Some (served pool ops))
  ∧ pool_size (run pool ops) = pool_size pool
  ∧ stats (run pool ops)
    = [("rotations", Z.of_nat (rotations (run pool ops)));
       ("failures", Z.of_nat (failures (run pool ops)));
       ("pool_size", Z.of_nat (pool_size pool));
       ("healthy", Z.of_nat (healthy_count (_proxies (run pool ops))))]
  ∧ healthy_count (_proxies (run pool ops)) ≤ pool_size pool.
Proof.
  assert (pool_size (run pool ops) = pool_size pool) as Hsize.
  { pose proof (f_equal length (run_urls ops pool)) as H.
    unfold urls in H. by rewrite !length_fmap in H. }
  split; [|split; [|split; [done|split]]].
  - clear Hsize. induction ops as [|o ops IH] using rev_ind; [simpl; lia|].
    rewrite run_snoc, filter_app, length_app, Nat.add_assoc, <- IH.
    rewrite filter_cons, filter_nil.
    destruct o as [strategy rnd now|u|u|probes|j r]; simpl; try lia.
    + unfold get_next. destruct (healthy _); [simpl; lia|].
      repeat case_decide; simpl; lia.
    + unfold report_failure.
      destruct (update_first_cases (fail_once (max_failures (run pool ops))) u
                  (_proxies (run pool ops)))
        as [[Hnin ->]|(i & p & Hp & Hup & _ & ->)]; simpl.
      * rewrite bool_decide_eq_false_2; [simpl; lia|].
        by rewrite <- (run_urls ops).
      * rewrite bool_decide_eq_true_2; [simpl; lia|].
        rewrite <- (run_urls ops). unfold urls. apply list_elem_of_fmap.
        exists p. split; [done | by eapply list_elem_of_lookup_2].
  - clear Hsize. revert pool.
    induction ops as [|o ops IH]; intros pool; [simpl; lia|].
    rewrite run_cons, IH. cbn [served]. rewrite filter_app, length_app.
    destruct o as [strategy rnd now|u|u|probes|j r]; simpl; try lia.
    + unfold get_next. destruct (healthy _); [simpl; lia|].
      repeat case_decide; simpl; lia.
    + unfold report_failure. destruct (update_first _ _ _). simpl. lia.
  - unfold stats. by rewrite Hsize.
  - rewrite <- Hsize. apply healthy_count_le.
Qed.


(** **** Round robin *)

Lemma filter_all {A} (P : A → Prop) `{∀ x, Decision (P x)} (l : list A) :
  (∀ x, x ∈ l → P x) → filter P l = l.
Proof.
  induction l as [|x l IH]; intros Hall; [done|].
  rewrite filter_cons_True by apply Hall, list_elem_of_here.
  f_equal. apply IH. intros y Hy. by apply Hall, list_elem_of_further.
Qed.

Lemma healthy_all ps :
  (∀ p, p ∈ ps → is_healthy p = true) → healthy ps = imap pair ps.
Proof.
  intros Hall. unfold healthy. apply filter_all.
  intros [i p] Hip. apply elem_of_lookup_imap in Hip as (j & q & [= -> ->] & Hq).
  simpl. apply Hall. by eapply list_elem_of_lookup_2.
Qed.

Lemma get_next_round_robin strategy rnd now pool :
  all_healthy pool → 0 < pool_size pool →
  strategy ≠ "random" → strategy ≠ "least_used" →
  ∃ p, _proxies pool !! (_index pool `mod` pool_size pool) = Some p
    ∧ get_next strategy rnd now pool
      = (Some (url p),
         {| _proxies := <[_index pool `mod` pool_size pool := touch now p]>
                          (_proxies pool);
            check_url := check_url pool;
            check_interval := check_interval pool;
            max_failures := max_failures pool;
            _index := S (_index pool `mod` pool_size pool);
            rotations := S (rotations pool);
            failures := failures pool |}).
Proof.
  intros Hall Hn Hr Hl. unfold pool_size in *.
  set (i := _index pool `mod` length (_proxies pool)).
  assert (i < length (_proxies pool)) as Hi by by apply Nat.mod_upper_bound, Nat.neq_0_lt_0.
  destruct (lookup_lt_is_Some_2 _ _ Hi) as [p Hp]. exists p. split; [done|].
  unfold get_next. rewrite (healthy_all _ Hall).
  destruct (imap pair (_proxies pool)) as [|h0 hs] eqn:Hh.
  { apply (f_equal length) in Hh. rewrite length_imap in Hh. simpl in Hh. lia. }
  rewrite !decide_False by done.
  assert (length (h0 :: hs) = length (_proxies pool)) as Hlen.
  { by rewrite <- Hh, length_imap. }
  rewrite Hlen. fold i.
  assert (nth i (h0 :: hs) h0 = (i, p)) as ->; [|done].
  apply nth_lookup_Some. by rewrite <- Hh, list_lookup_imap, Hp.
Qed.

Lemma get_next_keeps_health strategy rnd now pool :
  all_healthy pool → all_healthy (get_next strategy rnd now pool).2.
Proof.
  intros Hall p' Hp'.
  destruct (get_next_cases strategy rnd now pool)
    as [[_ Heq]|(i & p & Hip & _ & Heq & _)]; rewrite Heq in Hp'.
  - by apply Hall.
  - apply elem_of_healthy in Hip as [Hp Hh].
    apply list_elem_of_lookup in Hp' as [j Hj].
    destruct (decide (i = j)) as [<-|Hne].
    + rewrite list_lookup_insert_eq in Hj by by eapply lookup_lt_Some.
      by injection Hj as <-.
    + rewrite list_lookup_insert_ne in Hj by done.
      apply Hall. by eapply list_elem_of_lookup_2.
Qed.

Lemma get_next_other_index strategy rnd now pool :
  strategy = "random" ∨ strategy = "least_used" →
  _index (get_next strategy rnd now pool).2 = _index pool.
Proof.
  intros Hs. unfold get_next. destruct (healthy _); [done|].
  destruct Hs as [-> | ->]; [by rewrite decide_True|].
  rewrite decide_False by done. by rewrite decide_True.
Qed.

Lemma round_robin_history pool ops :
  all_healthy pool → 0 < pool_size pool →
  (∀ o, o ∈ ops → is_get_next o = true) →
  all_healthy (run pool ops)
  ∧ _index (run pool ops) `mod` pool_size pool
    = (_index pool + length (filter (λ o, is_round_robin o = true) ops))
        `mod` pool_size pool.
Proof.
  intros Hall Hn. induction ops as [|o ops IH] using rev_ind; intros Hops.
  { split; [done|]. simpl. by rewrite Nat.add_0_r. }
  destruct IH as [Hall' Hidx].
  { intros o' Ho'. apply Hops, elem_of_app. auto. }
  assert (is_get_next o = true) as Ho.
  { apply Hops, elem_of_app. right. apply list_elem_of_here. }
  destruct o as [strategy rnd now| | | |]; try done.
  rewrite run_snoc. simpl. split; [by apply get_next_keeps_health|].
  rewrite filter_app, length_app, filter_cons, filter_nil. simpl.
  assert (pool_size (run pool ops) = pool_size pool) as Hsize.
  { pose proof (f_equal length (run_urls ops pool)) as H.
    unfold urls in H. by rewrite !length_fmap in H. }
  destruct (decide (strategy ≠ "random" ∧ strategy ≠ "least_used")) as [[H1 H2]|Hno].
  - rewrite bool_decide_eq_true_2 by done. simpl.
    destruct (get_next_round_robin strategy rnd now (run pool ops))
      as (p & _ & ->); [done | lia | done | done |]. simpl.
    rewrite Hsize, Hidx.
    replace (S ((_index pool + length (filter (λ o, is_round_robin o = true) ops))
                `mod` pool_size pool))
      with ((_index pool + length (filter (λ o, is_round_robin o = true) ops))
              `mod` pool_size pool + 1) by lia.
    rewrite Nat.Div0.add_mod_idemp_l. f_equal. lia.
  - rewrite bool_decide_eq_false_2 by done. simpl. rewrite Nat.add_0_r.
    rewrite get_next_other_index; [done|].
    destruct (decide (strategy = "random")); [auto|].
    destruct (decide (strategy = "least_used")); [auto|]. exfalso. auto.
Qed.

(** X9.  Round robin.  In a pool with at least one record, all of them
    healthy, after any sequence of [get_next] calls [k] of which used the
    round-robin strategy (any strategy string other than ["random"] and
    ["least_used"]), the next round-robin call returns the url at position
    [(_index + k) mod pool_size] of the pool: the calls walk through the
    pool in list order and wrap around, and calls with the other two
    strategies do not move the cursor. *)
Theorem round_robin_cycles pool ops strategy rnd now :
  all_healthy pool →
  0 < pool_size pool →
  (∀ o, o ∈ ops → is_get_next o = true) →
  strategy ≠ "random" → strategy ≠ "least_used" →
  (get_next strategy rnd now (run pool ops)).1
  = urls pool
      !! ((_index pool + length (filter (λ o, is_round_robin o = true) ops))
            `mod` pool_size pool)
  ∧ is_Some (get_next strategy rnd now (run pool ops)).1.
Proof.
  intros Hall Hn Hops H1 H2.
  destruct (round_robin_history pool ops Hall Hn Hops) as [Hall' Hidx].
  assert (pool_size (run pool ops) = pool_size pool) as Hsize.
  { pose proof (f_equal length (run_urls ops pool)) as H.
    unfold urls in H. by rewrite !length_fmap in H. }
  destruct (get_next_round_robin strategy rnd now (run pool ops))
    as (p & Hp & ->); [done | lia | done | done |]. simpl.
  split; [|done]. rewrite Hsize, Hidx in Hp.
  rewrite <- (run_urls ops pool). unfold urls. by rewrite list_lookup_fmap, Hp.
Qed.


(** **** Health checks *)

Lemma sweep_healthy_bound maxf probes ps :
  length ps - failed_probes probes (length ps)
  ≤ healthy_count (imap (λ i p, _check_single maxf (probes i) p) ps).
Proof.
  induction ps as [|p ps IH] using rev_ind; [done|].
  rewrite imap_app, healthy_count_app, length_app. simpl.
  rewrite Nat.add_0_r, Nat.add_1_r, failed_probes_S.
  unfold healthy_count at 2. rewrite filter_cons, filter_nil.
  destruct (probes (length ps)) as [lat now|now]; cbn [_check_single probe_ok].
  - rewrite decide_True by done. simpl. lia.
  - case_decide; simpl; lia.
Qed.

(** X15.  The report of [health_check], for any pool and any outcome of
    the probes.  The two counts are not negative and add up to [pool_size];
    [unhealthy] is at most the number of probes that failed; [healthy] is
    the number of health flags set afterwards, the value [stats] shows
    under ["healthy"]; the urls and the two counters are untouched, and
    every record carries the time of its probe in [last_checked]. *)
Theorem health_check_report probes pool :
  let rep := (health_check probes pool).1 in
  let pool' := (health_check probes pool).2 in
  (hr_healthy rep + hr_unhealthy rep = Z.of_nat (pool_size pool))%Z
  ∧ (0 ≤ hr_healthy rep)%Z
  ∧ (0 ≤ hr_unhealthy rep ≤ Z.of_nat (failed_probes probes (pool_size pool)))%Z
  ∧ hr_healthy rep = Z.of_nat (healthy_count (_proxies pool'))
  ∧ Py.od_get (stats pool') "healthy" = Some (hr_healthy rep)
  ∧ Py.od_get (stats pool') "pool_size" = Some (Z.of_nat (pool_size pool))
  ∧ urls pool' = urls pool
  ∧ rotations pool' = rotations pool ∧ failures pool' = failures pool
  ∧ ∀ i p', _proxies pool' !! i = Some p' →
      last_checked p' = match probes i with
                        | ProbeOk _ now | ProbeFailed now => now
                        end.
Proof.
  intros rep pool'. subst rep pool'. unfold health_check, pool_size. simpl.
  rewrite length_imap.
  pose proof (sweep_healthy_bound (max_failures pool) probes (_proxies pool)) as Hlo.
  pose proof (healthy_count_le
                (imap (λ i p, _check_single (max_failures pool) (probes i) p)
                   (_proxies pool))) as Hhi.
  rewrite length_imap in Hhi.
  pose proof (failed_probes_le probes (length (_proxies pool))) as Hf.
  split; [lia|]. split; [lia|]. split; [lia|]. split; [done|].
  split; [done|]. split; [unfold stats, pool_size; simpl; by rewrite length_imap|].
  split; [apply (step_urls (HealthCheck probes) pool)|].
  split; [done|]. split; [done|].
  intros i p' Hp'. rewrite list_lookup_imap in Hp'.
  destruct (_proxies pool !! i) as [p|]; [|done]. injection Hp' as <-.
  by destruct (probes i).
Qed.

Lemma failing_sweeps_count pool (sweeps : list (nat → probe)) :
  (∀ probes i, probes ∈ sweeps → i < pool_size pool →
     probe_ok (probes i) = false) →
  ∀ i p, _proxies pool !! i = Some p →
    ∃ p', _proxies (run pool (HealthCheck <$> sweeps)) !! i = Some p'
      ∧ fail_count p' = fail_count p + length sweeps
      ∧ (0 < length sweeps →
         (max_failures pool ≤ Z.of_nat (fail_count p'))%Z →
         is_healthy p' = false).
Proof.
  intros Hfail i p Hp. induction sweeps as [|probes sweeps IH] using rev_ind.
  { exists p. split; [done|]. split; [simpl; lia|]. simpl. lia. }
  destruct IH as (p1 & Hp1 & Hfc & _).
  { intros probes' j Hin. apply Hfail, elem_of_app. auto. }
  rewrite fmap_app. cbn [fmap list_fmap]. rewrite run_snoc. simpl.
  rewrite list_lookup_imap, Hp1. simpl. eexists. split; [done|].
  assert (probe_ok (probes i) = false) as Hbad.
  { apply Hfail; [apply elem_of_app; right; apply list_elem_of_here|].
    unfold pool_size. by eapply lookup_lt_Some. }
  destruct (probes i) as [lat now|now]; [done|]. simpl.
  rewrite length_app, run_max_failures. simpl. split; [lia|].
  intros _ Hge.
  destruct (Z.geb_spec (Z.of_nat (S (fail_count p1))) (max_failures pool)); [done | lia].
Qed.

(** X16.  After [k >= 1] health checks in a row in which every probe
    fails, with [k >= max_failures], every record of the pool is
    unhealthy whatever its state was before; the last of these checks
    reports 0 healthy and [pool_size] unhealthy; and [get_next] returns
    [None] under every strategy, leaving the pool as it is. *)
Theorem failing_sweeps_take_pool_down pool (sweeps : list (nat → probe)) :
  (∀ probes i, probes ∈ sweeps → i < pool_size pool →
     probe_ok (probes i) = false) →
  0 < length sweeps →
  (max_failures pool ≤ Z.of_nat (length sweeps))%Z →
  let pool' := run pool (HealthCheck <$> sweeps) in
  (∀ p, p ∈ _proxies pool' → is_healthy p = false)
  ∧ healthy_count (_proxies pool') = 0
  ∧ (∀ init final, sweeps = init ++ [final] →
       (health_check final (run pool (HealthCheck <$> init))).1
       = {| hr_healthy := 0; hr_unhealthy := Z.of_nat (pool_size pool) |})
  ∧ ∀ strategy rnd now, get_next strategy rnd now pool' = (None, pool').
Proof.
  intros Hfail Hpos Hmax pool'.
  assert (∀ p, p ∈ _proxies pool' → is_healthy p = false) as Hdown.
  { intros p' Hp'. apply list_elem_of_lookup in Hp' as [i Hi].
    assert (is_Some (_proxies pool !! i)) as [p Hp].
    { apply lookup_lt_is_Some. apply lookup_lt_Some in Hi.
      pose proof (f_equal length (run_urls (HealthCheck <$> sweeps) pool)) as H.
      unfold urls in H. rewrite !length_fmap in H. fold pool' in H. lia. }
    destruct (failing_sweeps_count pool sweeps Hfail i p Hp) as (p1 & Hp1 & Hfc & Hh).
    fold pool' in Hp1. rewrite Hi in Hp1. injection Hp1 as <-.
    apply Hh; lia. }
  assert (healthy_count (_proxies pool') = 0) as Hzero.
  { unfold healthy_count. apply length_zero_iff_nil.
    destruct (filter _ _) as [|x l] eqn:Hf; [done|].
    assert (x ∈ filter (λ p, is_healthy p = true) (_proxies pool')) as Hx.
    { rewrite Hf. apply list_elem_of_here. }
    apply list_elem_of_filter in Hx as [Hh Hx]. rewrite (Hdown x Hx) in Hh. done. }
  split; [done|]. split; [done|]. split.
  - intros init final ->. subst pool'.
    rewrite fmap_app in Hzero. cbn [fmap list_fmap] in Hzero.
    rewrite run_snoc in Hzero. simpl in Hzero.
    unfold health_check. simpl. rewrite Hzero, length_imap.
    pose proof (f_equal length (run_urls (HealthCheck <$> init) pool)) as H.
    unfold urls in H. rewrite !length_fmap in H. unfold pool_size. rewrite H.
    f_equal. lia.
  - intros strategy rnd now. unfold get_next.
    by rewrite (proj2 (healthy_nil _) Hdown).
Qed.

(** **** What [get_next] leaves alone *)

(** X10.  What [get_next] changes.  When it returns [None] the pool is
    unchanged.  When it returns a url, [rotations] goes up by one.  In both
    cases [failures], [max_failures], the urls and their order stay; no
    record changes its health flag, [fail_count], latency or
    [last_checked]; the only field that can change is [last_used], which
    becomes the current time on a healthy record whose url is the one
    returned; and of any two records at most one is changed. *)
Theorem get_next_touches_one_stamp strategy rnd now pool :
  let res := (get_next strategy rnd now pool).1 in
  let pool' := (get_next strategy rnd now pool).2 in
  (res = None → pool' = pool)
  ∧ (is_Some res → rotations pool' = S (rotations pool))
  ∧ failures pool' = failures pool
  ∧ max_failures pool' = max_failures pool
  ∧ urls pool' = urls pool
  ∧ (∀ i p, _proxies pool !! i = Some p →
       ∃ p', _proxies pool' !! i = Some p'
         ∧ is_healthy p' = is_healthy p ∧ fail_count p' = fail_count p
         ∧ latency_ms p' = latency_ms p ∧ last_checked p' = last_checked p
         ∧ (last_used p' = last_used p
            ∨ (last_used p' = now ∧ is_healthy p = true ∧ res = Some (url p))))
  ∧ (∀ i j p q, i ≠ j →
       _proxies pool !! i = Some p → _proxies pool !! j = Some q →
       _proxies pool' !! i = Some p ∨ _proxies pool' !! j = Some q).
Proof.
  intros res pool'. subst res pool'.
  pose proof (step_urls (GetNext strategy rnd now) pool) as Hurls. simpl in Hurls.
  assert (failures (get_next strategy rnd now pool).2 = failures pool
          ∧ (is_Some (get_next strategy rnd now pool).1 →
             rotations (get_next strategy rnd now pool).2 = S (rotations pool)))
    as [Hf Hr].
  { unfold get_next. destruct (healthy _); [split; [done | by intros [? ?]]|].
    repeat case_decide; done. }
  destruct (get_next_cases strategy rnd now pool)
    as [[_ Heq]|(i & p & Hip & Hres & Heq & Hmax)].
  - rewrite Heq. simpl. split; [done|]. split; [by intros [? ?]|].
    split; [done|]. split; [done|]. split; [done|]. split; [|auto].
    intros i p Hp. exists p. by repeat split; auto.
  - apply elem_of_healthy in Hip as [Hp Hh].
    split; [by rewrite Hres|]. split; [done|]. split; [done|]. split; [done|].
    split; [done|]. rewrite Heq. split.
    + intros j q Hq. destruct (decide (i = j)) as [<-|Hne].
      * rewrite Hp in Hq. injection Hq as <-. exists (touch now p).
        split; [apply list_lookup_insert_eq; by eapply lookup_lt_Some|].
        simpl. repeat split; auto.
      * exists q. rewrite list_lookup_insert_ne by done. repeat split; auto.
    + intros a b pa pb Hab Ha Hb.
      destruct (decide (i = a)) as [<-|Hne].
      * right. by rewrite list_lookup_insert_ne.
      * left. by rewrite list_lookup_insert_ne.
Qed.

(** **** Least used *)

Lemma get_next_least_used_min rnd now pool :
  healthy (_proxies pool) ≠ [] →
  ∃ i p, _proxies pool !! i = Some p ∧ is_healthy p = true
    ∧ (∀ j q, _proxies pool !! j = Some q → is_healthy q = true →
         (last_used p ≤ last_used q)%Z)
    ∧ (get_next "least_used" rnd now pool).1 = Some (url p)
    ∧ _proxies (get_next "least_used" rnd now pool).2
      = <[i := touch now p]> (_proxies pool).
Proof.
  intros Hne. unfold get_next.
  destruct (healthy (_proxies pool)) as [|h0 hs] eqn:Hh; [done|].
  rewrite decide_False by done. rewrite decide_True by done.
  destruct (min_last_used_split hs h0) as (l1 & l2 & Heq & Hlt & Hle).
  destruct (min_last_used h0 hs) as [i p] eqn:Hm. simpl in *.
  assert ((i, p) ∈ healthy (_proxies pool)) as Hip.
  { rewrite Hh, Heq. apply elem_of_app. right. apply list_elem_of_here. }
  apply elem_of_healthy in Hip as [Hi Hp].
  exists i, p. split; [done|]. split; [done|]. split; [|done].
  intros j q Hj Hq.
  assert ((j, q) ∈ healthy (_proxies pool)) as Hjq by by apply elem_of_healthy.
  rewrite Hh, Heq in Hjq. apply elem_of_app in Hjq as [Hjq|Hjq].
  - specialize (Hlt _ Hjq). simpl in Hlt. lia.
  - apply elem_of_cons in Hjq as [[= -> ->]|Hjq]; [lia|].
    specialize (Hle _ Hjq). simpl in Hle. done.
Qed.

(** X11.  The least-used strategy does not pick the same record twice in
    a row.  In a pool with at least two healthy records, when the time of
    the first call is later than every healthy record's [last_used], two
    successive calls of [get_next("least_used")] return the urls of two
    different healthy records; with pairwise distinct urls in the pool the
    two urls differ. *)
Theorem least_used_does_not_repeat rnd1 now1 rnd2 now2 pool :
  (∃ a b pa pb, a ≠ b ∧ _proxies pool !! a = Some pa ∧ _proxies pool !! b = Some pb
     ∧ is_healthy pa = true ∧ is_healthy pb = true) →
  (∀ p, p ∈ _proxies pool → is_healthy p = true → (last_used p < now1)%Z) →
  let pool1 := (get_next "least_used" rnd1 now1 pool).2 in
  ∃ i j p q, i ≠ j
    ∧ _proxies pool !! i = Some p ∧ is_healthy p = true
    ∧ _proxies pool !! j = Some q ∧ is_healthy q = true
    ∧ (get_next "least_used" rnd1 now1 pool).1 = Some (url p)
    ∧ (get_next "least_used" rnd2 now2 pool1).1 = Some (url q)
    ∧ (NoDup (urls pool) → url p ≠ url q).
Proof.
  intros (a & b & pa & pb & Hab & Ha & Hb & Hha & Hhb) Hclock pool1.
  assert (healthy (_proxies pool) ≠ []) as Hne.
  { intros Hnil. rewrite (proj1 (healthy_nil _) Hnil pa) in Hha; [done|].
    by eapply list_elem_of_lookup_2. }
  destruct (get_next_least_used_min rnd1 now1 pool Hne)
    as (i & p & Hi & Hp & _ & Hres1 & Hps1).
  fold pool1 in Hps1.
  (* some healthy record other than [i] *)
  assert (∃ c pc, c ≠ i ∧ _proxies pool !! c = Some pc ∧ is_healthy pc = true)
    as (c & pc & Hci & Hc & Hhc).
  { destruct (decide (a = i)) as [->|Hai]; [exists b, pb | exists a, pa]; auto. }
  assert (_proxies pool1 !! c = Some pc) as Hc1.
  { rewrite Hps1. by rewrite list_lookup_insert_ne. }
  assert (_proxies pool1 !! i = Some (touch now1 p)) as Hi1.
  { rewrite Hps1. apply list_lookup_insert_eq. by eapply lookup_lt_Some. }
  assert (healthy (_proxies pool1) ≠ []) as Hne1.
  { intros Hnil. rewrite (proj1 (healthy_nil _) Hnil pc) in Hhc; [done|].
    by eapply list_elem_of_lookup_2. }
  destruct (get_next_least_used_min rnd2 now2 pool1 Hne1)
    as (j & q' & Hj & Hq' & Hmin & Hres2 & _).
  assert (i ≠ j) as Hij.
  { intros <-. rewrite Hi1 in Hj. injection Hj as <-.
    specialize (Hmin c pc Hc1 Hhc). simpl in Hmin.
    assert (last_used pc < now1)%Z; [|lia].
    apply Hclock; [by eapply list_elem_of_lookup_2 | done]. }
  assert (_proxies pool !! j = Some q') as Hj0.
  { rewrite Hps1, list_lookup_insert_ne in Hj; done. }
  exists i, j, p, q'. repeat (split; [done|]).
  intros Hnd Hu. apply Hij. eapply NoDup_lookup; [exact Hnd|..];
    unfold urls; rewrite list_lookup_fmap.
  - by rewrite Hi.
  - by rewrite Hj0, Hu.
Qed.

(** **** [report_success] after [report_failure] *)

Lemma update_first_twice (f g : ProxyInfo → ProxyInfo) u ps :
  (∀ p, url (f p) = url p) →
  (update_first g u (update_first f u ps).1).1 = (update_first (g ∘ f) u ps).1.
Proof.
  intros Hf. induction ps as [|p ps IH]; [done|]. simpl.
  destruct (decide (url p = u)) as [Hu|Hu]; simpl.
  - rewrite decide_True by by rewrite Hf. done.
  - destruct (update_first f u ps) as [ps1 b1].
    destruct (update_first (g ∘ f) u ps) as [ps2 b2]. simpl in *.
    rewrite decide_False by done.
    destruct (update_first g u ps1) as [ps3 b3]. simpl in *. by f_equal.
Qed.

Lemma update_first_ext (f g : ProxyInfo → ProxyInfo) u ps :
  (∀ p, f p = g p) → update_first f u ps = update_first g u ps.
Proof.
  intros Hfg. induction ps as [|p ps IH]; [done|]. simpl.
  rewrite IH, Hfg. done.
Qed.

(** X13.  [report_success(u)] after any number [k] of [report_failure(u)]
    calls leaves the records exactly as [report_success(u)] alone would:
    the failures are forgotten.  [report_success] is idempotent.  Only the
    [failures] counter remembers: it has grown by [k] when the pool has the
    url, and by 0 otherwise; [rotations] and the round-robin cursor are
    untouched. *)
Theorem report_success_undoes_failures u pool (k : nat) :
  let failed := run pool (replicate k (ReportFailure u)) in
  _proxies (report_success u failed) = _proxies (report_success u pool)
  ∧ report_success u (report_success u pool) = report_success u pool
  ∧ failures (report_success u failed)
    = failures pool + (if bool_decide (u ∈ urls pool) then k else 0)
  ∧ rotations (report_success u failed) = rotations pool
  ∧ _index (report_success u failed) = _index pool.
Proof.
  intros failed. subst failed.
  assert (∀ pool, report_success u (report_success u pool) = report_success u pool)
    as Hidem.
  { intros pl. unfold report_success, set_proxies. simpl. f_equal.
    rewrite update_first_twice by done. by apply f_equal, update_first_ext. }
  split; [|split; [done|]].
  - induction k as [|k IH] using nat_ind; [done|].
    rewrite replicate_S_end, run_snoc, <- IH. cbn [step].
    set (pl := run pool (replicate k (ReportFailure u))).
    unfold report_success, report_failure. simpl.
    destruct (update_first (fail_once (max_failures pl)) u (_proxies pl))
      as [ps1 b1] eqn:H1. simpl.
    change ps1 with (ps1, b1).1. rewrite <- H1.
    rewrite update_first_twice by done. by apply f_equal, update_first_ext.
  - induction k as [|k IH].
    { simpl. split; [|done]. destruct (bool_decide _); lia. }
    rewrite replicate_S_end, run_snoc.
    destruct IH as (IH1 & IH2 & IH3). simpl in IH1, IH2, IH3.
    set (pl := run pool (replicate k (ReportFailure u))) in *.
    simpl. unfold report_failure.
    destruct (update_first_cases (fail_once (max_failures pl)) u (_proxies pl))
      as [[Hnin ->]|(i & p & Hp & Hup & _ & ->)]; simpl.
    + split; [|done]. rewrite IH1.
      rewrite bool_decide_eq_false_2; [done|].
      by rewrite <- (run_urls (replicate k (ReportFailure u))).
    + split; [|done]. rewrite IH1.
      rewrite bool_decide_eq_true_2; [lia|].
      rewrite <- (run_urls (replicate k (ReportFailure u))). unfold urls.
      apply list_elem_of_fmap. exists p.
      split; [done | by eapply list_elem_of_lookup_2].
Qed.

(** **** The theorems at work on concrete pools *)

Import Examples.

Lemma report_unknown_url_is_noop_witness :
  ("http://10.9.9.9:8080" ∉ urls pair_pool)
  ∧ report_failure "http://10.9.9.9:8080" pair_pool = pair_pool
  ∧ stats (report_failure "http://10.9.9.9:8080" pair_pool) = stats pair_pool.
Proof.
  assert ("http://10.9.9.9:8080" ∉ urls pair_pool) as Hno.
  { intros Hin.
    change (urls pair_pool)
      with ["http://10.0.0.1:8080"; "http://10.0.0.2:8080"] in Hin.
    rewrite !elem_of_cons in Hin.
    destruct Hin as [Hin|[Hin|Hin]]; [discriminate Hin | discriminate Hin|].
    by apply elem_of_nil in Hin. }
  split; [exact Hno|].
  destruct (report_unknown_url_is_noop _ _ Hno) as [Hf _].
  split; [exact Hf|]. by rewrite Hf.
Defined.

Lemma abc_all_healthy : all_healthy abc_pool.
Proof.
  intros p Hp.
  change (_proxies abc_pool)
    with [new_proxy "http://a:80"; new_proxy "http://b:80"; new_proxy "http://c:80"]
    in Hp.
  rewrite !elem_of_cons in Hp.
  destruct Hp as [->|[->|[->|Hp]]]; [done..|]. by apply elem_of_nil in Hp.
Qed.

Lemma round_robin_cycles_witness :
  let calls := [GetNext "round_robin" 0 10; GetNext "random" 2 11;
                GetNext "round_robin" 0 12; GetNext "least_used" 0 13;
                GetNext "round_robin" 0 14; GetNext "round_robin" 0 15] in
  all_healthy abc_pool
  ∧ served abc_pool [GetNext "round_robin" 0 10; GetNext "round_robin" 0 11;
                     GetNext "round_robin" 0 12]
    = [Some "http://a:80"; Some "http://b:80"; Some "http://c:80"]
  ∧ (get_next "round_robin" 0 20 (run abc_pool calls)).1 = Some "http://b:80".
Proof.
  intros calls. split; [exact abc_all_healthy|]. split; [reflexivity|].
  destruct (round_robin_cycles abc_pool calls "round_robin" 0 20 abc_all_healthy)
    as [Heq _].
  - vm_compute. lia.
  - intros o Ho. unfold calls in Ho. rewrite !elem_of_cons in Ho.
    destruct Ho as [->|[->|[->|[->|[->|[->|Ho]]]]]]; [done..|].
    by apply elem_of_nil in Ho.
  - done.
  - done.
  - rewrite Heq. reflexivity.
Defined.

Lemma failing_sweeps_take_pool_down_witness :
  let dead := λ _ : nat, ProbeFailed 50 in
  let sweeps := [dead; dead] in
  (∀ p, p ∈ _proxies (run pair_pool (HealthCheck <$> sweeps)) → is_healthy p = false)
  ∧ (health_check dead (run pair_pool [HealthCheck dead])).1
    = {| hr_healthy := 0; hr_unhealthy := 2 |}
  ∧ (health_check dead pair_pool).1 = {| hr_healthy := 2; hr_unhealthy := 0 |}
  ∧ (get_next "round_robin" 0 60 (run pair_pool (HealthCheck <$> sweeps))).1 = None.
Proof.
  intros dead sweeps.
  destruct (failing_sweeps_take_pool_down pair_pool sweeps)
    as (Hdown & _ & Hrep & Hnone).
  - intros probes i Hin _. unfold sweeps in Hin. rewrite !elem_of_cons in Hin.
    destruct Hin as [->|[->|Hin]]; [done | done|]. by apply elem_of_nil in Hin.
  - simpl. lia.
  - by vm_compute.
  - split; [exact Hdown|]. split; [exact (Hrep [dead] dead eq_refl)|].
    split; [reflexivity|]. by rewrite Hnone.
Defined.

Lemma get_next_touches_one_stamp_witness :
  let pool' := (get_next "least_used" 0 1000 aged_pool).2 in
  (last_used <$> _proxies pool') = [50%Z; 1000%Z; 30%Z]
  ∧ (is_healthy <$> _proxies pool') = (is_healthy <$> _proxies aged_pool)
  ∧ rotations pool' = 1.
Proof.
  intros pool'.
  destruct (get_next_touches_one_stamp "least_used" 0 1000 aged_pool)
    as (_ & Hrot & _ & _ & _ & Hrec & _).
  split; [reflexivity|]. split; [reflexivity|].
  apply Hrot. by eexists.
Defined.

Lemma least_used_does_not_repeat_witness :
  let pool1 := (get_next "least_used" 0 1000 aged_pool).2 in
  (get_next "least_used" 0 1000 aged_pool).1 = Some "http://10.0.0.2:8080"
  ∧ (get_next "least_used" 0 1001 pool1).1 = Some "http://10.0.0.3:8080"
  ∧ (get_next "least_used" 0 1000 aged_pool).1
    ≠ (get_next "least_used" 0 1001 pool1).1.
Proof.
  intros pool1. split; [reflexivity|]. split; [reflexivity|].
  destruct (least_used_does_not_repeat 0 1000 0 1001 aged_pool)
    as (i & j & p & q & Hij & Hi & _ & Hj & _ & -> & Hq & Hnd).
  - exists 0, 1. eexists _, _. split; [done|]. repeat split; reflexivity.
  - intros p Hp _. unfold aged_pool in Hp. cbn [_proxies] in Hp.
    rewrite !elem_of_cons in Hp.
    destruct Hp as [->|[->|[->|Hp]]]; [by vm_compute..|]. by apply elem_of_nil in Hp.
  - fold pool1 in Hq. rewrite Hq. intros [= Hu]. revert Hu. apply Hnd.
    vm_compute. repeat constructor; set_solver.
Defined.

End ProxyExtra.

Module WaitExtra.
Import Py Wait WaitProofs.

Section Retry.
Context {W num : Type} (mul : num → num → num).
Implicit Types (action : W → outcome * W) (w : W) (tr : list (event num)).

Lemma fails_or_succeeds action (n : nat) :
  ∀ w le,
    (∃ k v last w1 w_end, k < n ∧ fails_for action k w le = Some (last, w1)
       ∧ action w1 = (Returned v, w_end))
    ∨ (∃ last w_end, fails_for action n w le = Some (last, w_end)).
Proof.
  induction n as [|n IH]; intros w le.
  - right. by exists le, w.
  - destruct (action w) as [[v|e] w1] eqn:Ha.
    + left. exists 0, v, le, w, w1. split; [lia|]. done.
    + destruct (IH w1 (Some e)) as [(k & v & last & w2 & w_end & Hk & Hf & Hv)
                                   |(last & w_end & Hf)].
      * left. exists (S k), v, last, w2, w_end. split; [lia|].
        simpl. by rewrite Ha.
      * right. exists last, w_end. simpl. by rewrite Ha.
Qed.

(** X17.  Every way [retry_until] can end, for any action.  The action is
    invoked at most [max_retries] times; the waits are [delay], multiplied
    by [backoff] each time, one after each attempt but the last.  When the
    call returns [v], the action failed on all invocations but the last,
    which returned [v].  When the call raises, the action was invoked
    exactly [max_retries] times (never, for [max_retries <= 0]) and failed
    each time; the exception is that of the last invocation, and for
    [max_retries <= 0] the [TypeError] of [raise None]. *)
Theorem retry_until_outcomes action (max_retries : Z) (delay backoff : num)
    w out w' tr :
  retry_until mul action max_retries delay backoff w = (out, w', tr) →
  calls tr ≤ Z.to_nat max_retries
  ∧ sleeps tr = backoff_delay mul delay backoff <$> seq 0 (calls tr - 1)
  ∧ match out with
    | Returned v =>
        0 < calls tr ∧ fails_then_succeeds action (calls tr - 1) w v w'
    | Raised e =>
        calls tr = Z.to_nat max_retries
        ∧ ((0 < max_retries)%Z →
           fails_for action (Z.to_nat max_retries) w None = Some (Some e, w'))
        ∧ ((max_retries ≤ 0)%Z →
           e = TypeError "exceptions must derive from BaseException"
           ∧ w' = w ∧ tr = [])
    end.
Proof.
  intros Hrun.
  destruct (fails_or_succeeds action (Z.to_nat max_retries) w None)
    as [(k & v & last & w1 & w_end & Hk & Hf & Hv)|(last & w_end & Hf)].
  - assert (retry_until mul action max_retries delay backoff w
            = (Returned v, w_end, failed_attempts mul delay backoff k ++ [EvCall]))
      as Heq.
    { unfold retry_until, range.
      replace (Z.to_nat max_retries) with (k + S (Z.to_nat max_retries - S k))
        by lia.
      rewrite (retry_loop_failures mul action max_retries backoff k 0 _ None
                 delay w [] last w1 Hf) by lia.
      simpl. by rewrite Hv. }
    rewrite Heq in Hrun. injection Hrun as <- <- <-.
    rewrite calls_failed_attempts, sleeps_failed_attempts.
    replace (S k - 1) with k by lia.
    split; [lia|]. split; [done|]. split; [lia|]. by exists last, w1.
  - destruct (Z.to_nat max_retries) as [|n] eqn:Hn.
    + rewrite retry_until_no_attempt in Hrun by lia.
      injection Hrun as <- <- <-. split; [done|]. split; [done|].
      split; [done|]. split; [lia|]. done.
    + destruct (fails_for_split action n w None last w_end Hf)
        as (l1 & w1 & e & Hf1 & Ha & ->).
      assert (retry_until mul action max_retries delay backoff w
              = (Raised e, w_end, failed_attempts mul delay backoff n ++ [EvCall]))
        as Heq.
      { unfold retry_until, range. rewrite Hn.
        replace (S n) with (n + 1) at 1 by lia.
        rewrite (retry_loop_failures mul action max_retries backoff n 0 _ None
                   delay w [] l1 w1 Hf1) by lia.
        simpl. rewrite Ha.
        by destruct (Z.ltb_spec (Z.of_nat n) (max_retries - 1)) as [Hlt|_]; [lia|]. }
      rewrite Heq in Hrun. injection Hrun as <- <- <-.
      rewrite calls_failed_attempts, sleeps_failed_attempts.
      replace (S n - 1) with n by lia.
      split; [lia|]. split; [done|]. split; [done|]. split; [done | lia].
Qed.

End Retry.

Section DomStable.
Context {W num : Type}.
Context (content : W → (string + pyexn) * W) (clock : W → num * W)
  (pause : num → W → W).
Context (polls_of : num → Z + pyexn) (zero : num) (is_zero : num → bool)
  (sub : num → num → num) (geb : num → num → bool).

Implicit Types (tr ext : list (dom_event num)).

Lemma dom_polls_app tr1 tr2 : dom_polls (tr1 ++ tr2) = dom_polls tr1 + dom_polls tr2.
Proof. unfold dom_polls. by rewrite filter_app, length_app. Qed.

Lemma dom_sleeps_app tr1 tr2 :
  dom_sleeps (tr1 ++ tr2) = dom_sleeps tr1 + dom_sleeps tr2.
Proof. unfold dom_sleeps. by rewrite filter_app, length_app. Qed.

Lemma dom_loop_counts (n : nat) (poll stab : num) :
  ∀ prev since w tr out w' tr',
    dom_loop content clock pause zero is_zero sub geb n poll stab prev since w tr
    = (out, w', tr') →
    ∃ ext, tr' = tr ++ ext
      ∧ dom_polls ext ≤ n
      ∧ (∀ d, DomSleep d ∈ ext → d = poll)
      ∧ match out with
        | Returned v =>
            (v = PyBool true ∧ dom_sleeps ext + 1 = dom_polls ext)
            ∨ (v = PyBool false ∧ dom_polls ext = n ∧ dom_sleeps ext = n)
        | Raised e => dom_sleeps ext = dom_polls ext
        end.
Proof.
  induction n as [|n IH]; intros prev since w tr out w' tr' Hrun; simpl in Hrun.
  { injection Hrun as <- <- <-. exists []. rewrite app_nil_r.
    split; [done|]. split; [done|]. split; [|by right].
    intros d Hd. by apply elem_of_nil in Hd. }
  destruct (content w) as [[cur|e] w1].
  2:{ injection Hrun as <- <- <-. exists []. rewrite app_nil_r.
      split; [done|]. split; [unfold dom_polls; simpl; lia|]. split; [|done].
      intros d Hd. by apply elem_of_nil in Hd. }
  assert (∀ pre prev1 since1 w2,
            dom_polls pre = 1 → dom_sleeps pre = 1 →
            (∀ d, DomSleep d ∈ pre → d = poll) →
            dom_loop content clock pause zero is_zero sub geb n poll stab
              prev1 since1 w2 (tr ++ pre) = (out, w', tr') →
            ∃ ext, tr' = tr ++ ext
              ∧ dom_polls ext ≤ S n
              ∧ (∀ d, DomSleep d ∈ ext → d = poll)
              ∧ match out with
                | Returned v =>
                    (v = PyBool true ∧ dom_sleeps ext + 1 = dom_polls ext)
                    ∨ (v = PyBool false ∧ dom_polls ext = S n ∧ dom_sleeps ext = S n)
                | Raised e => dom_sleeps ext = dom_polls ext
                end) as Hrec.
  { intros pre prev1 since1 w2 Hp Hs Hd Hrun'.
    destruct (IH _ _ _ _ _ _ _ Hrun') as (ext & -> & Hle & Hsl & Hout).
    exists (pre ++ ext). rewrite app_assoc. split; [done|].
    rewrite dom_polls_app, dom_sleeps_app, Hp, Hs.
    split; [lia|]. split.
    - intros d Hin. apply elem_of_app in Hin as [Hin|Hin]; auto.
    - destruct out as [v|e]; [|lia].
      destruct Hout as [[-> Hc]|(-> & Hc1 & Hc2)]; [left | right]; split; auto; lia. }
  assert (∀ (h : string) (t d : num), 
            DomSleep d ∈ [DomContent h; DomClock t; DomSleep poll] → d = poll) as Hd3.
  { intros h t d Hin. rewrite !elem_of_cons in Hin.
    destruct Hin as [?|[?|[[= ->]|Hin]]]; try done. by apply elem_of_nil in Hin. }
  destruct (String.eqb cur prev).
  - destruct (is_zero since).
    + destruct (clock w1) as [t w2]. rewrite <- app_assoc in Hrun.
      by apply (Hrec [DomContent cur; DomClock t; DomSleep poll] _ _ _
                  eq_refl eq_refl (Hd3 cur t)) in Hrun.
    + destruct (clock w1) as [t w2]. destruct (geb (sub t since) stab).
      * injection Hrun as <- <- <-. exists [DomContent cur; DomClock t].
        rewrite <- app_assoc. split; [done|].
        split; [unfold dom_polls; simpl; lia|]. split; [|by left].
        intros d Hin. rewrite !elem_of_cons in Hin.
        destruct Hin as [?|[?|Hin]]; try done. by apply elem_of_nil in Hin.
      * rewrite <- app_assoc in Hrun.
        by apply (Hrec [DomContent cur; DomClock t; DomSleep poll] _ _ _
                  eq_refl eq_refl (Hd3 cur t)) in Hrun.
  - rewrite <- app_assoc in Hrun.
    apply (Hrec [DomContent cur; DomSleep poll] _ _ _ eq_refl eq_refl) in Hrun;
      [done|].
    intros d Hin. rewrite !elem_of_cons in Hin.
    destruct Hin as [?|[[= ->]|Hin]]; try done. by apply elem_of_nil in Hin.
Qed.

(** X18.  The polling of [wait_for_dom_stable].  Let [n] be the value of
    [int(30 / poll_interval)]; when that expression raises, the call raises
    the same exception without touching the page.  Otherwise the page is
    polled at most [n] times, and every sleep lasts [poll_interval].  When
    the call returns [False], the page was polled exactly [n] times, each
    poll followed by a sleep.  When it returns [True], every poll but the
    last was followed by a sleep.  When [page.content()] raises, the
    exception is passed on, every earlier poll having been followed by a
    sleep. *)
Theorem dom_stable_polls_bounded (poll_interval stability_time : num)
    w out w' tr :
  wait_for_dom_stable content clock pause polls_of zero is_zero sub geb
    poll_interval stability_time w = (out, w', tr) →
  match polls_of poll_interval with
  | inr e => out = Raised e ∧ w' = w ∧ tr = []
  | inl n =>
      dom_polls tr ≤ Z.to_nat n
      ∧ (∀ d, DomSleep d ∈ tr → d = poll_interval)
      ∧ match out with
        | Returned v =>
            (v = PyBool true ∧ dom_sleeps tr + 1 = dom_polls tr)
            ∨ (v = PyBool false ∧ dom_polls tr = Z.to_nat n
               ∧ dom_sleeps tr = Z.to_nat n)
        | Raised e => dom_sleeps tr = dom_polls tr
        end
  end.
Proof.
  unfold Wait.wait_for_dom_stable. intros Hrun.
  destruct (polls_of poll_interval) as [n|e].
  - destruct (dom_loop_counts _ _ _ _ _ _ _ _ _ _ Hrun) as (ext & -> & H).
    exact H.
  - by injection Hrun as <- <- <-.
Qed.

Lemma dom_loop_true (n : nat) (poll stab : num) :
  is_zero zero = true →
  ∀ prev since w tr w' tr',
    (is_zero since = false →
     ∃ tr0 mid, tr = tr0 ++ [DomContent prev; DomClock since; DomSleep poll] ++ mid
       ∧ ∀ h, DomContent h ∈ mid → h = prev) →
    dom_loop content clock pause zero is_zero sub geb n poll stab prev since w tr
    = (Returned (PyBool true), w', tr') →
    ∃ tr0 h t0 mid t1,
      tr' = tr0 ++ [DomContent h; DomClock t0; DomSleep poll] ++ mid
                ++ [DomContent h; DomClock t1]
      ∧ is_zero t0 = false
      ∧ geb (sub t1 t0) stab = true
      ∧ ∀ h', DomContent h' ∈ mid → h' = h.
Proof.
  intros Hzero.
  induction n as [|n IH]; intros prev since w tr w' tr' Hinv Hrun; simpl in Hrun;
    [done|].
  destruct (content w) as [[cur|e] w1]; [|done].
  destruct (String.eqb_spec cur prev) as [->|Hne].
  - destruct (is_zero since) eqn:Hsince.
    + destruct (clock w1) as [t w2]. eapply IH; [|exact Hrun].
      intros Ht. exists tr, []. split; [by rewrite <- !app_assoc|].
      intros h Hh. by apply elem_of_nil in Hh.
    + destruct (Hinv eq_refl) as (tr0 & mid & -> & Hmid).
      destruct (clock w1) as [t w2]. destruct (geb (sub t since) stab) eqn:Hge.
      * injection Hrun as <- <-. exists tr0, prev, since, mid, t.
        split; [by rewrite <- !app_assoc|]. done.
      * eapply IH; [|exact Hrun].
        intros _. exists tr0, (mid ++ [DomContent prev; DomClock t; DomSleep poll]).
        split; [by rewrite <- !app_assoc|].
        intros h Hh. apply elem_of_app in Hh as [Hh|Hh]; [auto|].
        rewrite !elem_of_cons in Hh.
        destruct Hh as [[= ->]|[?|[?|Hh]]]; try done. by apply elem_of_nil in Hh.
  - eapply IH; [|exact Hrun]. intros Hz. congruence.
Qed.

(** X19.  What [True] from [wait_for_dom_stable] stands for.  There were
    two polls that returned the same markup [h], at times [t0] (not 0) and
    [t1] with [t1 - t0 >= stability_time]; every poll between them
    returned [h] as well; the second of the two is the last event of the
    call.  So the page was polled at least twice, and [int(30 /
    poll_interval)] is at least 2.  (The only fact about the numbers that
    is used is that [0 == 0] holds.) *)
Theorem dom_stable_true_is_sound (poll_interval stability_time : num) w w' tr :
  is_zero zero = true →
  wait_for_dom_stable content clock pause polls_of zero is_zero sub geb
    poll_interval stability_time w
  = (Returned (PyBool true), w', tr) →
  ∃ tr0 h t0 mid t1,
    tr = tr0 ++ [DomContent h; DomClock t0; DomSleep poll_interval] ++ mid
             ++ [DomContent h; DomClock t1]
    ∧ is_zero t0 = false
    ∧ geb (sub t1 t0) stability_time = true
    ∧ (∀ h', DomContent h' ∈ mid → h' = h)
    ∧ 2 ≤ dom_polls tr
    ∧ ∃ n, polls_of poll_interval = inl n ∧ (2 ≤ n)%Z.
Proof.
  intros Hzero Hrun.
  unfold Wait.wait_for_dom_stable in Hrun.
  destruct (polls_of poll_interval) as [n|e]; [|done].
  destruct (dom_loop_counts _ _ _ _ _ _ _ _ _ _ Hrun) as (ext & Hext & Hle & _).
  simpl in Hext. subst ext.
  destruct (dom_loop_true (Z.to_nat n) poll_interval stability_time Hzero
              "" zero w [] w' tr)
    as (tr0 & h & t0 & mid & t1 & -> & Ht0 & Hge & Hmid); [|done|].
  { intros Hz. rewrite Hzero in Hz. discriminate. }
  assert (2 ≤ dom_polls (tr0 ++ [DomContent h; DomClock t0; DomSleep poll_interval]
                           ++ mid ++ [DomContent h; DomClock t1])) as Hpolls.
  { rewrite !dom_polls_app.
    change (dom_polls [DomContent h; DomClock t0; DomSleep poll_interval]) with 1.
    change (dom_polls [DomContent h; DomClock t1]) with 1. lia. }
  exists tr0, h, t0, mid, t1. repeat (split; [done|]).
  exists n. split; [done|]. lia.
Qed.

End DomStable.

(** **** The theorems at work on a page over the integers *)

Import Examples.

Lemma retry_until_outcomes_witness :
  retry_until Z.mul flaky 3 1%Z 2%Z 0
  = (Returned (PyStr "ok"), 3, [EvCall; EvSleep 1%Z; EvCall; EvSleep 2%Z; EvCall])
  ∧ fails_then_succeeds flaky 2 0 (PyStr "ok") 3
  ∧ fails_for hopeless 2 tt None = Some (Some (ActionError "permanent error"), tt).
Proof.
  split; [reflexivity|].
  destruct (retry_until_outcomes Z.mul flaky 3 1%Z 2%Z 0 _ _ _ eq_refl)
    as (_ & _ & _ & Hf).
  split; [exact Hf|].
  destruct (retry_until_outcomes Z.mul hopeless 2 1%Z 2%Z tt _ _ _ eq_refl)
    as (_ & _ & _ & Hraise & _).
  apply Hraise. lia.
Defined.

Lemma dom_stable_polls_bounded_witness :
  let wait := wait_for_dom_stable (page_content busy_page) page_clock page_pause
                page_polls 0%Z (Z.eqb 0) Z.sub Z.geb in
  (∃ w' tr, wait 3%Z 2%Z 1000%Z = (Returned (PyBool false), w', tr)
     ∧ dom_polls tr = 10 ∧ dom_sleeps tr = 10)
  ∧ wait 0%Z 2%Z 1000%Z = (Raised (ActionError "division by zero"), 1000%Z, []).
Proof.
  intros wait. split.
  - destruct (wait 3%Z 2%Z 1000%Z) as [[out w'] tr] eqn:Hrun.
    pose proof (dom_stable_polls_bounded _ _ _ _ _ _ _ _ _ _ _ _ _ _ Hrun) as Hb.
    vm_compute in Hrun. injection Hrun as <- <- <-.
    eexists _, _. split; [reflexivity|].
    destruct Hb as (_ & _ & [[Hv _]|(_ & Hp & Hs)]); [discriminate Hv|].
    split; [exact Hp | exact Hs].
  - destruct (wait 0%Z 2%Z 1000%Z) as [[out w'] tr] eqn:Hrun.
    pose proof (dom_stable_polls_bounded _ _ _ _ _ _ _ _ _ _ _ _ _ _ Hrun) as Hb.
    destruct Hb as (-> & -> & ->). reflexivity.
Defined.

Lemma dom_stable_true_is_sound_witness :
  let wait := wait_for_dom_stable (page_content still_page) page_clock page_pause
                page_polls 0%Z (Z.eqb 0) Z.sub Z.geb in
  wait 1%Z 2%Z 1000%Z
  = (Returned (PyBool true), 1003%Z,
     [DomContent "<html></html>"; DomSleep 1%Z;
      DomContent "<html></html>"; DomClock 1001%Z; DomSleep 1%Z;
      DomContent "<html></html>"; DomClock 1002%Z; DomSleep 1%Z;
      DomContent "<html></html>"; DomClock 1003%Z])
  ∧ ∃ n, page_polls 1 = inl n ∧ (2 ≤ n)%Z.
Proof.
  intros wait. split; [reflexivity|].
  destruct (dom_stable_true_is_sound (page_content still_page) page_clock page_pause
              page_polls 0%Z (Z.eqb 0) Z.sub Z.geb 1%Z 2%Z 1000%Z 1003%Z _
              eq_refl eq_refl)
    as (tr0 & h & t0 & mid & t1 & _ & _ & _ & _ & _ & Hn).
  exact Hn.
Defined.

End WaitExtra.

Module BrowserExtra.
Import Py Proxy ProxyProofs ProxyExtra Browser.

Implicit Types (pool : ProxyRotation).

(** X20.  The proxy option of [Browser.launch].  Without a rotation, and
    with a rotation none of whose records is healthy (an empty pool among
    them), the browser is launched with the option [headless] only: no
    proxy is set, no error is raised, and the rotation is left as it was.
    When the option ["proxy"] is set, its server is the non-empty url of a
    record that was healthy at the time.  And when some record is healthy
    and no url of the pool is empty, the option is set, to the url the
    round-robin [get_next] returns. *)
Theorem launch_without_healthy_proxy_is_direct headless now :
  launch headless None now = ([("headless", OptFlag headless)], None)
  ∧ (∀ pool, (∀ p, p ∈ _proxies pool → is_healthy p = false) →
       launch headless (Some pool) now
       = ([("headless", OptFlag headless)], Some pool))
  ∧ (∀ pool v, od_get (launch headless (Some pool) now).1 "proxy" = Some v →
       ∃ i p, _proxies pool !! i = Some p ∧ is_healthy p = true
         ∧ url p ≠ "" ∧ v = OptProxy (url p))
  ∧ (∀ pool, (∃ p, p ∈ _proxies pool ∧ is_healthy p = true) →
       (∀ u, u ∈ urls pool → u ≠ "") →
       ∃ u, launch headless (Some pool) now
            = ([("headless", OptFlag headless); ("proxy", OptProxy u)],
               Some (get_next "round_robin" 0 now pool).2)
         ∧ (get_next "round_robin" 0 now pool).1 = Some u).
Proof.
  split; [done|]. split; [|split].
  - intros pool Hall. unfold launch, get_next.
    by rewrite (proj2 (healthy_nil _) Hall).
  - intros pool v. unfold launch.
    destruct (get_next_cases "round_robin" 0 now pool)
      as [[_ ->]|(i & p & Hip & Hres & _)]; [done|].
    destruct (get_next "round_robin" 0 now pool) as [res pool']. simpl in Hres.
    subst res. apply elem_of_healthy in Hip as [Hp Hh].
    destruct (String.eqb_spec (url p) "") as [Hu|Hu]; simpl; [done|].
    intros [= <-]. by exists i, p.
  - intros pool (q & Hq & Hhq) Hurls. unfold launch.
    destruct (get_next_cases "round_robin" 0 now pool)
      as [[Hnil _]|(i & p & Hip & Hres & _)].
    { rewrite (proj1 (healthy_nil _) Hnil q Hq) in Hhq. done. }
    destruct (get_next "round_robin" 0 now pool) as [res pool']. simpl in *.
    subst res. apply elem_of_healthy in Hip as [Hp Hh].
    destruct (String.eqb_spec (url p) "") as [Hu|Hu]; simpl.
    + exfalso. apply (Hurls (url p)); [|done]. unfold urls.
      apply list_elem_of_fmap. exists p. split; [done|].
      by eapply list_elem_of_lookup_2.
    + by exists (url p).
Qed.


Lemma launch_rotation headless pool now :
  (launch headless (Some pool) now).2
  = Some (step pool (GetNext "round_robin" 0 now)).
Proof.
  unfold launch. simpl.
  destruct (get_next "round_robin" 0 now pool) as [[u|] pool']; [|done].
  by destruct (negb (String.eqb u "")).
Qed.

Lemma new_page_rotation pool now :
  (new_page_proxy (Some pool) now).2
  = Some (step pool (GetNext "round_robin" 0 now)).
Proof.
  unfold new_page_proxy. simpl.
  destruct (get_next "round_robin" 0 now pool) as [[u|] pool']; [|done].
  by destruct (negb (String.eqb u "")).
Qed.

Lemma after_pages_run headless pool now (nows : list Z) :
  after_pages headless (Some pool) now nows
  = Some (run pool (GetNext "round_robin" 0 <$> now :: nows)).
Proof.
  unfold after_pages. rewrite launch_rotation.
  induction nows as [|t nows IH] using rev_ind; [done|].
  rewrite foldl_app. cbn [foldl]. rewrite IH, new_page_rotation.
  rewrite app_comm_cons, fmap_app. cbn [fmap list_fmap]. by rewrite run_snoc.
Qed.

Lemma round_robin_calls_all (nows : list Z) :
  length (filter (λ o, is_round_robin o = true) (GetNext "round_robin" 0 <$> nows))
  = length nows.
Proof.
  induction nows as [|t nows IH]; [done|].
  rewrite fmap_cons, filter_cons_True by done. simpl. by rewrite IH.
Qed.

(** X21.  A browser hands out the proxies of its rotation in round-robin
    order.  With a pool of at least one record, all of them healthy and none
    with an empty url: [launch] passes the url at position [_index mod
    pool_size] as proxy server, and after [launch] and [k] calls of
    [new_page], the next [new_page] passes the url at position
    [(_index + k + 1) mod pool_size]. *)
Theorem pages_rotate_proxies headless pool now (nows : list Z) t :
  all_healthy pool →
  0 < pool_size pool →
  (∀ u, u ∈ urls pool → u ≠ "") →
  ∃ u0 u,
    urls pool !! (_index pool `mod` pool_size pool) = Some u0
    ∧ od_get (launch headless (Some pool) now).1 "proxy"
      = Some (OptProxy u0)
    ∧ urls pool !! ((_index pool + S (length nows)) `mod` pool_size pool) = Some u
    ∧ (new_page_proxy (after_pages headless (Some pool) now nows) t).1
      = Some (OptProxy u).
Proof.
  intros Hall Hn Hurls.
  assert (∀ pl now', all_healthy pl → pool_size pl = pool_size pool →
            urls pl = urls pool →
            ∃ u, urls pool !! (_index pl `mod` pool_size pool) = Some u
              ∧ get_next "round_robin" 0 now' pl
                = (Some u, (get_next "round_robin" 0 now' pl).2)
              ∧ u ≠ "") as Hpick.
  { intros pl now' Hh Hsize Hu.
    destruct (get_next_round_robin "round_robin" 0 now' pl)
      as (p & Hp & ->); [done | lia | done | done |].
    rewrite Hsize in Hp. exists (url p).
    assert (urls pool !! (_index pl `mod` pool_size pool) = Some (url p)) as Hlk.
    { rewrite <- Hu. unfold urls. by rewrite list_lookup_fmap, Hp. }
    split; [done|]. split; [done|].
    apply Hurls. by eapply list_elem_of_lookup_2. }
  destruct (Hpick pool now Hall eq_refl eq_refl) as (u0 & Hu0 & Hget0 & Hne0).
  set (ops := GetNext "round_robin" 0 <$> now :: nows).
  destruct (round_robin_history pool ops Hall Hn) as [Hall' Hidx].
  { intros o Ho. apply list_elem_of_fmap in Ho as (t' & -> & _). done. }
  unfold ops in Hidx at 2. rewrite round_robin_calls_all in Hidx.
  cbn [length] in Hidx.
  destruct (Hpick (run pool ops) t Hall') as (u & Hu & Hget & Hne).
  { pose proof (f_equal length (run_urls ops pool)) as H.
    unfold urls in H. by rewrite !length_fmap in H. }
  { apply run_urls. }
  rewrite <- Nat.Div0.mod_mod in Hu. rewrite Hidx, Nat.Div0.mod_mod in Hu.
  exists u0, u. split; [done|]. split; [|split; [done|]].
  - unfold launch. rewrite Hget0.
    destruct (String.eqb_spec u0 "") as [?|_]; [done|]. reflexivity.
  - rewrite after_pages_run. fold ops. unfold new_page_proxy. rewrite Hget.
    by destruct (String.eqb_spec u "") as [?|_].
Qed.

(** **** The theorems at work on concrete pools *)

Import Examples.

Lemma launch_without_healthy_proxy_is_direct_witness :
  let dark := run pair_pool [HealthCheck (λ _, ProbeFailed 25);
                             HealthCheck (λ _, ProbeFailed 26)] in
  launch true (Some dark) 30 = ([("headless", OptFlag true)], Some dark)
  ∧ (launch true (Some pair_pool) 30).1
    = [("headless", OptFlag true); ("proxy", OptProxy "http://10.0.0.1:8080")].
Proof.
  intros dark.
  destruct (launch_without_healthy_proxy_is_direct true 30) as (_ & Hdark & _ & Hset).
  split.
  - apply Hdark. intros p Hp. apply list_elem_of_lookup in Hp as [i Hi].
    destruct i as [|[|i]]; [| |discriminate Hi];
      vm_compute in Hi; by injection Hi as <-.
  - destruct (Hset pair_pool) as (u & -> & Hu).
    + exists (new_proxy "http://10.0.0.1:8080").
      split; [apply list_elem_of_here | reflexivity].
    + intros u Hu.
      change (urls pair_pool)
        with ["http://10.0.0.1:8080"; "http://10.0.0.2:8080"] in Hu.
      rewrite !elem_of_cons in Hu.
      destruct Hu as [->|[->|Hu]]; [done | done|]. by apply elem_of_nil in Hu.
    + vm_compute in Hu. injection Hu as <-. reflexivity.
Defined.

Lemma pages_rotate_proxies_witness :
  od_get (launch true (Some abc_pool) 1).1 "proxy"
  = Some (OptProxy "http://a:80")
  ∧ (new_page_proxy (after_pages true (Some abc_pool) 1 [2; 3; 4]%Z) 5).1
    = Some (OptProxy "http://b:80").
Proof.
  destruct (pages_rotate_proxies true abc_pool 1 [2; 3; 4]%Z 5)
    as (u0 & u & Hu0 & Hlaunch & Hu & Hpage).
  - intros p Hp.
    change (_proxies abc_pool)
      with [new_proxy "http://a:80"; new_proxy "http://b:80";
            new_proxy "http://c:80"] in Hp.
    rewrite !elem_of_cons in Hp.
    destruct Hp as [->|[->|[->|Hp]]]; [done..|]. by apply elem_of_nil in Hp.
  - vm_compute. lia.
  - intros v Hv.
    change (urls abc_pool) with ["http://a:80"; "http://b:80"; "http://c:80"] in Hv.
    rewrite !elem_of_cons in Hv.
    destruct Hv as [->|[->|[->|Hv]]]; [done..|]. by apply elem_of_nil in Hv.
  - vm_compute in Hu0, Hu. injection Hu0 as <-. injection Hu as <-.
    split; [exact Hlaunch | exact Hpage].
Defined.

End BrowserExtra.
